(** * godot-export-presets: the config-file lexer, parser and writer,
      the ConfigFile store and the export-preset layer, embedded in Rocq.

    Strings are sequences of UTF-16 code units, as [charCodeAt] and the
    single-character comparisons of the source see them.  JavaScript numbers
    are kept behind an interface ([JSNumber]): the source only ever calls
    [parseFloat], [isNaN], [isFinite], [String(n)] and compares with zero, so
    the development is generic in what these compute; a decimal model of the
    interface is given for concrete runs. *)

From Stdlib Require Import String Ascii DecimalString.
From Stdlib Require Import List NArith ZArith Bool Lia Arith.
From Stdlib Require Import Permutation Sorted DecimalNat.
From Stdlib Require QArith Qround.
Import ListNotations.

Set Implicit Arguments.
Set Warnings "-register-all".

(* ================================================================== *)
(** ** Strings *)

(** A UTF-16 code unit. *)
Definition char := N.
Bind Scope N_scope with char.

(** A JavaScript string. *)
Definition jstring := list char.

(** The code units of an ASCII literal. *)
Definition lit (s : string) : jstring :=
  map N_of_ascii (list_ascii_of_string s).

Definition NUL : char := 0.
Definition TAB : char := 9.
Definition LF : char := 10.
Definition CR : char := 13.
Definition SPACE : char := 32.
Definition DQUOTE : char := 34.
Definition HASH_CHAR : char := 35.
Definition LPAREN : char := 40.
Definition RPAREN : char := 41.
Definition PLUS : char := 43.
Definition COMMA_CHAR : char := 44.
Definition MINUS : char := 45.
Definition DOT : char := 46.
Definition SLASH : char := 47.
Definition SEMI : char := 59.
Definition EQUALS : char := 61.
Definition LBRACKET : char := 91.
Definition BACKSLASH : char := 92.
Definition RBRACKET : char := 93.
Definition UNDERSCORE : char := 95.

(** [a === b] on strings. *)
Fixpoint str_eqb (a b : jstring) : bool :=
  match a, b with
  | [], [] => true
  | x :: a', y :: b' => N.eqb x y && str_eqb a' b'
  | _, _ => false
  end.

(** [s.replace(/c/g, by)] for a one-character pattern [c]. *)
Definition replace_char (c : char) (by_ : jstring) (s : jstring) : jstring :=
  flat_map (fun x => if N.eqb x c then by_ else [x]) s.

(** The replace of [parse_config] on a section name: every non-overlapping
    backslash-bracket pair, scanning left to right, becomes a bracket. *)
Fixpoint unescape_brackets (s : jstring) : jstring :=
  match s with
  | a :: ((b :: r) as t) =>
      if N.eqb a BACKSLASH && N.eqb b RBRACKET
      then RBRACKET :: unescape_brackets r
      else a :: unescape_brackets t
  | _ => s
  end.

(** [lines.join] with a line feed. *)
Fixpoint join_lines (ls : list jstring) : jstring :=
  match ls with
  | [] => []
  | [l] => l
  | l :: rest => l ++ LF :: join_lines rest
  end.

(** [s.startsWith(p)]. *)
Fixpoint startsWith (p s : jstring) : bool :=
  match p, s with
  | [], _ => true
  | x :: p', y :: s' => N.eqb x y && startsWith p' s'
  | _ :: _, [] => false
  end.

(** [s.includes(p)]. *)
Fixpoint includes (p s : jstring) : bool :=
  startsWith p s ||
  match s with
  | [] => false
  | _ :: s' => includes p s'
  end.

(** [s.split(sep)] for a one-character separator: the current piece [cur]
    is closed at every separator. *)
Fixpoint split_on (sep : char) (cur : jstring) (s : jstring) : list jstring :=
  match s with
  | [] => [cur]
  | c :: s' =>
      if N.eqb c sep then cur :: split_on sep [] s'
      else split_on sep (cur ++ [c]) s'
  end.

Definition split (sep : char) (s : jstring) : list jstring := split_on sep [] s.

(** Decimal text of a natural number (template literals over line numbers
    and loop indices). *)
Definition nat_to_string (n : nat) : jstring :=
  lit (NilZero.string_of_uint (Nat.to_uint n)).

(* ================================================================== *)
(** ** Numbers *)

(** What the source asks of a JavaScript number. *)
Class JSNumber := {
  number : Type;
  NaN : number;
  Infinity : number;
  NegInfinity : number;                 (* -Infinity *)
  parseFloat : jstring -> number;
  isNaN : number -> bool;
  isFinite : number -> bool;
  is_positive : number -> bool;         (* value > 0 *)
  Number_toString : number -> jstring   (* String(value), `${value}` *)
}.

(** A decimal model of the interface: a finite number is a sign, a mantissa
    and a count of fractional digits, [mant / 10^frac]; binary rounding is
    not modelled. *)
Inductive dnum :=
| DNaN
| DInf (negative : bool)
| DFin (negative : bool) (mant : N) (frac : nat).

Definition is_digit (c : char) : bool := N.leb 48 c && N.leb c 57.

(** Drop trailing fractional zeros: [1.50] is [1.5]. *)
Fixpoint dnorm (fuel : nat) (m : N) (f : nat) : N * nat :=
  match fuel, f with
  | S fuel', S f' =>
      if N.eqb (N.modulo m 10) 0 then dnorm fuel' (N.div m 10) f' else (m, f)
  | _, _ => (m, f)
  end.

(** Leading digits of [s] accumulated into [acc]; the count read and the
    rest. *)
Fixpoint read_digits (s : jstring) (acc : N) (n : nat) : N * nat * jstring :=
  match s with
  | c :: s' =>
      if is_digit c then read_digits s' (acc * 10 + (c - 48))%N (S n)
      else (acc, n, s)
  | [] => (acc, n, s)
  end.

(** [parseFloat] on an optional sign, digits and an optional fraction (the
    only shape the lexer passes); no digit at all gives [NaN]. *)
Definition dparseFloat (s : jstring) : dnum :=
  let '(negative, s1) :=
    match s with
    | c :: r => if N.eqb c MINUS then (true, r)
                else if N.eqb c PLUS then (false, r) else (false, s)
    | [] => (false, s)
    end in
  let '(ip, ni, s2) := read_digits s1 0%N 0 in
  let '(m, nf) :=
    match s2 with
    | c :: r => if N.eqb c DOT
                then let '(m, nf, _) := read_digits r ip 0 in (m, nf)
                else (ip, 0)
    | [] => (ip, 0)
    end in
  if Nat.eqb (ni + nf) 0 then DNaN
  else let '(m', f') := dnorm nf m nf in DFin negative m' f'.

Definition digits_of (m : N) : jstring :=
  lit (NilZero.string_of_uint (N.to_uint m)).

Fixpoint strip_zeros_rev (r : jstring) : jstring :=
  match r with
  | c :: r' => if N.eqb c 48 then strip_zeros_rev r' else r
  | [] => []
  end.

Definition zeros (n : nat) : jstring := repeat 48%N n.

(** Number::toString of ECMAScript on the decimal model: [s] are the
    significant digits, [k] their count and [n] the position of the decimal
    point. *)
Definition dtoString (x : dnum) : jstring :=
  match x with
  | DNaN => lit "NaN"
  | DInf false => lit "Infinity"
  | DInf true => lit "-Infinity"
  | DFin negative m f =>
      if N.eqb m 0 then lit "0"
      else
        let d := digits_of m in
        let s := rev (strip_zeros_rev (rev d)) in
        let k := Z.of_nat (length s) in
        let n := (Z.of_nat (length d) - Z.of_nat f)%Z in
        let body :=
          if (k <=? n)%Z && (n <=? 21)%Z then s ++ zeros (Z.to_nat (n - k))
          else if (0 <? n)%Z && (n <=? 21)%Z
               then firstn (Z.to_nat n) s ++ DOT :: skipn (Z.to_nat n) s
          else if (-6 <? n)%Z && (n <=? 0)%Z
               then lit "0." ++ zeros (Z.to_nat (- n)) ++ s
          else
            let e := (n - 1)%Z in
            let etext := (if (e <? 0)%Z then [MINUS] else [PLUS])
                           ++ digits_of (Z.to_N (Z.abs e)) in
            match s with
            | [c] => c :: 101%N :: etext
            | c :: r => c :: DOT :: r ++ 101%N :: etext
            | [] => []
            end in
        if negative then MINUS :: body else body
  end.

Definition decimal_numbers : JSNumber := {|
  number := dnum;
  NaN := DNaN;
  Infinity := DInf false;
  NegInfinity := DInf true;
  parseFloat := dparseFloat;
  isNaN := fun x => match x with DNaN => true | _ => false end;
  isFinite := fun x => match x with DFin _ _ _ => true | _ => false end;
  is_positive := fun x =>
    match x with
    | DInf false => true
    | DFin false m _ => negb (N.eqb m 0)
    | _ => false
    end;
  Number_toString := dtoString
|}.

(* ================================================================== *)
(** ** The data model *)

Section Model.
Context {JSN : JSNumber}.

(** A JavaScript value as this library handles it ([unknown] in the
    source).  An object is the ordered list of its own properties; a Color
    is the object [{r, g, b, a}] and a Vector2 the object [{x, y}]. *)
Inductive value :=
| VUndefined
| VNull
| VBool (b : bool)
| VNum (n : number)
| VStr (s : jstring)
| VArr (items : list value)
| VObj (props : list (jstring * value)).

(** *** Ordered maps: [Map] and plain objects *)

Definition omap (V : Type) := list (jstring * V).

(** [m.get(k)], [o[k]]. *)
Fixpoint map_get {V} (k : jstring) (m : omap V) : option V :=
  match m with
  | [] => None
  | (k', v) :: m' => if str_eqb k' k then Some v else map_get k m'
  end.

(** [m.has(k)], [k in o]. *)
Definition map_has {V} (k : jstring) (m : omap V) : bool :=
  match map_get k m with Some _ => true | None => false end.

(** [m.set(k, v)], [o[k] = v]: an existing key keeps its place. *)
Fixpoint map_set {V} (k : jstring) (v : V) (m : omap V) : omap V :=
  match m with
  | [] => [(k, v)]
  | (k', v') :: m' =>
      if str_eqb k' k then (k', v) :: m' else (k', v') :: map_set k v m'
  end.

(** [delete o[k]]. *)
Definition map_delete {V} (k : jstring) (m : omap V) : omap V :=
  filter (fun kv => negb (str_eqb (fst kv) k)) m.

(** [Array.from(m.keys())]. *)
Definition map_keys {V} (m : omap V) : list jstring := map fst m.

(** The section/key/value store. *)
Definition KeyMap := omap value.
Definition Doc := omap KeyMap.

(** [values.get(section).set(key, value)] after the [has]/[set] guard. *)
Definition doc_set (section key : jstring) (v : value) (values : Doc) : Doc :=
  let values1 :=
    if map_has section values then values else map_set section [] values in
  match map_get section values1 with
  | Some keys => map_set section (map_set key v keys) values1
  | None => values1
  end.

(* ================================================================== *)
(** ** The parser (parser.ts) *)

Record ParseError := { pe_message : jstring; pe_line : nat }.

(** [error.message] as [super(...)] builds it. *)
Definition Error_message (e : ParseError) : jstring :=
  lit "Parse error at line " ++ nat_to_string (pe_line e)
    ++ lit ": " ++ pe_message e.

Inductive TokenType :=
| STRING | NUMBER | BOOLEAN | IDENTIFIER
| BRACKET_OPEN | BRACKET_CLOSE | PARENTHESIS_OPEN | PARENTHESIS_CLOSE
| EQUAL | COMMA | SEMICOLON | HASH | EOF.

Definition TokenType_name (t : TokenType) : jstring :=
  match t with
  | STRING => lit "STRING" | NUMBER => lit "NUMBER"
  | BOOLEAN => lit "BOOLEAN" | IDENTIFIER => lit "IDENTIFIER"
  | BRACKET_OPEN => lit "BRACKET_OPEN" | BRACKET_CLOSE => lit "BRACKET_CLOSE"
  | PARENTHESIS_OPEN => lit "PARENTHESIS_OPEN"
  | PARENTHESIS_CLOSE => lit "PARENTHESIS_CLOSE"
  | EQUAL => lit "EQUAL" | COMMA => lit "COMMA"
  | SEMICOLON => lit "SEMICOLON" | HASH => lit "HASH" | EOF => lit "EOF"
  end.

(** [string | number | boolean]. *)
Inductive TokenValue :=
| TStr (s : jstring)
| TNum (n : number)
| TBool (b : bool).

Record Token := { tk_type : TokenType; tk_value : TokenValue; tk_line : nat }.

(** [String(token.value)]. *)
Definition String_of_token_value (v : TokenValue) : jstring :=
  match v with
  | TStr s => s
  | TNum n => Number_toString n
  | TBool true => lit "true"
  | TBool false => lit "false"
  end.

(** The token value as a parsed value ([return token.value]). *)
Definition value_of_token_value (v : TokenValue) : value :=
  match v with
  | TStr s => VStr s
  | TNum n => VNum n
  | TBool b => VBool b
  end.

(** *** Stream *)

Record Stream := {
  content : jstring;
  pos : nat;
  line : nat;
  saved : option char
}.

Definition new_Stream (c : jstring) : Stream :=
  {| content := c; pos := 0; line := 1; saved := None |}.

Definition get_char (s : Stream) : char * Stream :=
  match saved s with
  | Some c =>
      (c, {| content := content s; pos := pos s; line := line s;
             saved := None |})
  | None =>
      if length (content s) <=? pos s then (NUL, s)
      else
        let c := nth (pos s) (content s) NUL in
        (c, {| content := content s; pos := S (pos s);
               line := if N.eqb c LF then S (line s) else line s;
               saved := None |})
  end.

Definition peek_char (s : Stream) : char :=
  if length (content s) <=? pos s then NUL
  else nth (pos s) (content s) NUL.

Definition save_char (c : char) (s : Stream) : Stream :=
  {| content := content s; pos := pos s; line := line s; saved := Some c |}.

Definition is_eof (s : Stream) : bool :=
  (length (content s) <=? pos s) &&
  match saved s with None => true | Some _ => false end.

Definition get_line (s : Stream) : nat := line s.

(** *** Character classes *)

Definition is_whitespace (c : char) : bool :=
  N.eqb c SPACE || N.eqb c TAB || N.eqb c CR || N.eqb c LF.

Definition is_alpha (c : char) : bool :=
  (N.leb 97 c && N.leb c 122) || (N.leb 65 c && N.leb c 90)
  || N.eqb c UNDERSCORE.

Definition is_alnum (c : char) : bool := is_alpha c || is_digit c.

Definition is_identifier_char (c : char) : bool :=
  is_alnum c || N.eqb c SLASH || N.eqb c DOT || N.eqb c UNDERSCORE
  || N.eqb c MINUS.

(** *** Outcomes

    A call returns, throws a [ParseError], or runs out of the fuel that
    bounds its loops (shown below never to happen). *)
Inductive outcome (A : Type) :=
| Ok (a : A)
| Throw (e : ParseError)
| Timeout.
Arguments Ok {A} a.
Arguments Throw {A} e.
Arguments Timeout {A}.

(** A computation over the stream. *)
Definition M (A : Type) := Stream -> outcome (A * Stream).

Definition ret {A} (a : A) : M A := fun s => Ok (a, s).

Definition bind {A B} (m : M A) (k : A -> M B) : M B :=
  fun s =>
    match m s with
    | Ok (a, s') => k a s'
    | Throw e => Throw e
    | Timeout => Timeout
    end.

Definition throw {A} (msg : jstring) (ln : nat) : M A :=
  fun _ => Throw {| pe_message := msg; pe_line := ln |}.

Notation "x <- m ;; k" := (bind m (fun x => k))
  (at level 61, m at next level, right associativity).

(** Enough iterations for any loop that consumes a character each time. *)
Definition loop_fuel (s : Stream) : nat := length (content s) - pos s + 2.

(** *** get_token *)

(** [while (true) { if (is_whitespace(peek_char())) { get_char(); continue; }
    break; }] *)
Fixpoint skip_whitespace_loop (fuel : nat) (s : Stream) : Stream :=
  match fuel with
  | 0 => s
  | S f =>
      if is_whitespace (peek_char s)
      then skip_whitespace_loop f (snd (get_char s))
      else s
  end.

Definition skip_whitespace (s : Stream) : Stream :=
  skip_whitespace_loop (loop_fuel s) s.

(** A comment: read through the end of the line. *)
Fixpoint skip_comment_loop (fuel : nat) (s : Stream) : Stream :=
  match fuel with
  | 0 => s
  | S f =>
      let (ch, s1) := get_char s in
      if N.eqb ch LF || N.eqb ch NUL then s1 else skip_comment_loop f s1
  end.

Definition skip_comment (s : Stream) : Stream :=
  skip_comment_loop (loop_fuel s) s.

(** The look-ahead test made at an unescaped quote. *)
Definition string_end_lookahead (peek : char) : bool :=
  N.eqb peek NUL || N.eqb peek LF || N.eqb peek CR || N.eqb peek SPACE
  || N.eqb peek TAB || N.eqb peek SEMI || N.eqb peek HASH_CHAR.

(** The string loop: [str] and [escaped] are its two variables, [ln] the
    line of the opening quote. *)
Fixpoint lex_string_loop (fuel : nat) (ln : nat) (str : jstring)
    (escaped : bool) (s : Stream) : outcome (jstring * Stream) :=
  match fuel with
  | 0 => Timeout
  | S f =>
      let (ch, s1) := get_char s in
      if N.eqb ch NUL
      then Throw {| pe_message := lit "Unterminated string"; pe_line := ln |}
      else if escaped then
        let str' :=
          if N.eqb ch 110 then str ++ [LF]
          else if N.eqb ch 116 then str ++ [TAB]
          else if N.eqb ch 114 then str ++ [CR]
          else if N.eqb ch BACKSLASH then str ++ [BACKSLASH]
          else if N.eqb ch DQUOTE then str ++ [DQUOTE]
          else str ++ [ch] in
        lex_string_loop f ln str' false s1
      else if N.eqb ch BACKSLASH then lex_string_loop f ln str true s1
      else if N.eqb ch DQUOTE then
        if string_end_lookahead (peek_char s1)
        then Ok (str, s1)          (* break *)
        else Ok (str, s1)          (* break, whatever follows *)
      else lex_string_loop f ln (str ++ [ch]) false s1
  end.

(** The number loop: digits and at most one decimal point. *)
Fixpoint lex_number_loop (fuel : nat) (numStr : jstring) (hasDot : bool)
    (s : Stream) : jstring * Stream :=
  match fuel with
  | 0 => (numStr, s)
  | S f =>
      let nextPeek := peek_char s in
      if is_digit nextPeek || N.eqb nextPeek DOT then
        if N.eqb nextPeek DOT then
          if hasDot then (numStr, s)
          else
            let (c, s1) := get_char s in
            lex_number_loop f (numStr ++ [c]) true s1
        else
          let (c, s1) := get_char s in
          lex_number_loop f (numStr ++ [c]) hasDot s1
      else (numStr, s)
  end.

(** The identifier loop. *)
Fixpoint lex_identifier_loop (fuel : nat) (ident : jstring) (s : Stream)
    : jstring * Stream :=
  match fuel with
  | 0 => (ident, s)
  | S f =>
      if is_identifier_char (peek_char s) then
        let (c, s1) := get_char s in
        lex_identifier_loop f (ident ++ [c]) s1
      else (ident, s)
  end.

Definition mkToken (t : TokenType) (v : TokenValue) (ln : nat) : Token :=
  {| tk_type := t; tk_value := v; tk_line := ln |}.

(** The dispatch of [get_token] on the character [c] just read at line
    [ln]; [again] is the call [get_token(stream)] made after a comment. *)
Definition token_switch (again : Stream -> outcome (Token * Stream))
    (ln : nat) (c : char) (s : Stream) : outcome (Token * Stream) :=
  if N.eqb c NUL then Ok (mkToken EOF (TStr []) ln, s)
  else if N.eqb c LBRACKET then Ok (mkToken BRACKET_OPEN (TStr [c]) ln, s)
  else if N.eqb c RBRACKET then Ok (mkToken BRACKET_CLOSE (TStr [c]) ln, s)
  else if N.eqb c LPAREN then Ok (mkToken PARENTHESIS_OPEN (TStr [c]) ln, s)
  else if N.eqb c RPAREN then Ok (mkToken PARENTHESIS_CLOSE (TStr [c]) ln, s)
  else if N.eqb c EQUALS then Ok (mkToken EQUAL (TStr [c]) ln, s)
  else if N.eqb c COMMA_CHAR then Ok (mkToken COMMA (TStr [c]) ln, s)
  else if N.eqb c SEMI then again (skip_comment s)
  else if N.eqb c HASH_CHAR then again (skip_comment s)
  else if N.eqb c DQUOTE then
    match lex_string_loop (loop_fuel s) ln [] false s with
    | Ok (str, s') => Ok (mkToken STRING (TStr str) ln, s')
    | Throw e => Throw e
    | Timeout => Timeout
    end
  else
    let peek := peek_char s in
    if is_digit c
       || (N.eqb c MINUS && is_digit peek)
       || (N.eqb c PLUS && is_digit peek)
       || (N.eqb c DOT && is_digit peek)
    then
      let (numStr, s') := lex_number_loop (loop_fuel s) [c] (N.eqb c DOT) s in
      let num := parseFloat numStr in
      if isNaN num
      then Throw {| pe_message := lit "Invalid number: " ++ numStr;
                    pe_line := ln |}
      else Ok (mkToken NUMBER (TNum num) ln, s')
    else if is_alpha c || N.eqb c SLASH then
      let (ident, s') := lex_identifier_loop (loop_fuel s) [c] s in
      if str_eqb ident (lit "true")
      then Ok (mkToken BOOLEAN (TBool true) ln, s')
      else if str_eqb ident (lit "false")
      then Ok (mkToken BOOLEAN (TBool false) ln, s')
      else Ok (mkToken IDENTIFIER (TStr ident) ln, s')
    else Throw {| pe_message := lit "Unexpected character: " ++ [c];
                  pe_line := ln |}.

(** [get_token]; the fuel bounds the recursion after a comment. *)
Fixpoint get_token_fuel (fuel : nat) (s0 : Stream) : outcome (Token * Stream) :=
  match fuel with
  | 0 => Timeout
  | S f =>
      let s1 := skip_whitespace s0 in
      let ln := get_line s1 in
      let (c, s) := get_char s1 in
      token_switch (get_token_fuel f) ln c s
  end.

Definition get_token : M Token := fun s => get_token_fuel (loop_fuel s) s.

(** *** Constructor arguments and values *)

Definition TokenType_eqb (a b : TokenType) : bool :=
  match a, b with
  | STRING, STRING | NUMBER, NUMBER | BOOLEAN, BOOLEAN
  | IDENTIFIER, IDENTIFIER | BRACKET_OPEN, BRACKET_OPEN
  | BRACKET_CLOSE, BRACKET_CLOSE | PARENTHESIS_OPEN, PARENTHESIS_OPEN
  | PARENTHESIS_CLOSE, PARENTHESIS_CLOSE | EQUAL, EQUAL | COMMA, COMMA
  | SEMICOLON, SEMICOLON | HASH, HASH | EOF, EOF => true
  | _, _ => false
  end.

(** [token.value as number]: a NUMBER token always carries a number. *)
Definition as_number (v : TokenValue) : number :=
  match v with TNum n => n | _ => NaN end.

(** [token.value as string]: an IDENTIFIER token always carries a string. *)
Definition as_string (v : TokenValue) : jstring :=
  match v with TStr s => s | _ => String_of_token_value v end.

(** The [while (true)] of [parse_construct_args]; [first] and [args] are
    its variables. *)
Fixpoint parse_construct_args_loop (fuel : nat) (first : bool)
    (args : list number) : M (list number) :=
  match fuel with
  | 0 => fun _ => Timeout
  | S f =>
      closed <-
        (if first then ret false
         else
           token <- get_token ;;
           match tk_type token with
           | COMMA => ret false
           | PARENTHESIS_CLOSE => ret true
           | _ => throw (lit "Expected ',' or ')' in constructor")
                    (tk_line token)
           end) ;;
      if closed : bool then ret args
      else
        token <- get_token ;;
        if first && TokenType_eqb (tk_type token) PARENTHESIS_CLOSE
        then ret args
        else
          match tk_type token with
          | NUMBER =>
              parse_construct_args_loop f false
                (args ++ [as_number (tk_value token)])
          | IDENTIFIER =>
              let ident := as_string (tk_value token) in
              if str_eqb ident (lit "inf") || str_eqb ident (lit "Infinity")
              then parse_construct_args_loop f false (args ++ [Infinity])
              else if str_eqb ident (lit "-inf")
                      || str_eqb ident (lit "-Infinity")
              then parse_construct_args_loop f false (args ++ [NegInfinity])
              else if str_eqb ident (lit "nan") || str_eqb ident (lit "NaN")
              then parse_construct_args_loop f false (args ++ [NaN])
              else throw (lit "Expected number in constructor, got: " ++ ident)
                     (tk_line token)
          | _ => throw (lit "Expected number in constructor") (tk_line token)
          end
  end.

Definition parse_construct_args : M (list number) :=
  token <- get_token ;;
  if negb (TokenType_eqb (tk_type token) PARENTHESIS_OPEN)
  then throw (lit "Expected '(' in constructor") (tk_line token)
  else fun s => parse_construct_args_loop (loop_fuel s) true [] s.

(** The object [{ r, g, b, a }]. *)
Definition Color (r g b a : number) : value :=
  VObj [(lit "r", VNum r); (lit "g", VNum g); (lit "b", VNum b);
        (lit "a", VNum a)].

(** The object [{ x, y }]. *)
Definition Vector2 (x y : number) : value :=
  VObj [(lit "x", VNum x); (lit "y", VNum y)].

Definition parse_value : M value :=
  token <- get_token ;;
  match tk_type token with
  | STRING | NUMBER | BOOLEAN => ret (value_of_token_value (tk_value token))
  | IDENTIFIER =>
      let ident := as_string (tk_value token) in
      if str_eqb ident (lit "Color") then
        args <- parse_construct_args ;;
        match args with
        | [r; g; b; a] => ret (Color r g b a)
        | _ => throw (lit "Expected 4 arguments for Color constructor")
                 (tk_line token)
        end
      else if str_eqb ident (lit "Vector2") then
        args <- parse_construct_args ;;
        match args with
        | [x; y] => ret (Vector2 x y)
        | _ => throw (lit "Expected 2 arguments for Vector2 constructor")
                 (tk_line token)
        end
      else throw (lit "Unknown identifier: " ++ ident) (tk_line token)
  | t => throw (lit "Unexpected token type: " ++ TokenType_name t)
           (tk_line token)
  end.

(** *** parse_config *)

Record ParseResult := { values : Doc; error : option ParseError }.

(** One turn of the top-level loop with the current section and the map
    built so far: [None] is the [break] at end of input, otherwise the
    current section and the map after the turn. *)
Definition parse_config_step (currentSection : jstring) (vals : Doc)
    : M (option (jstring * Doc)) :=
  fun s0 =>
    (token <- get_token ;;
     match tk_type token with
     | EOF => ret None
     | BRACKET_OPEN =>
         sectionToken <- get_token ;;
         match tk_type sectionToken with
         | IDENTIFIER | STRING =>
             let sectionName := String_of_token_value (tk_value sectionToken) in
             closeToken <- get_token ;;
             match tk_type closeToken with
             | BRACKET_CLOSE =>
                 let sectionName := unescape_brackets sectionName in
                 ret (Some (sectionName,
                            if map_has sectionName vals then vals
                            else map_set sectionName [] vals))
             | _ => throw (lit "Expected ']' after section name")
                      (tk_line closeToken)
             end
         | _ => throw (lit "Expected section name") (tk_line sectionToken)
         end
     | IDENTIFIER | STRING =>
         let key := String_of_token_value (tk_value token) in
         equalToken <- get_token ;;
         match tk_type equalToken with
         | EQUAL =>
             v <- parse_value ;;
             ret (Some (currentSection, doc_set currentSection key v vals))
         | _ => throw (lit "Expected '=' after key") (tk_line equalToken)
         end
     | BRACKET_CLOSE => throw (lit "Unexpected ']'") (tk_line token)
     | _ => ret (Some (currentSection, vals))
     end) (skip_whitespace s0).

(** The [try { while (true) ... } catch] of [parse_config]: a thrown
    [ParseError] is returned beside the map as it stands. *)
Fixpoint parse_config_loop (fuel : nat) (s : Stream) (currentSection : jstring)
    (vals : Doc) : option ParseResult :=
  match fuel with
  | 0 => None
  | S f =>
      match parse_config_step currentSection vals s with
      | Ok (None, _) => Some {| values := vals; error := None |}
      | Ok (Some (section', vals'), s') => parse_config_loop f s' section' vals'
      | Throw e => Some {| values := vals; error := Some e |}
      | Timeout => None
      end
  end.

(** The run of [parse_config] under its fuel; [None] only if the fuel were
    to run out. *)
Definition parse_config_run (content : jstring) : option ParseResult :=
  parse_config_loop (length content + 2) (new_Stream content) [] [].

Definition parse_config (content : jstring) : ParseResult :=
  match parse_config_run content with
  | Some r => r
  | None => {| values := []; error := None |}
  end.

(* ================================================================== *)
(** ** The writer (writer.ts) *)

(** The test on one character code in [needs_quotes]. *)
Definition quoted_code (code : N) : bool :=
  N.eqb code 61 || N.eqb code 34 || N.eqb code 59 || N.eqb code 91
  || N.eqb code 93 || N.ltb code 33 || N.ltb 126 code.

Definition needs_quotes (str : jstring) : bool :=
  if Nat.eqb (length str) 0 then true else existsb quoted_code str.

(** The two replaces: every backslash is doubled, then every double quote
    gets a backslash before it. *)
Definition escape_string (str : jstring) : jstring :=
  replace_char DQUOTE [BACKSLASH; DQUOTE]
    (replace_char BACKSLASH [BACKSLASH; BACKSLASH] str).

Definition encode_key (key : jstring) : jstring :=
  if needs_quotes key
  then
    let escaped :=
      replace_char DQUOTE [BACKSLASH; DQUOTE]
        (replace_char BACKSLASH [BACKSLASH; BACKSLASH] key) in
    DQUOTE :: escaped ++ [DQUOTE]
  else key.

(** [String(value)]: an array joins its elements with commas, [null] and
    [undefined] elements as empty text; a plain object is
    [[object Object]]. *)
Fixpoint js_String (v : value) : jstring :=
  match v with
  | VUndefined => lit "undefined"
  | VNull => lit "null"
  | VBool true => lit "true"
  | VBool false => lit "false"
  | VNum n => Number_toString n
  | VStr s => s
  | VArr items =>
      let element x :=
        match x with
        | VUndefined | VNull => []
        | _ => js_String x
        end in
      (fix join (l : list value) : jstring :=
         match l with
         | [] => []
         | [x] => element x
         | x :: r => element x ++ COMMA_CHAR :: join r
         end) items
  | VObj _ => lit "[object Object]"
  end.

(** [k in value && typeof value.k === number]. *)
Definition number_field (k : string) (props : omap value) : option number :=
  match map_get (lit k) props with
  | Some (VNum n) => Some n
  | _ => None
  end.

Definition serialize_value (v : value) : jstring :=
  match v with
  | VNull | VUndefined => lit "null"
  | VStr s => DQUOTE :: escape_string s ++ [DQUOTE]
  | VNum n =>
      if isNaN n then lit "nan"
      else if negb (isFinite n)
      then (if is_positive n then lit "inf" else lit "-inf")
      else Number_toString n
  | VBool b => if b then lit "true" else lit "false"
  | VObj props =>
      match number_field "r" props, number_field "g" props,
            number_field "b" props, number_field "a" props with
      | Some r, Some g, Some b, Some a =>
          lit "Color(" ++ Number_toString r ++ lit ", " ++ Number_toString g
            ++ lit ", " ++ Number_toString b ++ lit ", " ++ Number_toString a
            ++ lit ")"
      | _, _, _, _ =>
          match number_field "x" props, number_field "y" props with
          | Some x, Some y =>
              lit "Vector2(" ++ Number_toString x ++ lit ", "
                ++ Number_toString y ++ lit ")"
          | _, _ => js_String v
          end
      end
  | VArr _ => js_String v
  end.

(** The lines one section adds to [sections]. *)
Definition serialize_section (first : bool) (section : jstring)
    (keys : KeyMap) (sections : list jstring) : list jstring :=
  let sections := if first then sections else sections ++ [[]] in
  let sections :=
    if negb (Nat.eqb (length section) 0)
    then sections
           ++ [LBRACKET :: replace_char RBRACKET [BACKSLASH; RBRACKET] section
                 ++ [RBRACKET]; []]
    else sections in
  fold_left
    (fun acc kv => acc ++ [encode_key (fst kv) ++ EQUALS :: serialize_value (snd kv)])
    keys sections.

Definition serialize_config (vals : Doc) : jstring :=
  let result :=
    fold_left
      (fun (st : list jstring * bool) (entry : jstring * KeyMap) =>
         (serialize_section (snd st) (fst entry) (snd entry) (fst st), false))
      vals ([], true) in
  join_lines (fst result) ++ [LF].

(* ================================================================== *)
(** ** ConfigFile (config-file.ts) *)

(** What a call can throw: a [ParseError], or a plain [Error] with its
    message. *)
Inductive exn :=
| ParseErr (e : ParseError)
| Err (msg : jstring).

(** The object's one field. *)
Record ConfigFile := { cf_values : Doc }.

Definition new_ConfigFile : ConfigFile := {| cf_values := [] |}.

(** [parse(content)]: the object after the call and what the call
    returns. *)
Definition ConfigFile_parse (this : ConfigFile) (content : jstring)
    : ConfigFile * option ParseError :=
  let r := parse_config content in
  match error r with
  | Some e => (this, Some e)
  | None => ({| cf_values := values r |}, None)
  end.

(** [get_value(section, key, defaultValue)]; an omitted default is
    [undefined]. *)
Definition get_value (this : ConfigFile) (section key : jstring)
    (defaultValue : value) : exn + value :=
  let supplied :=
    match defaultValue with VUndefined => false | _ => true end in
  match map_get section (cf_values this) with
  | None =>
      if supplied then inr defaultValue
      else inl (Err (lit "Section " ++ DQUOTE :: section ++ DQUOTE
                       :: lit " not found and no default value provided"))
  | Some sectionMap =>
      match map_get key sectionMap with
      | None =>
          if supplied then inr defaultValue
          else inl (Err (lit "Key " ++ DQUOTE :: key ++ DQUOTE
                           :: lit " not found in section " ++ DQUOTE
                           :: section ++ DQUOTE
                           :: lit " and no default value provided"))
      | Some v => inr v
      end
  end.

Definition set_value (this : ConfigFile) (section key : jstring) (v : value)
    : ConfigFile :=
  {| cf_values := doc_set section key v (cf_values this) |}.

Definition has_section (this : ConfigFile) (section : jstring) : bool :=
  map_has section (cf_values this).

Definition has_section_key (this : ConfigFile) (section key : jstring) : bool :=
  match map_get section (cf_values this) with
  | None => false
  | Some sectionMap => map_has key sectionMap
  end.

Definition clear (this : ConfigFile) : ConfigFile := {| cf_values := [] |}.

Definition get_sections (this : ConfigFile) : list jstring :=
  map_keys (cf_values this).

Definition get_section_keys (this : ConfigFile) (section : jstring)
    : list jstring :=
  match map_get section (cf_values this) with
  | None => []
  | Some sectionMap => map_keys sectionMap
  end.

Definition encode_to_text (this : ConfigFile) : jstring :=
  serialize_config (cf_values this).

(* ================================================================== *)
(** ** Objects the code builds, and their prototype *)

(** [Object.entries(v)] of a truthy value: the properties of an object, the
    elements of an array and the code units of a string under their
    indices, nothing for a number or a boolean. *)
Definition Object_entries (v : value) : omap value :=
  match v with
  | VObj props => props
  | VArr items => combine (map nat_to_string (seq 0 (length items))) items
  | VStr s =>
      combine (map nat_to_string (seq 0 (length s))) (map (fun c => VStr [c]) s)
  | _ => []
  end.

(** The spread [{ ...o }]: every own property of [o] is defined on a new
    object, whatever its name. *)
Definition spread (o : omap value) : omap value :=
  fold_left (fun acc kv => map_set (fst kv) (snd kv) acc) o [].

(** The property name that [Object.prototype] holds as a getter and a
    setter. *)
Definition PROTO : jstring := lit "__proto__".

(** The prototype of an object the code builds.  It is [Object.prototype]
    for an object literal or a spread, and stays so until an assignment
    [o[key] = v] with the key [__proto__] reaches the setter of
    [Object.prototype]: the setter makes no property; it replaces the
    prototype of [o] by [v] when [v] is an object or an array, removes it
    when [v] is [null], and does nothing otherwise.  [Value_prototype v
    next] is the object or array [v] with the prototype [next] behind it.
    The values of the data are plain: behind an object of the data lies
    [Object.prototype], and behind an array [Array.prototype] and then
    [Object.prototype]. *)
Inductive prototype :=
| Object_prototype
| Null_prototype
| Value_prototype (v : value) (next : prototype).

(** An object the code builds: its own properties in order, and its
    prototype. *)
Record jsobject := { own : omap value; proto : prototype }.

(** The object literal [{ ... }] with the properties [props]. *)
Definition object_literal (props : omap value) : jsobject :=
  {| own := props; proto := Object_prototype |}.

(** The prototype as the value the getter returns.  [Object.prototype]
    itself is an object without enumerable properties. *)
Definition prototype_value (p : prototype) : value :=
  match p with
  | Object_prototype => VObj []
  | Null_prototype => VNull
  | Value_prototype v _ => v
  end.

(** The read [o[key]] of a property that [o] does not own, along the
    prototype chain [p] of the object whose prototype is [receiver]: the
    first object of the chain that owns the key gives its value; at
    [Object.prototype] the key [__proto__] gives the prototype of the
    object read.  The other properties of [Object.prototype] and those of
    [Array.prototype] are functions, and the length of an array is a
    number; the data has no such values, and they are read as
    [undefined]: the code asks of a property it reads this way only
    whether it is a plain object. *)
Fixpoint inherited (key : jstring) (receiver p : prototype) : value :=
  match p with
  | Object_prototype =>
      if str_eqb key PROTO then prototype_value receiver else VUndefined
  | Null_prototype => VUndefined
  | Value_prototype v next =>
      match map_get key (Object_entries v) with
      | Some x => x
      | None => inherited key receiver next
      end
  end.

(** [o[key]]. *)
Definition property_read (o : jsobject) (key : jstring) : value :=
  match map_get key (own o) with
  | Some v => v
  | None => inherited key (proto o) (proto o)
  end.

(** An assignment to the key [__proto__] that finds no own property of
    that name along the chain [p] reaches the setter of
    [Object.prototype]. *)
Fixpoint setter_reached (p : prototype) : bool :=
  match p with
  | Object_prototype => true
  | Null_prototype => false
  | Value_prototype v next =>
      negb (map_has PROTO (Object_entries v)) && setter_reached next
  end.

(** [o[key] = v], where [vp] is the prototype of [v] when [v] is an object.
    Every property of the chain but the setter is a writable data
    property, so the assignment sets or adds an own property of [o],
    unless it reaches the setter. *)
Definition property_assign (o : jsobject) (key : jstring) (v : value)
    (vp : prototype) : jsobject :=
  if str_eqb key PROTO && negb (map_has PROTO (own o))
     && setter_reached (proto o)
  then match v with
       | VObj _ | VArr _ =>
           {| own := own o; proto := Value_prototype v vp |}
       | VNull => {| own := own o; proto := Null_prototype |}
       | _ => o
       end
  else {| own := map_set key v (own o); proto := proto o |}.

(* ================================================================== *)
(** ** Export presets: the parser (export-presets/parser.ts) *)

(** An [ExportPreset]: the object as the ordered list of its own
    properties. *)
Definition ExportPreset := omap value.

(** White space as [parseInt] trims it. *)
Definition is_js_space (c : char) : bool :=
  (N.leb 9 c && N.leb c 13) || N.eqb c 32 || N.eqb c 160 || N.eqb c 5760
  || (N.leb 8192 c && N.leb c 8202) || N.eqb c 8232 || N.eqb c 8233
  || N.eqb c 8239 || N.eqb c 8287 || N.eqb c 12288 || N.eqb c 65279.

Fixpoint trim_start (s : jstring) : jstring :=
  match s with
  | c :: s' => if is_js_space c then trim_start s' else s
  | [] => []
  end.

(** [parseInt(s, 10)] as an exact integer; [None] is [NaN]. *)
Definition parseInt10 (s : jstring) : option Z :=
  let s0 := trim_start s in
  let '(negative, s1) :=
    match s0 with
    | c :: r => if N.eqb c MINUS then (true, r)
                else if N.eqb c PLUS then (false, r) else (false, s0)
    | [] => (false, s0)
    end in
  let '(m, n, _) := read_digits s1 0%N 0 in
  if Nat.eqb n 0 then None
  else Some (if negative then (- Z.of_N m)%Z else Z.of_N m).

(** [parseInt] of the piece after the first dot, or of [0] when that
    piece is missing or empty. *)
Definition section_index (a : jstring) : option Z :=
  parseInt10
    match nth_error (split DOT a) 1 with
    | Some (c :: r) => c :: r
    | _ => lit "0"
    end.

(** [aNum - bNum < 0]; a [NaN] difference counts as zero. *)
Definition index_before (a b : jstring) : bool :=
  match section_index a, section_index b with
  | Some x, Some y => (x - y <? 0)%Z
  | _, _ => false
  end.

(** [Array.prototype.sort] with that comparator, as a stable insertion
    sort. *)
Fixpoint insert_section (x : jstring) (l : list jstring) : list jstring :=
  match l with
  | [] => [x]
  | y :: l' => if index_before x y then x :: y :: l'
               else y :: insert_section x l'
  end.

Definition sort_sections (l : list jstring) : list jstring :=
  fold_left (fun acc x => insert_section x acc) l [].

(** The first loop of a preset: [preset[key] = value] for every key of
    the section except [options]. *)
Fixpoint copy_preset_keys (configFile : ConfigFile) (presetSection : jstring)
    (keys : list jstring) (preset : jsobject) : exn + jsobject :=
  match keys with
  | [] => inr preset
  | key :: keys' =>
      match get_value configFile presetSection key VUndefined with
      | inl e => inl e
      | inr v =>
          if str_eqb key (lit "options")
          then copy_preset_keys configFile presetSection keys' preset
          else copy_preset_keys configFile presetSection keys'
                 (property_assign preset key v Object_prototype)
      end
  end.

(** The second loop: [options[key] = value] for the keys of the options
    section. *)
Fixpoint copy_option_keys (configFile : ConfigFile) (optionsSection : jstring)
    (keys : list jstring) (options : jsobject) : exn + jsobject :=
  match keys with
  | [] => inr options
  | key :: keys' =>
      match get_value configFile optionsSection key VUndefined with
      | inl e => inl e
      | inr v =>
          copy_option_keys configFile optionsSection keys'
            (property_assign options key v Object_prototype)
      end
  end.

(** The body of [for (const presetSection of presetSections)]; the preset
    pushed, as its own properties. *)
Definition build_preset (configFile : ConfigFile) (presetSection : jstring)
    : exn + ExportPreset :=
  let preset0 :=
    object_literal
      [(lit "name", VStr []); (lit "platform", VStr []);
       (lit "runnable", VBool false)] in
  match copy_preset_keys configFile presetSection
          (get_section_keys configFile presetSection) preset0 with
  | inl e => inl e
  | inr preset =>
      let optionsSection := presetSection ++ lit ".options" in
      if has_section configFile optionsSection then
        match copy_option_keys configFile optionsSection
                (get_section_keys configFile optionsSection)
                (object_literal []) with
        | inl e => inl e
        | inr options =>
            inr (own (property_assign preset (lit "options")
                        (VObj (own options)) (proto options)))
        end
      else inr (own preset)
  end.

Fixpoint build_presets (configFile : ConfigFile) (presetSections : list jstring)
    (presets : list ExportPreset) : exn + list ExportPreset :=
  match presetSections with
  | [] => inr presets
  | presetSection :: rest =>
      match build_preset configFile presetSection with
      | inl e => inl e
      | inr preset => build_presets configFile rest (presets ++ [preset])
      end
  end.

(** [parseExportPresets(content)]: the list [presets] of the returned
    file, or what is thrown. *)
Definition parseExportPresets (content : jstring) : exn + list ExportPreset :=
  let (configFile, err) := ConfigFile_parse new_ConfigFile content in
  match err with
  | Some e => inl (ParseErr e)
  | None =>
      let sections := get_sections configFile in
      let presetSections :=
        sort_sections
          (filter (fun s => startsWith (lit "preset.") s
                            && negb (includes (lit ".options") s))
             sections) in
      build_presets configFile presetSections []
  end.

(* ================================================================== *)
(** ** Export presets: merging (export-presets/merge.ts) *)

(** [Object.assign(merged, opts)]: [merged[key] = value] for every own
    property of [opts], in order. *)
Definition Object_assign (merged : jsobject) (opts : omap value) : jsobject :=
  fold_left
    (fun acc kv => property_assign acc (fst kv) (snd kv) Object_prototype)
    opts merged.


(** What [deepMerge] assigns to [result[key]], given the value
    [result[key]] read before and the source value: the value, and its
    prototype when it is an object built here.  The inner loop is the
    [for] of the recursive call, over the new object [{ ...target }]. *)
Fixpoint merged_field (key : jstring) (targetValue sourceValue : value)
    {struct sourceValue} : value * prototype :=
  match targetValue, sourceValue with
  | VObj target, VObj source =>
      if negb (str_eqb key (lit "options")) then
        let result :=
          (fix entries (src : omap value) (result : jsobject) : jsobject :=
             match src with
             | [] => result
             | (k, v) :: src' =>
                 entries src'
                   (let nv := merged_field k (property_read result k) v in
                    property_assign result k (fst nv) (snd nv))
             end) source (object_literal (spread target)) in
        (VObj (own result), proto result)
      else (sourceValue, Object_prototype)
  | _, _ => (sourceValue, Object_prototype)
  end.

(** The loop [for (const [key, sourceValue] of Object.entries(source))]
    of [deepMerge]. *)
Definition deepMerge_loop (source : omap value) (result : jsobject)
    : jsobject :=
  fold_left
    (fun result kv =>
       let nv := merged_field (fst kv) (property_read result (fst kv)) (snd kv) in
       property_assign result (fst kv) (fst nv) (snd nv))
    source result.

(** [deepMerge(target, source)]: the object returned. *)
Definition deepMerge (target source : omap value) : jsobject :=
  deepMerge_loop source (object_literal (spread target)).

(** [mergeOptions(...options)]: the own properties of the object
    returned. *)
Definition mergeOptions (options : list (omap value)) : omap value :=
  match options with
  | [] => []
  | [o] => spread o
  | _ => own (fold_left Object_assign options (object_literal []))
  end.

(** An options field read, a [PresetOptions] object or undefined by its
    declared type: [None] stands for an undefined or otherwise falsy
    field. *)
Definition options_field (v : value) : option (omap value) :=
  match v with
  | VObj o => Some o
  | _ => None
  end.

(** [preset.options] of a preset of the data. *)
Definition preset_options (p : ExportPreset) : option (omap value) :=
  match map_get (lit "options") p with
  | Some (VObj o) => Some o
  | _ => None
  end.

(** [{ ...p, options: p.options ? { ...p.options } : undefined }]. *)
Definition copy_preset (p : ExportPreset) : ExportPreset :=
  map_set (lit "options")
    match preset_options p with
    | Some o => VObj (spread o)
    | None => VUndefined
    end
    (spread p).

(** [a || {}] on an options field. *)
Definition options_or_empty (o : option (omap value)) : omap value :=
  match o with Some x => x | None => [] end.

(** One turn of the loop over [presets[1..]]; [merged] as its own
    properties, before and after. *)
Definition merge_step (merged current : ExportPreset) : ExportPreset :=
  let currentWithoutOptions :=
    map_delete (lit "options") (spread current) in
  let merged1 := deepMerge merged currentWithoutOptions in
  own
    (property_assign merged1 (lit "options")
       (VObj
          (mergeOptions
             [options_or_empty
                (options_field (property_read merged1 (lit "options")));
              options_or_empty (preset_options current)]))
       Object_prototype).

Definition mergePresets (presets : list ExportPreset) : exn + ExportPreset :=
  match presets with
  | [] => inl (Err (lit "At least one preset required for merging"))
  | [p] => inr (copy_preset p)
  | p :: rest => inr (fold_left merge_step rest (copy_preset p))
  end.

(* ================================================================== *)
(** ** Export presets: the serializer (export-presets/serializer.ts) *)

(** Truthiness, [if (v)] and [v || w]: a number is falsy when it is [NaN]
    or a zero, the two numbers whose text is 0. *)
Definition truthy (v : value) : bool :=
  match v with
  | VUndefined | VNull => false
  | VBool b => b
  | VNum n => negb (isNaN n) && negb (str_eqb (Number_toString n) (lit "0"))
  | VStr s => negb (Nat.eqb (length s) 0)
  | VArr _ | VObj _ => true
  end.

(** The body of the loop for the preset at index [i]. *)
Definition serialize_preset (configFile : ConfigFile) (i : nat)
    (preset : ExportPreset) : ConfigFile :=
  let presetSection := lit "preset." ++ nat_to_string i in
  let optionsSection := presetSection ++ lit ".options" in
  let configFile1 :=
    fold_left
      (fun cf kv =>
         if str_eqb (fst kv) (lit "options") then cf
         else set_value cf presetSection (fst kv) (snd kv))
      preset configFile in
  match map_get (lit "options") preset with
  | Some options =>
      if truthy options
      then fold_left
             (fun cf kv => set_value cf optionsSection (fst kv) (snd kv))
             (Object_entries options) configFile1
      else configFile1
  | None => configFile1
  end.

(** The loop [for (let i = 0; i < presets.presets.length; i++)], from
    index [i] on. *)
Fixpoint serialize_presets_from (i : nat) (presets : list ExportPreset)
    (configFile : ConfigFile) : ConfigFile :=
  match presets with
  | [] => configFile
  | preset :: rest =>
      serialize_presets_from (S i) rest (serialize_preset configFile i preset)
  end.

Definition serializeExportPresets (presets : list ExportPreset) : jstring :=
  encode_to_text (serialize_presets_from 0 presets new_ConfigFile).

(* ================================================================== *)
(** ** Export presets: operations (export-presets/operations.ts) *)

(** A number given as an index: not a number, an infinity, or a finite
    number as the exact rational it is (the two zeros are one index). *)
Inductive jsindex :=
| INaN
| IInf (negative : bool)
| IFin (q : QArith_base.Q).

(** The whole number [z] as an index. *)
Definition whole (z : Z) : jsindex := IFin (QArith_base.inject_Z z).

(** [index < 0], [index >= 0], [index < n] and [index >= n]; every
    comparison with [NaN] is false. *)
Definition index_negative (i : jsindex) : bool :=
  match i with
  | INaN => false
  | IInf negative => negative
  | IFin q => negb (QArith_base.Qle_bool (QArith_base.inject_Z 0) q)
  end.

Definition index_nonnegative (i : jsindex) : bool :=
  match i with
  | INaN => false
  | IInf negative => negb negative
  | IFin q => QArith_base.Qle_bool (QArith_base.inject_Z 0) q
  end.

Definition index_below (i : jsindex) (n : nat) : bool :=
  match i with
  | INaN => false
  | IInf negative => negative
  | IFin q =>
      negb (QArith_base.Qle_bool (QArith_base.inject_Z (Z.of_nat n)) q)
  end.

Definition index_at_least (i : jsindex) (n : nat) : bool :=
  match i with
  | INaN => false
  | IInf negative => negb negative
  | IFin q => QArith_base.Qle_bool (QArith_base.inject_Z (Z.of_nat n)) q
  end.

(** The array [presets.presets]: its elements, and the properties it holds
    under numbers that are not whole, which are no elements ([setPreset]
    makes one when it is given such an index). *)
Record PresetArray := {
  elements : list ExportPreset;
  others : list (QArith_base.Q * ExportPreset)
}.

(** An array literal, a parsed list, a spread copy. *)
Definition array_of (l : list ExportPreset) : PresetArray :=
  {| elements := l; others := [] |}.

Fixpoint others_get (q : QArith_base.Q)
    (l : list (QArith_base.Q * ExportPreset)) : option ExportPreset :=
  match l with
  | [] => None
  | (q', p) :: l' =>
      if QArith_base.Qeq_bool q' q then Some p else others_get q l'
  end.

Fixpoint others_set (q : QArith_base.Q) (p : ExportPreset)
    (l : list (QArith_base.Q * ExportPreset))
    : list (QArith_base.Q * ExportPreset) :=
  match l with
  | [] => [(q, p)]
  | (q', p') :: l' =>
      if QArith_base.Qeq_bool q' q then (q', p) :: l'
      else (q', p') :: others_set q p l'
  end.

Definition is_whole (q : QArith_base.Q) : bool :=
  QArith_base.Qeq_bool q (QArith_base.inject_Z (Qround.Qfloor q)).

(** [array[index]] for an index from zero up to the length; a property
    named [NaN] is not represented. *)
Definition array_get (a : PresetArray) (i : jsindex) : option ExportPreset :=
  match i with
  | IFin q =>
      if is_whole q then nth_error (elements a) (Z.to_nat (Qround.Qfloor q))
      else others_get q (others a)
  | _ => None
  end.

(** [l[i] = x] for [i] below the length. *)
Fixpoint list_set {A} (i : nat) (x : A) (l : list A) : list A :=
  match l, i with
  | [], _ => []
  | _ :: l', 0 => x :: l'
  | y :: l', S i' => y :: list_set i' x l'
  end.

(** [array[index] = preset] for an index from zero up to the length. *)
Definition array_set (a : PresetArray) (i : jsindex) (p : ExportPreset)
    : PresetArray :=
  match i with
  | IFin q =>
      if is_whole q
      then {| elements := list_set (Z.to_nat (Qround.Qfloor q)) p (elements a);
              others := others a |}
      else {| elements := elements a; others := others_set q p (others a) |}
  | _ => a
  end.

Definition getPreset (presets : PresetArray) (index : jsindex)
    : option ExportPreset :=
  if index_negative index || index_at_least index (length (elements presets))
  then None
  else array_get presets index.

(** [String(preset.key || empty)]. *)
Definition field_text (preset : ExportPreset) (key : jstring) : jstring :=
  match map_get key preset with
  | Some v => if truthy v then js_String v else []
  | None => []
  end.

(** [s.trim()]. *)
Definition trim (s : jstring) : jstring :=
  rev (trim_start (rev (trim_start s))).

Record FindPresetCriteria := {
  criteria_name : option jstring;
  criteria_platform : option jstring;
  criteria_index : option jsindex
}.

Section Find.
(** [String.prototype.toUpperCase], whatever it maps each string to. *)
Variable toUpperCase : jstring -> jstring.

(** One of the two tests on a preset: the criterion is a non-empty string
    and the two texts agree once trimmed and in upper case. *)
Definition criterion_matches (criterion : option jstring)
    (preset : ExportPreset) (key : jstring) : bool :=
  match criterion with
  | Some c =>
      negb (Nat.eqb (length c) 0)
      && str_eqb (toUpperCase (trim (field_text preset key)))
           (toUpperCase (trim c))
  | None => false
  end.

(** The loop [for (const preset of presets.presets)]. *)
Fixpoint findPreset_loop (criteria : FindPresetCriteria)
    (l : list ExportPreset) : option ExportPreset :=
  match l with
  | [] => None
  | preset :: rest =>
      if criterion_matches (criteria_platform criteria) preset (lit "platform")
      then Some preset
      else if criterion_matches (criteria_name criteria) preset (lit "name")
      then Some preset
      else findPreset_loop criteria rest
  end.

(** The two tests together. *)
Definition preset_matches (criteria : FindPresetCriteria)
    (preset : ExportPreset) : bool :=
  criterion_matches (criteria_platform criteria) preset (lit "platform")
  || criterion_matches (criteria_name criteria) preset (lit "name").

Definition findPreset (presets : PresetArray) (criteria : FindPresetCriteria)
    : option ExportPreset :=
  match criteria_index criteria with
  | Some index => getPreset presets index
  | None => findPreset_loop criteria (elements presets)
  end.
End Find.

(** [setPreset(presets, preset, index)]; an omitted index is [None]. *)
Definition setPreset (presets : PresetArray) (preset : ExportPreset)
    (index : option jsindex) : PresetArray :=
  let newPresets := array_of (elements presets) in
  match index with
  | Some i =>
      if index_nonnegative i && index_below i (length (elements newPresets))
      then array_set newPresets i preset
      else array_of (elements newPresets ++ [preset])
  | None => array_of (elements newPresets ++ [preset])
  end.

(** [ToIntegerOrInfinity] of an index that is not negative and below the
    length: [NaN] is zero, a finite number is cut to its whole part. *)
Definition splice_start (i : jsindex) : nat :=
  match i with
  | IFin q => Z.to_nat (Qround.Qfloor q)
  | _ => 0
  end.

Definition removePreset (presets : PresetArray) (index : jsindex)
    : PresetArray :=
  if index_negative index || index_at_least index (length (elements presets))
  then presets
  else
    let newPresets := array_of (elements presets) in
    let start := splice_start index in
    array_of (firstn start (elements newPresets)
                ++ skipn (S start) (elements newPresets)).

(* ================================================================== *)
(** ** Vocabulary of the proofs *)

(** Line feeds in a text. *)
Fixpoint count_lf (l : jstring) : nat :=
  match l with
  | [] => 0
  | c :: l' => (if N.eqb c LF then 1 else 0) + count_lf l'
  end.

(** The stream that has read [pre] and has [l] ahead of it. *)
Definition at_ (pre l : jstring) : Stream :=
  {| content := pre ++ l; pos := length pre; line := S (count_lf pre);
     saved := None |}.

(** The longest prefix of characters in a class, and what follows it. *)
Fixpoint take_while (p : char -> bool) (l : jstring) : jstring :=
  match l with
  | c :: l' => if p c then c :: take_while p l' else []
  | [] => []
  end.

Fixpoint drop_while (p : char -> bool) (l : jstring) : jstring :=
  match l with
  | c :: l' => if p c then drop_while p l' else l
  | [] => []
  end.

(** What the number loop reads of [l], having seen a decimal point or
    not, and what it leaves. *)
Fixpoint number_tail (hasDot : bool) (l : jstring) : jstring :=
  match l with
  | c :: l' =>
      if is_digit c then c :: number_tail hasDot l'
      else if N.eqb c DOT
           then (if hasDot then [] else c :: number_tail true l')
           else []
  | [] => []
  end.

Fixpoint number_rest (hasDot : bool) (l : jstring) : jstring :=
  match l with
  | c :: l' =>
      if is_digit c then number_rest hasDot l'
      else if N.eqb c DOT
           then (if hasDot then l else number_rest true l')
           else l
  | [] => []
  end.

(** What a comment reads of [l] (through the line feed, or a NUL), and
    what it leaves. *)
Fixpoint comment_text (l : jstring) : jstring :=
  match l with
  | c :: l' =>
      if N.eqb c LF || N.eqb c NUL then [c] else c :: comment_text l'
  | [] => []
  end.

Fixpoint comment_rest (l : jstring) : jstring :=
  match l with
  | c :: l' => if N.eqb c LF || N.eqb c NUL then l' else comment_rest l'
  | [] => []
  end.

(** One character as [escape_string] writes it. *)
Definition escape_char (c : char) : jstring :=
  if N.eqb c BACKSLASH then [BACKSLASH; BACKSLASH]
  else if N.eqb c DQUOTE then [BACKSLASH; DQUOTE]
  else [c].

(** The text ahead does not start with a character of class [p]. *)
Definition stops (p : char -> bool) (rest : jstring) : Prop :=
  match rest with [] => True | c :: _ => p c = false end.

(** A text that lexes as one identifier: a letter, underscore or slash,
    then identifier characters. *)
Definition ident_like (id : jstring) : bool :=
  match id with
  | c :: r => (is_alpha c || N.eqb c SLASH) && forallb is_identifier_char r
  | [] => false
  end.

(** A text that lexes as one number: a digit, or a sign or point before a
    digit, then digits with at most one decimal point in all. *)
Definition number_text (t : jstring) : bool :=
  match t with
  | c :: r =>
      (is_digit c
       || ((N.eqb c MINUS || N.eqb c PLUS || N.eqb c DOT)
           && match r with d :: _ => is_digit d | [] => false end))
      && str_eqb (number_tail (N.eqb c DOT) r) r
  | [] => false
  end.

Definition number_char (c : char) : bool := is_digit c || N.eqb c DOT.

Definition no_NUL (s : jstring) : bool :=
  forallb (fun c => negb (N.eqb c NUL)) s.

(** The single-character tokens. *)
Definition punct_type (c : char) : option TokenType :=
  if N.eqb c LBRACKET then Some BRACKET_OPEN
  else if N.eqb c RBRACKET then Some BRACKET_CLOSE
  else if N.eqb c LPAREN then Some PARENTHESIS_OPEN
  else if N.eqb c RPAREN then Some PARENTHESIS_CLOSE
  else if N.eqb c EQUALS then Some EQUAL
  else if N.eqb c COMMA_CHAR then Some COMMA
  else None.

(** The line a token gets that starts after [pre] and white space [ws]. *)
Definition line_after (pre ws : jstring) : nat := S (count_lf (pre ++ ws)).

(** A number whose text the lexer reads back as the same number. *)
Definition lexes_back (n : number) : Prop :=
  number_text (Number_toString n) = true
  /\ parseFloat (Number_toString n) = n
  /\ isNaN n = false.

(** A number the writer prints with [String(n)] at top level and the lexer
    reads back. *)
Definition plain_number (n : number) : Prop :=
  isFinite n = true /\ lexes_back n.

(** A number that survives as a constructor argument: one the lexer reads
    back, or one printed as the identifier [NaN] or [Infinity]. *)
Definition constructor_argument (n : number) : Prop :=
  lexes_back n
  \/ (Number_toString n = lit "NaN" /\ n = NaN)
  \/ (Number_toString n = lit "Infinity" /\ n = Infinity).

(** The text ahead starts with a comma or a closing parenthesis. *)
Definition argument_end (rest : jstring) : Prop :=
  exists r, rest = COMMA_CHAR :: r \/ rest = RPAREN :: r.

(** The values the writer and the parser carry both ways: booleans,
    strings without a NUL character, plain numbers, and Color and Vector2
    objects over constructor arguments. *)
Inductive round_trip_value : value -> Prop :=
| rt_bool (b : bool) : round_trip_value (VBool b)
| rt_str (s : jstring) : no_NUL s = true -> round_trip_value (VStr s)
| rt_num (n : number) : plain_number n -> round_trip_value (VNum n)
| rt_color (r g b a : number) :
    constructor_argument r -> constructor_argument g ->
    constructor_argument b -> constructor_argument a ->
    round_trip_value (Color r g b a)
| rt_vector2 (x y : number) :
    constructor_argument x -> constructor_argument y ->
    round_trip_value (Vector2 x y).

(** The arguments after the first, as the writer prints them. *)
Definition more_arguments (ns : list number) : jstring :=
  flat_map (fun n => lit ", " ++ Number_toString n) ns.

(** A text that lexes as an IDENTIFIER token: identifier-shaped and neither
    of the two boolean words. *)
Definition name_like (id : jstring) : bool :=
  ident_like id && negb (str_eqb id (lit "true"))
  && negb (str_eqb id (lit "false")).

(** A key the writer and the parser carry both ways: one that goes out bare
    and lexes as an identifier, or one that goes out quoted and has no NUL
    character. *)
Definition round_trip_key (k : jstring) : Prop :=
  name_like k = true \/ (needs_quotes k = true /\ no_NUL k = true).

(** The lines the writer pushes, one item a line. *)
Inductive line_item :=
| Blank
| Header (name : jstring)
| Entry (key : jstring) (v : value).

Definition item_line (it : line_item) : jstring :=
  match it with
  | Blank => []
  | Header name =>
      LBRACKET :: replace_char RBRACKET [BACKSLASH; RBRACKET] name ++ [RBRACKET]
  | Entry key v => encode_key key ++ EQUALS :: serialize_value v
  end.

Fixpoint doc_items (first : bool) (d : Doc) : list line_item :=
  match d with
  | [] => []
  | (name, keys) :: d' =>
      (if first then [] else [Blank])
      ++ (if negb (Nat.eqb (length name) 0) then [Header name; Blank] else [])
      ++ map (fun kv => Entry (fst kv) (snd kv)) keys
      ++ doc_items false d'
  end.

(** The text of a list of lines, each with its line feed. *)
Definition items_text (items : list line_item) : jstring :=
  flat_map (fun it => item_line it ++ [LF]) items.

(** What reading a line does to the current section and the map. *)
Definition apply_item (st : jstring * Doc) (it : line_item) : jstring * Doc :=
  match it with
  | Blank => st
  | Header name =>
      (name,
       if map_has name (snd st) then snd st else map_set name [] (snd st))
  | Entry key v => (fst st, doc_set (fst st) key v (snd st))
  end.

(** A line the parser reads as the writer meant it. *)
Definition item_ok (it : line_item) : Prop :=
  match it with
  | Blank => True
  | Header name => name_like name = true
  | Entry key v => round_trip_key key /\ round_trip_value v
  end.

(** The documents that survive the round trip: section names and keys
    without repetition; every section named like an identifier, except that
    the first may be the unnamed one if it has a key; keys and values that
    survive. *)
Definition round_trip_section (sec : jstring * KeyMap) : Prop :=
  NoDup (map_keys (snd sec))
  /\ Forall (fun kv => round_trip_key (fst kv) /\ round_trip_value (snd kv))
       (snd sec).

Definition round_trip_doc (d : Doc) : Prop :=
  NoDup (map_keys d)
  /\ Forall round_trip_section d
  /\ match d with
     | [] => True
     | (name, keys) :: d' =>
         ((name = [] /\ keys <> []) \/ name_like name = true)
         /\ Forall (fun sec => name_like (fst sec) = true) d'
     end.




(** The options mapping of a preset, empty when the field is undefined. *)
Definition options_of (p : ExportPreset) : omap value :=
  options_or_empty (preset_options p).















(** The fields every preset starts with. *)
Definition preset_defaults : ExportPreset :=
  [(lit "name", VStr []); (lit "platform", VStr []);
   (lit "runnable", VBool false)].

(** What [parseExportPresets] makes of the section [sec] of the store
    [doc]: the three required fields are there; a field other than
    [options] and [__proto__] is the section's value for that key, or the
    default; the preset has no property [__proto__], whatever the section
    holds under that key (the assignment reaches the setter of
    [Object.prototype]); the [options] field comes from the section
    [sec.options] alone, whatever the section [sec] holds under the key
    [options], and it too has every key of its section but [__proto__]. *)
Definition preset_of_section (doc : Doc) (sec : jstring)
    (preset : ExportPreset) : Prop :=
  exists keys,
    map_get sec doc = Some keys
    /\ (map_has (lit "name") preset = true
        /\ map_has (lit "platform") preset = true
        /\ map_has (lit "runnable") preset = true)
    /\ (forall k, k <> lit "options" -> k <> PROTO ->
                  map_get k preset
                  = match map_get k keys with
                    | Some v => Some v
                    | None => map_get k preset_defaults
                    end)
    /\ map_get PROTO preset = None
    /\ match map_get (sec ++ lit ".options") doc with
       | Some okeys =>
           exists o, map_get (lit "options") preset = Some (VObj o)
                     /\ (forall k, k <> PROTO -> map_get k o = map_get k okeys)
                     /\ map_get PROTO o = None
       | None => map_get (lit "options") preset = None
       end.

(** The string loop, started in state [escaped] on the text [l], runs to
    the end of the input (or to a NUL character, which the stream does not
    tell from the end) without meeting an unescaped double quote. *)
Fixpoint string_open (escaped : bool) (l : jstring) : bool :=
  match l with
  | [] => true
  | c :: l' =>
      if N.eqb c NUL then true
      else if escaped then string_open false l'
      else if N.eqb c BACKSLASH then string_open true l'
      else if N.eqb c DQUOTE then false
      else string_open false l'
  end.

(** Line [ln] of [content] holds a double quote after which the string
    stays open to the end. *)
Definition unterminated_at (content : jstring) (ln : nat) : Prop :=
  exists pre body,
    content = pre ++ DQUOTE :: body
    /\ ln = S (count_lf pre)
    /\ string_open false body = true.

(** An error about [content]: its line is one of the lines of the text,
    counted from 1, and an unterminated-string error names the line of the
    quote that opened the string. *)
Definition error_ok (content : jstring) (e : ParseError) : Prop :=
  (1 <= pe_line e /\ pe_line e <= S (count_lf content))
  /\ (pe_message e = lit "Unterminated string" ->
      unterminated_at content (pe_line e)).

(** What a computation over the stream leaves: a result and a stream still
    on [content] whose unread text satisfies [Q], or an error that is
    [error_ok]; never out of fuel. *)
Definition post {A} (content : jstring) (Q : A -> jstring -> Prop)
    (r : outcome (A * Stream)) : Prop :=
  match r with
  | Ok (a, s') =>
      exists pre' l', s' = at_ pre' l' /\ pre' ++ l' = content /\ Q a l'
  | Throw e => error_ok content e
  | Timeout => False
  end.

(** What [get_token] leaves on the text [l]: a token on a line of the
    text, no more text than before, and less unless the token is EOF. *)
Definition token_post (content l : jstring) (tok : Token) (l' : jstring)
    : Prop :=
  (1 <= tk_line tok /\ tk_line tok <= S (count_lf content))
  /\ length l' <= length l
  /\ (tk_type tok <> EOF -> length l' < length l).

(** A turn that goes on has read at least one character. *)
Definition step_post (l : jstring) (r : option (jstring * Doc)) (l' : jstring)
    : Prop :=
  match r with
  | None => True
  | Some _ => length l' < length l
  end.

(** [k] full turns of the top-level loop. *)
Fixpoint turns (k : nat) (s : Stream) (cur : jstring) (vals : Doc)
    : option (Stream * jstring * Doc) :=
  match k with
  | 0 => Some (s, cur, vals)
  | S k' =>
      match parse_config_step cur vals s with
      | Ok (Some (cur', vals'), s') => turns k' s' cur' vals'
      | _ => None
      end
  end.





(** *** Vocabulary of the further properties *)

(** The indices with which [setPreset] adds: none, [NaN], an infinity, or a
    whole number outside the list. *)
Definition appending_index (presets : PresetArray) (index : option jsindex)
    : Prop :=
  index = None \/ index = Some INaN \/ (exists b, index = Some (IInf b))
  \/ (exists q,
        index = Some (IFin q)
        /\ (QArith_base.Qlt q (QArith_base.inject_Z 0)
            \/ QArith_base.Qle
                 (QArith_base.inject_Z (Z.of_nat (length (elements presets))))
                 q)).

(** The argument list of a constructor as the writer prints it. *)
Definition arguments_text (ns : list number) : jstring :=
  match ns with
  | [] => []
  | n :: ns' => Number_toString n ++ more_arguments ns'
  end.

(** A text with no line feed and no NUL character: the inside of a
    comment. *)
Definition comment_body (text : jstring) : bool :=
  forallb (fun c => negb (N.eqb c LF || N.eqb c NUL)) text.

(** The test that picks the preset sections. *)
Definition is_preset_section (s : jstring) : bool :=
  startsWith (lit "preset.") s && negb (includes (lit ".options") s).

(** Both sections have a number after the first dot, and the first one's
    is not the larger. *)
Definition index_le (a b : jstring) : Prop :=
  exists x y,
    section_index a = Some x /\ section_index b = Some y /\ (x <= y)%Z.

(** The section has a number after its first dot that [parseInt] reads
    exactly: a whole number of size at most 2^53, so that the differences
    the sort compares have the right sign. *)
Definition safe_index (s : jstring) : Prop :=
  exists x, section_index s = Some x /\ (Z.abs x <= 2 ^ 53)%Z.

(** The section's number is [i]. *)
Definition has_index (i : Z) (s : jstring) : bool :=
  match section_index s with
  | Some x => Z.eqb x i
  | None => false
  end.

(** The section the serializer gives the preset at index [i]. *)
Definition preset_section_name (i : nat) : jstring :=
  lit "preset." ++ nat_to_string i.

(** The properties of a preset other than [options]. *)
Definition preset_fields (p : ExportPreset) : KeyMap :=
  map_delete (lit "options") p.

(** The entries the serializer writes to the options section of a preset:
    those of its [options] when that is truthy. *)
Definition written_options (p : ExportPreset) : omap value :=
  match map_get (lit "options") p with
  | Some options => if truthy options then Object_entries options else []
  | None => []
  end.

(** A section that exists only when it has a key. *)
Definition section_if (s : jstring) (keys : KeyMap) : Doc :=
  match keys with
  | [] => []
  | _ => [(s, keys)]
  end.

(** The store the serializer builds from the presets at indices [i],
    [i + 1], ...: for each preset its section with the properties other
    than [options], then its options section, each only when it has a
    key. *)
Fixpoint presets_doc (i : nat) (ps : list ExportPreset) : Doc :=
  match ps with
  | [] => []
  | p :: rest =>
      section_if (preset_section_name i) (preset_fields p)
      ++ section_if (preset_section_name i ++ lit ".options")
           (written_options p)
      ++ presets_doc (S i) rest
  end.

(** A preset as a JavaScript object has it: no property twice, and none
    twice among the entries of its options. *)
Definition object_like (p : ExportPreset) : Prop :=
  NoDup (map_keys p) /\ NoDup (map_keys (written_options p)).

(** A preset the serializer and the parser carry both ways: neither the
    preset nor its options has a property named [__proto__]; its
    properties do not repeat; it has [name], [platform] and [runnable];
    its properties other than [options] have keys and values that survive
    the round trip; and [options] is missing, falsy, or an object that is
    not empty and whose properties do not repeat and survive. *)
Definition storable_preset (p : ExportPreset) : Prop :=
  (map_has PROTO p = false /\ map_has PROTO (options_of p) = false)
  /\ NoDup (map_keys p)
  /\ (map_has (lit "name") p = true /\ map_has (lit "platform") p = true
      /\ map_has (lit "runnable") p = true)
  /\ Forall (fun kv => fst kv = lit "options"
                       \/ (round_trip_key (fst kv) /\ round_trip_value (snd kv)))
       p
  /\ match map_get (lit "options") p with
     | None => True
     | Some (VObj o) => o <> [] /\ round_trip_section (lit "options", o)
     | Some v => truthy v = false
     end.

(** The same preset, property by property: every property other than
    [options] has the same value or is missing in both, and the options are
    missing in both or hold the same value under every key. *)
Definition same_preset (p p' : ExportPreset) : Prop :=
  (forall k, k <> lit "options" -> map_get k p' = map_get k p)
  /\ match preset_options p with
     | Some o =>
         exists o', map_get (lit "options") p' = Some (VObj o')
                    /\ forall k, map_get k o' = map_get k o
     | None => map_get (lit "options") p' = None
     end.


(** A store as a [Map] of [Map]s has it: no section twice, and no key
    twice in a section. *)
Definition store_invariant (d : Doc) : Prop :=
  NoDup (map_keys d) /\ Forall (fun sec => NoDup (map_keys (snd sec))) d.

(** What a character stands for after a backslash in a string: the letters
    n, t and r are the line feed, the tab and the carriage return, any
    other character is itself. *)
Definition unescape_char (c : char) : char :=
  if N.eqb c 110 then LF
  else if N.eqb c 116 then TAB
  else if N.eqb c 114 then CR
  else c.

(** A piece of the inside of a string literal: a character written as it
    is, or ([true]) a character written after a backslash. *)
Definition string_piece := (bool * char)%type.

Definition piece_text (p : string_piece) : jstring :=
  if fst p then [BACKSLASH; snd p] else [snd p].

Definition piece_value (p : string_piece) : char :=
  if fst p then unescape_char (snd p) else snd p.

(** No piece is the NUL character, and a character written as it is is
    neither the backslash nor the double quote. *)
Definition piece_ok (p : string_piece) : bool :=
  negb (N.eqb (snd p) NUL)
  && (fst p || (negb (N.eqb (snd p) BACKSLASH) && negb (N.eqb (snd p) DQUOTE))).

End Model.

Arguments Ok {A} a.
Arguments Throw {A} e.
Arguments Timeout {A}.

Notation "x <- m ;; k" := (bind m (fun x => k))
  (at level 61, m at next level, right associativity).

(* ================================================================== *)
(** ** Concrete inputs, over the decimal numbers *)

Section Samples.
#[local] Existing Instance decimal_numbers.

(** A document with an unnamed first section, a quoted key, a multi-line
    string, numbers, a Color with a [NaN] component and a Vector2. *)
Definition sample_doc : @Doc decimal_numbers :=
  [([], [(lit "config_version", @VNum decimal_numbers (DFin false 5 0))]);
   (lit "player",
    [(lit "name", VStr (lit "Unnamed Player"));
     (lit "a=b", @VNum decimal_numbers (DFin true 75 1));
     (lit "tagline",
      VStr (lit "Waiting" ++ LF :: lit "for" ++ LF :: DQUOTE :: lit "Godot\"));
     (lit "color",
      @Color decimal_numbers (DFin false 0 0) (DFin false 5 1) DNaN
        (DInf false));
     (lit "position",
      @Vector2 decimal_numbers (DFin false 3 0) (DFin false 4 0));
     (lit "window/size.x", VBool true)]);
   (lit "preset.0.options", [])].

(** A store and a text whose third line does not parse. *)
Definition old_store : ConfigFile :=
  set_value new_ConfigFile (lit "old") (lit "k") (VBool true).

Definition failing_content : jstring :=
  lit "[a]" ++ LF :: lit "k=true" ++ LF :: lit "bad=null" ++ [LF].

(** Two preset sections out of order, one with a key named options, one
    with an options section. *)
Definition presets_content : jstring :=
  lit "[preset.1]" ++ LF :: lit "name=" ++ DQUOTE :: lit "iOS" ++ DQUOTE :: LF
    :: lit "options=true" ++ LF
    :: lit "[preset.0]" ++ LF :: lit "platform=" ++ DQUOTE :: lit "Android"
    ++ DQUOTE :: LF
    :: lit "[preset.0.options]" ++ LF :: lit "a/b=true" ++ [LF].

Definition presets_parsed : list ExportPreset :=
  [[(lit "name", VStr []); (lit "platform", VStr (lit "Android"));
    (lit "runnable", VBool false);
    (lit "options", VObj [(lit "a/b", VBool true)])];
   [(lit "name", VStr (lit "iOS")); (lit "platform", VStr []);
    (lit "runnable", VBool false)]].

(** A text whose fourth line opens a string that is never closed. *)
Definition unterminated_content : jstring :=
  lit "[s]" ++ LF :: lit "k=true" ++ LF :: LF
    :: lit "name = " ++ DQUOTE :: lit "abc" ++ LF :: lit "more" ++ [LF].

(** The array of the two presets parsed above. *)
Definition sample_array : PresetArray := array_of presets_parsed.

Definition sample_preset : ExportPreset :=
  [(lit "name", VStr (lit "Web")); (lit "platform", VStr (lit "Web"));
   (lit "runnable", VBool true)].

(** One half, as an index. *)
Definition one_half : QArith_base.Q := QArith_base.Qmake 1 2.

(** A number past the end of a list of two that is not whole. *)
Definition five_halves : QArith_base.Q := QArith_base.Qmake 5 2.

(** Lines with a section opened twice and a key set twice. *)
Definition sample_lines : list line_item :=
  [Header (lit "s"); Entry (lit "k") (VBool true); Header (lit "t");
   Header (lit "s"); Entry (lit "k") (VBool false);
   Entry (lit "a b") (VStr (lit "c"))].

(** Two presets to write and read back: the first with options and a
    quoted key, the second with an [options] property that is undefined. *)
Definition stored_presets : list ExportPreset :=
  [[(lit "name", VStr (lit "Android")); (lit "platform", VStr (lit "Android"));
    (lit "runnable", VBool true);
    (lit "export_path", VStr (lit "out/game.apk"));
    (lit "options",
     VObj [(lit "gradle_build/use_gradle_build", VBool false);
           (lit "version/code", @VNum decimal_numbers (DFin false 12 0))])];
   [(lit "platform", VStr (lit "iOS")); (lit "name", VStr (lit "iOS"));
    (lit "runnable", VBool false); (lit "options", VUndefined);
    (lit "script_export_mode", @VNum decimal_numbers (DFin false 15 1))]].

(** The inside of a string literal: a letter, an escaped n, an escaped
    double quote, a line feed written as it is, and an escaped x. *)
Definition sample_pieces : list string_piece :=
  [(false, 97%N); (true, 110%N); (true, DQUOTE); (false, LF); (true, 120%N)].

End Samples.

(* ================================================================== *)
(** * Properties *)

Unset Implicit Arguments.

(** Turns the boolean tests on character codes into arithmetic. *)
Ltac char_arith :=
  unfold is_identifier_char, is_alnum, is_alpha, is_digit, is_whitespace,
    string_end_lookahead, NUL, TAB, LF, CR, SPACE, DQUOTE, HASH_CHAR, LPAREN,
    RPAREN, PLUS, COMMA_CHAR, MINUS, DOT, SLASH, SEMI, EQUALS, LBRACKET,
    BACKSLASH, RBRACKET, UNDERSCORE in *;
  rewrite ?orb_true_iff, ?andb_true_iff, ?orb_false_iff, ?andb_false_iff,
    ?N.eqb_eq, ?N.eqb_neq, ?N.leb_le, ?N.leb_gt, ?N.ltb_lt, ?N.ltb_ge in *;
  try lia.

Section Theory.
Context {JSN : JSNumber}.

(** ** Strings and ordered maps *)

Lemma str_eqb_eq (a b : jstring) : str_eqb a b = true <-> a = b.
Proof.
  revert b; induction a as [|x a IH]; destruct b as [|y b]; simpl;
    try (split; [discriminate | discriminate]); try tauto.
  rewrite andb_true_iff, N.eqb_eq, IH.
  split; [intros [-> ->]; reflexivity | intros H; inversion H; auto].
Qed.

Lemma str_eqb_refl (a : jstring) : str_eqb a a = true.
Proof. apply str_eqb_eq; reflexivity. Qed.

Lemma str_eqb_neq (a b : jstring) : str_eqb a b = false <-> a <> b.
Proof.
  rewrite <- str_eqb_eq. destruct (str_eqb a b); split; congruence.
Qed.

Lemma str_eqb_sym (a b : jstring) : str_eqb a b = str_eqb b a.
Proof.
  destruct (str_eqb a b) eqn:E.
  - apply str_eqb_eq in E; subst; symmetry; apply str_eqb_refl.
  - symmetry; apply str_eqb_neq; apply str_eqb_neq in E; congruence.
Qed.

Lemma map_get_set_same {V} (k : jstring) (v : V) (m : omap V) :
  map_get k (map_set k v m) = Some v.
Proof.
  induction m as [|[k' v'] m IH]; simpl.
  - now rewrite str_eqb_refl.
  - destruct (str_eqb k' k) eqn:E; simpl; rewrite E; auto.
Qed.

Lemma map_get_set_other {V} (k k' : jstring) (v : V) (m : omap V) :
  k <> k' -> map_get k' (map_set k v m) = map_get k' m.
Proof.
  intros Hne. induction m as [|[k0 v0] m IH]; simpl.
  - apply str_eqb_neq in Hne. now rewrite Hne.
  - destruct (str_eqb k0 k) eqn:E; simpl.
    + apply str_eqb_eq in E; subst k0.
      apply str_eqb_neq in Hne. now rewrite Hne.
    + destruct (str_eqb k0 k'); auto.
Qed.


Lemma map_get_delete_other {V} (k k' : jstring) (m : omap V) :
  k <> k' -> map_get k' (map_delete k m) = map_get k' m.
Proof.
  intros Hne. induction m as [|[k0 v0] m IH]; simpl; auto.
  destruct (str_eqb k0 k) eqn:E; simpl.
  - apply str_eqb_eq in E; subst k0.
    apply str_eqb_neq in Hne. now rewrite Hne.
  - destruct (str_eqb k0 k'); auto.
Qed.

Lemma map_get_None_notin {V} (k : jstring) (m : omap V) :
  map_get k m = None <-> ~ In k (map_keys m).
Proof.
  induction m as [|[k0 v0] m IH]; simpl.
  - tauto.
  - destruct (str_eqb k0 k) eqn:E.
    + apply str_eqb_eq in E. split; [discriminate | intros H; exfalso; auto].
    + apply str_eqb_neq in E. rewrite IH. tauto.
Qed.

Lemma map_set_fresh {V} (k : jstring) (v : V) (m : omap V) :
  ~ In k (map_keys m) -> map_set k v m = m ++ [(k, v)].
Proof.
  induction m as [|[k0 v0] m IH]; simpl; auto.
  intros H. destruct (str_eqb k0 k) eqn:E.
  - apply str_eqb_eq in E. tauto.
  - rewrite IH; tauto.
Qed.

Lemma map_set_last {V} (k : jstring) (v v' : V) (m : omap V) :
  ~ In k (map_keys m) -> map_set k v (m ++ [(k, v')]) = m ++ [(k, v)].
Proof.
  induction m as [|[k0 v0] m IH]; simpl.
  - now rewrite str_eqb_refl.
  - intros H. destruct (str_eqb k0 k) eqn:E.
    + apply str_eqb_eq in E. tauto.
    + rewrite IH; tauto.
Qed.

Lemma map_get_last {V} (k : jstring) (v : V) (m : omap V) :
  ~ In k (map_keys m) -> map_get k (m ++ [(k, v)]) = Some v.
Proof.
  induction m as [|[k0 v0] m IH]; simpl.
  - now rewrite str_eqb_refl.
  - intros H. destruct (str_eqb k0 k) eqn:E.
    + apply str_eqb_eq in E. tauto.
    + apply IH; tauto.
Qed.

(** ** The stream *)

Lemma map_has_set_same {V} (k : jstring) (v : V) (m : omap V) :
  map_has k (map_set k v m) = true.
Proof. unfold map_has. now rewrite map_get_set_same. Qed.

Lemma map_has_set_other {V} (k k' : jstring) (v : V) (m : omap V) :
  k <> k' -> map_has k' (map_set k v m) = map_has k' m.
Proof. intros H. unfold map_has. now rewrite map_get_set_other. Qed.

Lemma map_keys_set {V} (k : jstring) (v : V) (m : omap V) :
  map_keys (map_set k v m)
  = if map_has k m then map_keys m else map_keys m ++ [k].
Proof.
  unfold map_has. induction m as [|[k' v'] m IH]; simpl; [reflexivity|].
  destruct (str_eqb k' k) eqn:E; simpl; [reflexivity|].
  rewrite IH. now destruct (map_get k m).
Qed.


Lemma map_set_NoDup {V} (k : jstring) (v : V) (m : omap V) :
  NoDup (map_keys m) -> NoDup (map_keys (map_set k v m)).
Proof.
  intros H. rewrite map_keys_set. unfold map_has.
  destruct (map_get k m) eqn:E; [assumption|].
  apply map_get_None_notin in E.
  apply NoDup_app; [assumption | repeat constructor; intros [] |].
  intros x Hx [<- | []]. contradiction.
Qed.

Lemma count_lf_app (a b : jstring) : count_lf (a ++ b) = count_lf a + count_lf b.
Proof. induction a; simpl; lia. Qed.

Lemma at_snoc (pre : jstring) (c : char) (l : jstring) :
  {| content := pre ++ c :: l; pos := S (length pre);
     line := (if N.eqb c LF then S (S (count_lf pre)) else S (count_lf pre));
     saved := None |} = at_ (pre ++ [c]) l.
Proof.
  unfold at_. rewrite <- app_assoc, length_app, count_lf_app. simpl.
  f_equal; [lia | destruct (N.eqb c LF); lia].
Qed.

Lemma new_Stream_at (c : jstring) : new_Stream c = at_ [] c.
Proof. reflexivity. Qed.

Lemma at_end_test (pre l : jstring) :
  (length (pre ++ l) <=? length pre) = match l with [] => true | _ => false end.
Proof.
  rewrite length_app. destruct l; simpl.
  - apply Nat.leb_le; lia.
  - apply Nat.leb_gt; lia.
Qed.

Lemma get_char_at_cons (pre : jstring) (c : char) (l : jstring) :
  get_char (at_ pre (c :: l)) = (c, at_ (pre ++ [c]) l).
Proof.
  unfold get_char. cbn [saved content pos line at_].
  rewrite at_end_test, nth_middle. now rewrite at_snoc.
Qed.

Lemma get_char_at_nil (pre : jstring) :
  get_char (at_ pre []) = (NUL, at_ pre []).
Proof.
  unfold get_char. cbn [saved content pos line at_]. now rewrite at_end_test.
Qed.

Lemma peek_char_at_cons (pre : jstring) (c : char) (l : jstring) :
  peek_char (at_ pre (c :: l)) = c.
Proof.
  unfold peek_char. cbn [content pos at_].
  now rewrite at_end_test, nth_middle.
Qed.

Lemma peek_char_at_nil (pre : jstring) : peek_char (at_ pre []) = NUL.
Proof.
  unfold peek_char. cbn [content pos at_]. now rewrite at_end_test.
Qed.

Lemma loop_fuel_at (pre l : jstring) : loop_fuel (at_ pre l) = length l + 2.
Proof.
  unfold loop_fuel. cbn [content pos at_]. rewrite length_app. lia.
Qed.

Lemma get_line_at (pre l : jstring) : get_line (at_ pre l) = S (count_lf pre).
Proof. reflexivity. Qed.

Lemma take_drop_while (p : char -> bool) (l : jstring) :
  take_while p l ++ drop_while p l = l.
Proof. induction l as [|c l IH]; simpl; auto. destruct (p c); simpl; congruence. Qed.

Lemma drop_while_length (p : char -> bool) (l : jstring) :
  length (drop_while p l) <= length l.
Proof. induction l as [|c l IH]; simpl; auto. destruct (p c); simpl; lia. Qed.

(** ** The loops of the lexer, as functions of the text ahead *)

Lemma skip_whitespace_loop_at (fuel : nat) (pre l : jstring) :
  length l < fuel ->
  skip_whitespace_loop fuel (at_ pre l)
  = at_ (pre ++ take_while is_whitespace l) (drop_while is_whitespace l).
Proof.
  revert pre l. induction fuel as [|f IH]; intros pre l Hf; [lia|].
  destruct l as [|c l]; simpl.
  - rewrite peek_char_at_nil. simpl. now rewrite app_nil_r.
  - rewrite peek_char_at_cons. destruct (is_whitespace c) eqn:E.
    + rewrite get_char_at_cons. simpl. rewrite IH by (simpl in Hf; lia).
      now rewrite <- app_assoc.
    + now rewrite app_nil_r.
Qed.

Lemma skip_whitespace_at (pre l : jstring) :
  skip_whitespace (at_ pre l)
  = at_ (pre ++ take_while is_whitespace l) (drop_while is_whitespace l).
Proof.
  unfold skip_whitespace. rewrite loop_fuel_at.
  apply skip_whitespace_loop_at. lia.
Qed.

Lemma lex_identifier_loop_at (fuel : nat) (ident pre l : jstring) :
  length l < fuel ->
  lex_identifier_loop fuel ident (at_ pre l)
  = (ident ++ take_while is_identifier_char l,
     at_ (pre ++ take_while is_identifier_char l)
       (drop_while is_identifier_char l)).
Proof.
  revert ident pre l. induction fuel as [|f IH]; intros ident pre l Hf; [lia|].
  destruct l as [|c l]; simpl.
  - rewrite peek_char_at_nil. simpl. now rewrite !app_nil_r.
  - rewrite peek_char_at_cons. destruct (is_identifier_char c) eqn:E.
    + rewrite get_char_at_cons. rewrite IH by (simpl in Hf; lia).
      now rewrite <- !app_assoc.
    + now rewrite !app_nil_r.
Qed.

Lemma lex_number_loop_at (fuel : nat) (numStr : jstring) (hasDot : bool)
    (pre l : jstring) :
  length l < fuel ->
  lex_number_loop fuel numStr hasDot (at_ pre l)
  = (numStr ++ number_tail hasDot l,
     at_ (pre ++ number_tail hasDot l) (number_rest hasDot l)).
Proof.
  revert numStr hasDot pre l.
  induction fuel as [|f IH]; intros numStr hasDot pre l Hf; [lia|].
  destruct l as [|c l]; simpl.
  - rewrite peek_char_at_nil. simpl. now rewrite !app_nil_r.
  - rewrite peek_char_at_cons. simpl in Hf.
    destruct (is_digit c) eqn:Ed; simpl.
    + destruct (N.eqb c DOT) eqn:Edot.
      * apply N.eqb_eq in Edot; subst c; discriminate.
      * rewrite get_char_at_cons, IH by lia. now rewrite <- !app_assoc.
    + destruct (N.eqb c DOT) eqn:Edot; [|now rewrite !app_nil_r].
      destruct hasDot; [now rewrite !app_nil_r|].
      rewrite get_char_at_cons, IH by lia. now rewrite <- !app_assoc.
Qed.

Lemma skip_comment_loop_at (fuel : nat) (pre l : jstring) :
  length l < fuel ->
  skip_comment_loop fuel (at_ pre l)
  = at_ (pre ++ comment_text l) (comment_rest l).
Proof.
  revert pre l. induction fuel as [|f IH]; intros pre l Hf; [lia|].
  destruct l as [|c l]; simpl.
  - rewrite get_char_at_nil. simpl. now rewrite app_nil_r.
  - rewrite get_char_at_cons. simpl in Hf.
    destruct (N.eqb c LF || N.eqb c NUL) eqn:E; [reflexivity|].
    rewrite IH by lia. now rewrite <- app_assoc.
Qed.

Lemma skip_comment_at (pre l : jstring) :
  skip_comment (at_ pre l) = at_ (pre ++ comment_text l) (comment_rest l).
Proof.
  unfold skip_comment. rewrite loop_fuel_at.
  apply skip_comment_loop_at. lia.
Qed.

Lemma number_tail_rest (h : bool) (l : jstring) :
  number_tail h l ++ number_rest h l = l.
Proof.
  revert h; induction l as [|c l IH]; intros h; simpl; auto.
  destruct (is_digit c); simpl; [now rewrite IH|].
  destruct (N.eqb c DOT); simpl; auto.
  destruct h; simpl; auto. now rewrite IH.
Qed.

Lemma comment_text_rest (l : jstring) : comment_text l ++ comment_rest l = l.
Proof.
  induction l as [|c l IH]; simpl; auto.
  destruct (N.eqb c LF || N.eqb c NUL); simpl; congruence.
Qed.

Lemma number_rest_length (h : bool) (l : jstring) :
  length (number_rest h l) <= length l.
Proof.
  revert h; induction l as [|c l IH]; intros h; simpl; auto.
  destruct (is_digit c); [specialize (IH h); lia|].
  destruct (N.eqb c DOT); simpl; [|lia].
  destruct h; simpl; [lia|]. specialize (IH true); lia.
Qed.

Lemma comment_rest_length (l : jstring) : length (comment_rest l) <= length l.
Proof.
  induction l as [|c l IH]; simpl; auto.
  destruct (N.eqb c LF || N.eqb c NUL); simpl; lia.
Qed.

(** [get_token] on the text ahead: white space is passed, then the
    dispatch is on the first character after it. *)
Lemma get_token_fuel_at (f : nat) (pre l : jstring) :
  get_token_fuel (S f) (at_ pre l)
  = let pre' := pre ++ take_while is_whitespace l in
    match drop_while is_whitespace l with
    | [] => token_switch (get_token_fuel f) (S (count_lf pre')) NUL (at_ pre' [])
    | c :: r =>
        token_switch (get_token_fuel f) (S (count_lf pre')) c
          (at_ (pre' ++ [c]) r)
    end.
Proof.
  cbn [get_token_fuel]. rewrite skip_whitespace_at.
  destruct (drop_while is_whitespace l) as [|c r].
  - now rewrite get_char_at_nil.
  - now rewrite get_char_at_cons.
Qed.

(** ** The writer's escapes *)

Lemma replace_char_app (c : char) (by_ a b : jstring) :
  replace_char c by_ (a ++ b) = replace_char c by_ a ++ replace_char c by_ b.
Proof. unfold replace_char. apply flat_map_app. Qed.

Lemma escape_string_flat (str : jstring) :
  escape_string str = flat_map escape_char str.
Proof.
  unfold escape_string. induction str as [|c str IH]; [reflexivity|].
  change (replace_char BACKSLASH [BACKSLASH; BACKSLASH] (c :: str))
    with ((if N.eqb c BACKSLASH then [BACKSLASH; BACKSLASH] else [c])
            ++ replace_char BACKSLASH [BACKSLASH; BACKSLASH] str).
  rewrite replace_char_app, IH. simpl. f_equal.
  unfold escape_char, replace_char.
  destruct (N.eqb c BACKSLASH) eqn:E; simpl; [reflexivity|].
  destruct (N.eqb c DQUOTE); reflexivity.
Qed.



(** ** Tokens, one kind at a time *)

Lemma take_while_app (p : char -> bool) (a rest : jstring) :
  forallb p a = true -> stops p rest -> take_while p (a ++ rest) = a.
Proof.
  intros Ha Hr. induction a as [|c a IH]; simpl in *.
  - destruct rest; simpl in *; [reflexivity | now rewrite Hr].
  - apply andb_true_iff in Ha as [-> Ha]. now rewrite IH.
Qed.

Lemma drop_while_app (p : char -> bool) (a rest : jstring) :
  forallb p a = true -> stops p rest -> drop_while p (a ++ rest) = rest.
Proof.
  intros Ha Hr. induction a as [|c a IH]; simpl in *.
  - destruct rest; simpl in *; [reflexivity | now rewrite Hr].
  - apply andb_true_iff in Ha as [-> Ha]. now rewrite IH.
Qed.

Lemma take_while_all (p : char -> bool) (a l : jstring) :
  forallb p a = true -> take_while p (a ++ l) = a ++ take_while p l.
Proof.
  intros Ha. induction a as [|c a IH]; simpl in *; [reflexivity|].
  apply andb_true_iff in Ha as [-> Ha]. now rewrite IH.
Qed.

Lemma drop_while_all (p : char -> bool) (a l : jstring) :
  forallb p a = true -> drop_while p (a ++ l) = drop_while p l.
Proof.
  intros Ha. induction a as [|c a IH]; simpl in *; [reflexivity|].
  apply andb_true_iff in Ha as [-> Ha]. now rewrite IH.
Qed.

(** Leading white space does not change the token. *)
Lemma get_token_fuel_ws (f : nat) (pre ws l : jstring) :
  forallb is_whitespace ws = true ->
  get_token_fuel (S f) (at_ pre (ws ++ l))
  = get_token_fuel (S f) (at_ (pre ++ ws) l).
Proof.
  intros Hws. rewrite !get_token_fuel_at.
  rewrite take_while_all, drop_while_all by assumption.
  now rewrite !app_assoc.
Qed.

Lemma get_token_fuel_head (f : nat) (pre : jstring) (c : char) (r : jstring) :
  is_whitespace c = false ->
  get_token_fuel (S f) (at_ pre (c :: r))
  = token_switch (get_token_fuel f) (S (count_lf pre)) c (at_ (pre ++ [c]) r).
Proof.
  intros Hc. rewrite get_token_fuel_at. simpl. rewrite Hc.
  now rewrite app_nil_r.
Qed.

Lemma get_token_fuel_eof (f : nat) (pre : jstring) :
  get_token_fuel (S f) (at_ pre [])
  = Ok (mkToken EOF (TStr []) (S (count_lf pre)), at_ pre []).
Proof. rewrite get_token_fuel_at. simpl. now rewrite app_nil_r. Qed.

(** A character that can start an identifier passes every earlier test of
    the dispatch. *)
Lemma identifier_start_facts (c : char) :
  is_alpha c || N.eqb c SLASH = true ->
  N.eqb c NUL = false /\ N.eqb c LBRACKET = false /\ N.eqb c RBRACKET = false
  /\ N.eqb c LPAREN = false /\ N.eqb c RPAREN = false
  /\ N.eqb c EQUALS = false /\ N.eqb c COMMA_CHAR = false
  /\ N.eqb c SEMI = false /\ N.eqb c HASH_CHAR = false
  /\ N.eqb c DQUOTE = false /\ is_digit c = false /\ N.eqb c MINUS = false
  /\ N.eqb c PLUS = false /\ N.eqb c DOT = false.
Proof. intros H. repeat split; char_arith. Qed.

Lemma token_switch_identifier (again : Stream -> outcome (Token * Stream))
    (ln : nat) (pre : jstring) (c : char) (r rest : jstring) :
  ident_like (c :: r) = true -> stops is_identifier_char rest ->
  token_switch again ln c (at_ pre (r ++ rest))
  = let s' := at_ (pre ++ r) rest in
    if str_eqb (c :: r) (lit "true") then Ok (mkToken BOOLEAN (TBool true) ln, s')
    else if str_eqb (c :: r) (lit "false")
    then Ok (mkToken BOOLEAN (TBool false) ln, s')
    else Ok (mkToken IDENTIFIER (TStr (c :: r)) ln, s').
Proof.
  intros Hid Hrest. simpl in Hid. apply andb_true_iff in Hid as [Hc Hr].
  destruct (identifier_start_facts c Hc)
    as (H0 & H1 & H2 & H3 & H4 & H5 & H6 & H7 & H8 & H9 & Hd & Hm & Hp & Hdot).
  unfold token_switch.
  rewrite H0, H1, H2, H3, H4, H5, H6, H7, H8, H9, Hd, Hm, Hp, Hdot, Hc.
  cbn [orb andb]. rewrite loop_fuel_at, lex_identifier_loop_at by lia.
  rewrite take_while_app, drop_while_app by assumption.
  reflexivity.
Qed.

Lemma lex_string_loop_text (v : jstring) :
  forall (fuel ln : nat) (acc pre rest : jstring),
    no_NUL v = true ->
    length (flat_map escape_char v) < fuel ->
    lex_string_loop fuel ln acc false
      (at_ pre (flat_map escape_char v ++ DQUOTE :: rest))
    = Ok (acc ++ v, at_ (pre ++ flat_map escape_char v ++ [DQUOTE]) rest).
Proof.
  induction v as [|c v IH]; intros fuel ln acc pre rest Hn Hf.
  - destruct fuel as [|f]; [simpl in Hf; lia|].
    simpl. rewrite get_char_at_cons. simpl.
    rewrite app_nil_r. now destruct (string_end_lookahead _).
  - simpl in Hn. apply andb_true_iff in Hn as [Hc Hn].
    apply negb_true_iff in Hc.
    cbn [flat_map] in *. rewrite length_app in Hf.
    unfold escape_char in *.
    destruct (N.eqb c BACKSLASH) eqn:Eb; [|destruct (N.eqb c DQUOTE) eqn:Eq].
    + apply N.eqb_eq in Eb; subst c.
      destruct fuel as [|[|f]]; [simpl in Hf; lia | simpl in Hf; lia |].
      cbn [app]. cbn [lex_string_loop].
      rewrite get_char_at_cons. cbn -[lex_string_loop at_].
      rewrite get_char_at_cons. cbn -[lex_string_loop at_].
      rewrite IH by (auto; simpl in Hf; lia).
      now rewrite <- !app_assoc.
    + apply N.eqb_eq in Eq; subst c.
      destruct fuel as [|[|f]]; [simpl in Hf; lia | simpl in Hf; lia |].
      cbn [app]. cbn [lex_string_loop].
      rewrite get_char_at_cons. cbn -[lex_string_loop at_].
      rewrite get_char_at_cons. cbn -[lex_string_loop at_].
      rewrite IH by (auto; simpl in Hf; lia).
      now rewrite <- !app_assoc.
    + destruct fuel as [|f]; [simpl in Hf; lia|].
      cbn [app]. cbn [lex_string_loop].
      rewrite get_char_at_cons. rewrite Hc, Eb, Eq.
      rewrite IH by (auto; simpl in Hf; lia).
      now rewrite <- !app_assoc.
Qed.

Lemma token_switch_string (again : Stream -> outcome (Token * Stream))
    (ln : nat) (pre v rest : jstring) :
  no_NUL v = true ->
  token_switch again ln DQUOTE (at_ pre (escape_string v ++ DQUOTE :: rest))
  = Ok (mkToken STRING (TStr v) ln,
        at_ (pre ++ escape_string v ++ [DQUOTE]) rest).
Proof.
  intros Hn. unfold token_switch. cbn [N.eqb NUL DQUOTE LBRACKET RBRACKET
    LPAREN RPAREN EQUALS COMMA_CHAR SEMI HASH_CHAR Pos.eqb].
  rewrite loop_fuel_at, escape_string_flat.
  rewrite lex_string_loop_text; [reflexivity | assumption |].
  rewrite length_app. simpl. lia.
Qed.

Lemma number_tail_app (r rest : jstring) :
  forall h : bool,
    number_tail h r = r -> stops number_char rest ->
    number_tail h (r ++ rest) = r /\ number_rest h (r ++ rest) = rest.
Proof.
  unfold number_char.
  induction r as [|d r IH]; intros h Hr Hrest.
  - simpl. destruct rest as [|x rest]; [auto|]. simpl in *.
    apply orb_false_iff in Hrest as [-> ->]. auto.
  - simpl in *. destruct (is_digit d).
    + injection Hr as Hr. destruct (IH h Hr Hrest) as [-> ->]. auto.
    + destruct (N.eqb d DOT); [|discriminate].
      destruct h; [discriminate|]. injection Hr as Hr.
      destruct (IH true Hr Hrest) as [-> ->]. auto.
Qed.

Lemma token_switch_number (again : Stream -> outcome (Token * Stream))
    (ln : nat) (pre : jstring) (c : char) (r rest : jstring) :
  number_text (c :: r) = true -> stops number_char rest ->
  token_switch again ln c (at_ pre (r ++ rest))
  = if isNaN (parseFloat (c :: r))
    then Throw {| pe_message := lit "Invalid number: " ++ c :: r;
                  pe_line := ln |}
    else Ok (mkToken NUMBER (TNum (parseFloat (c :: r))) ln,
             at_ (pre ++ r) rest).
Proof.
  intros Hn Hrest. simpl in Hn. apply andb_true_iff in Hn as [Hstart Htail].
  apply str_eqb_eq in Htail.
  assert (Hsw : N.eqb c NUL = false /\ N.eqb c LBRACKET = false
                /\ N.eqb c RBRACKET = false /\ N.eqb c LPAREN = false
                /\ N.eqb c RPAREN = false /\ N.eqb c EQUALS = false
                /\ N.eqb c COMMA_CHAR = false /\ N.eqb c SEMI = false
                /\ N.eqb c HASH_CHAR = false /\ N.eqb c DQUOTE = false).
  { clear -Hstart. apply orb_true_iff in Hstart as [H|H].
    - repeat split; char_arith.
    - apply andb_true_iff in H as [H _]. repeat split; char_arith. }
  destruct Hsw as (H0 & H1 & H2 & H3 & H4 & H5 & H6 & H7 & H8 & H9).
  unfold token_switch. rewrite H0, H1, H2, H3, H4, H5, H6, H7, H8, H9.
  assert (Hcond : is_digit c
                  || N.eqb c MINUS && is_digit (peek_char (at_ (pre) (r ++ rest)))
                  || N.eqb c PLUS && is_digit (peek_char (at_ (pre) (r ++ rest)))
                  || N.eqb c DOT && is_digit (peek_char (at_ (pre) (r ++ rest)))
                  = true).
  { destruct (is_digit c); [reflexivity|]. simpl in Hstart.
    apply andb_true_iff in Hstart as [Hc Hd].
    destruct r as [|d r]; [discriminate|]. simpl app.
    rewrite peek_char_at_cons, Hd, !andb_true_r. simpl.
    destruct (N.eqb c MINUS), (N.eqb c PLUS), (N.eqb c DOT); auto. }
  rewrite Hcond. rewrite loop_fuel_at, lex_number_loop_at by lia.
  destruct (number_tail_app r rest (N.eqb c DOT) Htail Hrest) as [-> ->].
  reflexivity.
Qed.

Lemma token_switch_punct (again : Stream -> outcome (Token * Stream))
    (ln : nat) (c : char) (t : TokenType) (s : Stream) :
  punct_type c = Some t ->
  token_switch again ln c s = Ok (mkToken t (TStr [c]) ln, s).
Proof.
  unfold punct_type, token_switch. intros H.
  destruct (N.eqb c NUL) eqn:E0.
  { apply N.eqb_eq in E0; subst c; discriminate. }
  repeat match type of H with
  | (if ?b then _ else _) = _ =>
      destruct b; [injection H as <-; reflexivity|]
  end.
  discriminate.
Qed.

Lemma punct_not_whitespace (c : char) (t : TokenType) :
  punct_type c = Some t -> is_whitespace c = false.
Proof.
  unfold punct_type. intros H.
  destruct (is_whitespace c) eqn:E; [|reflexivity]. exfalso.
  assert (Hc : c = SPACE \/ c = TAB \/ c = CR \/ c = LF) by (char_arith; tauto).
  destruct Hc as [-> | [-> | [-> | ->]]]; discriminate.
Qed.

Lemma get_token_at (pre l : jstring) :
  get_token (at_ pre l) = get_token_fuel (S (S (length l))) (at_ pre l).
Proof.
  unfold get_token. rewrite loop_fuel_at.
  now replace (length l + 2) with (S (S (length l))) by lia.
Qed.

Lemma get_token_start (pre ws : jstring) (c : char) (r : jstring) :
  forallb is_whitespace ws = true -> is_whitespace c = false ->
  get_token (at_ pre (ws ++ c :: r))
  = token_switch (get_token_fuel (S (length (ws ++ c :: r))))
      (line_after pre ws) c (at_ (pre ++ ws ++ [c]) r).
Proof.
  intros Hws Hc. rewrite get_token_at, get_token_fuel_ws by assumption.
  rewrite get_token_fuel_head by assumption.
  unfold line_after. now rewrite <- app_assoc.
Qed.

Lemma get_token_punct (pre ws : jstring) (c : char) (t : TokenType)
    (rest : jstring) :
  forallb is_whitespace ws = true -> punct_type c = Some t ->
  get_token (at_ pre (ws ++ c :: rest))
  = Ok (mkToken t (TStr [c]) (line_after pre ws), at_ (pre ++ ws ++ [c]) rest).
Proof.
  intros Hws Hc.
  rewrite get_token_start by eauto using punct_not_whitespace.
  now apply token_switch_punct.
Qed.

Lemma get_token_eof (pre ws : jstring) :
  forallb is_whitespace ws = true ->
  get_token (at_ pre ws)
  = Ok (mkToken EOF (TStr []) (line_after pre ws), at_ (pre ++ ws) []).
Proof.
  intros Hws. rewrite get_token_at.
  rewrite <- (app_nil_r ws) at 2. rewrite get_token_fuel_ws by assumption.
  apply get_token_fuel_eof.
Qed.

Lemma get_token_string (pre ws v rest : jstring) :
  forallb is_whitespace ws = true -> no_NUL v = true ->
  get_token (at_ pre (ws ++ DQUOTE :: escape_string v ++ DQUOTE :: rest))
  = Ok (mkToken STRING (TStr v) (line_after pre ws),
        at_ (pre ++ ws ++ DQUOTE :: escape_string v ++ [DQUOTE]) rest).
Proof.
  intros Hws Hv. rewrite get_token_start by auto.
  rewrite token_switch_string by assumption.
  do 2 f_equal. now rewrite <- !app_assoc.
Qed.

Lemma identifier_start_not_whitespace (c : char) :
  is_alpha c || N.eqb c SLASH = true -> is_whitespace c = false.
Proof. intros H. char_arith. Qed.

Lemma get_token_identifier (pre ws id rest : jstring) :
  forallb is_whitespace ws = true ->
  ident_like id = true -> stops is_identifier_char rest ->
  get_token (at_ pre (ws ++ id ++ rest))
  = let s' := at_ (pre ++ ws ++ id) rest in
    if str_eqb id (lit "true")
    then Ok (mkToken BOOLEAN (TBool true) (line_after pre ws), s')
    else if str_eqb id (lit "false")
    then Ok (mkToken BOOLEAN (TBool false) (line_after pre ws), s')
    else Ok (mkToken IDENTIFIER (TStr id) (line_after pre ws), s').
Proof.
  intros Hws Hid Hrest. destruct id as [|c r]; [discriminate|].
  assert (Hc : is_alpha c || N.eqb c SLASH = true)
    by (simpl in Hid; now apply andb_true_iff in Hid as [? _]).
  simpl app. rewrite get_token_start
    by eauto using identifier_start_not_whitespace.
  rewrite token_switch_identifier by assumption.
  cbv zeta. replace ((pre ++ ws ++ [c]) ++ r) with (pre ++ ws ++ c :: r)
    by (now rewrite <- !app_assoc).
  reflexivity.
Qed.

Lemma number_start_not_whitespace (c : char) (r : jstring) :
  number_text (c :: r) = true -> is_whitespace c = false.
Proof.
  simpl. intros H. apply andb_true_iff in H as [H _].
  apply orb_true_iff in H as [H|H].
  - char_arith.
  - apply andb_true_iff in H as [H _]. char_arith.
Qed.

Lemma get_token_number (pre ws t rest : jstring) :
  forallb is_whitespace ws = true ->
  number_text t = true -> stops number_char rest ->
  isNaN (parseFloat t) = false ->
  get_token (at_ pre (ws ++ t ++ rest))
  = Ok (mkToken NUMBER (TNum (parseFloat t)) (line_after pre ws),
        at_ (pre ++ ws ++ t) rest).
Proof.
  intros Hws Ht Hrest Hnan. destruct t as [|c r]; [discriminate|].
  simpl app. rewrite get_token_start
    by eauto using number_start_not_whitespace.
  rewrite token_switch_number by assumption. rewrite Hnan.
  do 2 f_equal. now rewrite <- !app_assoc.
Qed.

Lemma get_token_name (pre ws id rest : jstring) :
  forallb is_whitespace ws = true ->
  ident_like id = true -> stops is_identifier_char rest ->
  str_eqb id (lit "true") = false -> str_eqb id (lit "false") = false ->
  get_token (at_ pre (ws ++ id ++ rest))
  = Ok (mkToken IDENTIFIER (TStr id) (line_after pre ws),
        at_ (pre ++ ws ++ id) rest).
Proof.
  intros Hws Hid Hrest Ht Hf.
  rewrite get_token_identifier by assumption. cbv zeta. now rewrite Ht, Hf.
Qed.

Lemma get_token_boolean (b : bool) (pre ws rest : jstring) :
  forallb is_whitespace ws = true -> stops is_identifier_char rest ->
  get_token (at_ pre (ws ++ (if b then lit "true" else lit "false") ++ rest))
  = Ok (mkToken BOOLEAN (TBool b) (line_after pre ws),
        at_ (pre ++ ws ++ (if b then lit "true" else lit "false")) rest).
Proof.
  intros Hws Hrest.
  rewrite get_token_identifier by (auto; now destruct b).
  destruct b; reflexivity.
Qed.

(** ** Values, one kind at a time *)

Lemma bind_Ok {A B} (m : M A) (k : A -> M B) (s s' : Stream) (a : A) :
  m s = Ok (a, s') -> bind m k s = k a s'.
Proof. intros H. unfold bind. now rewrite H. Qed.

Lemma argument_end_stops (rest : jstring) :
  argument_end rest ->
  stops number_char rest /\ stops is_identifier_char rest.
Proof. intros [r [-> | ->]]; split; reflexivity. Qed.

(** Reading one argument: the token and the push. *)
Lemma argument_token (n : number) (pre ws rest : jstring) :
  constructor_argument n -> argument_end rest ->
  forallb is_whitespace ws = true ->
  exists tok,
    get_token (at_ pre (ws ++ Number_toString n ++ rest))
    = Ok (tok, at_ (pre ++ ws ++ Number_toString n) rest)
    /\ ((tk_type tok = NUMBER /\ as_number (tk_value tok) = n)
        \/ (tk_type tok = IDENTIFIER
            /\ ((as_string (tk_value tok) = lit "NaN" /\ n = NaN)
                \/ (as_string (tk_value tok) = lit "Infinity"
                    /\ n = Infinity)))).
Proof.
  intros Hn Hend Hws. destruct (argument_end_stops rest Hend) as [Hs1 Hs2].
  destruct Hn as [(Ht & Hp & Hnan) | [[Ht ->] | [Ht ->]]].
  - eexists. split.
    + apply get_token_number; auto. now rewrite Hp.
    + left. simpl. auto.
  - rewrite Ht. eexists. split.
    + rewrite get_token_identifier by auto. reflexivity.
    + right. simpl. auto.
  - rewrite Ht. eexists. split.
    + rewrite get_token_identifier by auto. reflexivity.
    + right. simpl. auto.
Qed.

Lemma push_argument (f : nat) (tok : Token) (n : number) (acc : list number)
    (s : Stream) :
  (tk_type tok = NUMBER /\ as_number (tk_value tok) = n)
  \/ (tk_type tok = IDENTIFIER
      /\ ((as_string (tk_value tok) = lit "NaN" /\ n = NaN)
          \/ (as_string (tk_value tok) = lit "Infinity" /\ n = Infinity))) ->
  forall first : bool,
    (if first && TokenType_eqb (tk_type tok) PARENTHESIS_CLOSE
     then ret acc
     else
       match tk_type tok with
       | NUMBER =>
           parse_construct_args_loop f false (acc ++ [as_number (tk_value tok)])
       | IDENTIFIER =>
           let ident := as_string (tk_value tok) in
           if str_eqb ident (lit "inf") || str_eqb ident (lit "Infinity")
           then parse_construct_args_loop f false (acc ++ [Infinity])
           else if str_eqb ident (lit "-inf")
                   || str_eqb ident (lit "-Infinity")
           then parse_construct_args_loop f false (acc ++ [NegInfinity])
           else if str_eqb ident (lit "nan") || str_eqb ident (lit "NaN")
           then parse_construct_args_loop f false (acc ++ [NaN])
           else throw (lit "Expected number in constructor, got: " ++ ident)
                  (tk_line tok)
       | _ => throw (lit "Expected number in constructor") (tk_line tok)
       end) s
    = parse_construct_args_loop f false (acc ++ [n]) s.
Proof.
  intros [[Ht Hv] | [Ht [[Hv ->] | [Hv ->]]]] first; rewrite Ht;
    rewrite ?andb_false_r; cbn [TokenType_eqb].
  - now rewrite Hv.
  - cbv zeta. rewrite Hv. reflexivity.
  - cbv zeta. rewrite Hv. reflexivity.
Qed.

Lemma parse_args_first (f : nat) (n : number) (acc : list number)
    (pre rest : jstring) :
  constructor_argument n -> argument_end rest ->
  parse_construct_args_loop (S f) true acc
    (at_ pre (Number_toString n ++ rest))
  = parse_construct_args_loop f false (acc ++ [n])
      (at_ (pre ++ Number_toString n) rest).
Proof.
  intros Hn Hend.
  destruct (argument_token n pre [] rest Hn Hend eq_refl) as (tok & Htok & Hk).
  cbn [parse_construct_args_loop]. unfold bind at 1. unfold ret at 1.
  erewrite bind_Ok by exact Htok.
  exact (push_argument f tok n acc _ Hk true).
Qed.

Lemma parse_args_next (f : nat) (n : number) (acc : list number)
    (pre rest : jstring) :
  constructor_argument n -> argument_end rest ->
  parse_construct_args_loop (S f) false acc
    (at_ pre (lit ", " ++ Number_toString n ++ rest))
  = parse_construct_args_loop f false (acc ++ [n])
      (at_ (pre ++ lit ", " ++ Number_toString n) rest).
Proof.
  intros Hn Hend.
  destruct (argument_token n (pre ++ [COMMA_CHAR]) [SPACE] rest Hn Hend eq_refl)
    as (tok & Htok & Hk).
  cbn [parse_construct_args_loop].
  erewrite bind_Ok.
  2:{ erewrite bind_Ok.
      2:{ apply (get_token_punct pre [] COMMA_CHAR COMMA); reflexivity. }
      reflexivity. }
  cbv iota. simpl app.
  erewrite bind_Ok.
  2:{ simpl app in Htok. exact Htok. }
  rewrite (push_argument f tok n acc _ Hk false).
  do 2 f_equal. now rewrite <- !app_assoc.
Qed.

Lemma parse_args_close (f : nat) (acc : list number) (pre rest : jstring) :
  parse_construct_args_loop (S f) false acc (at_ pre (RPAREN :: rest))
  = Ok (acc, at_ (pre ++ [RPAREN]) rest).
Proof.
  cbn [parse_construct_args_loop].
  erewrite bind_Ok.
  2:{ erewrite bind_Ok.
      2:{ apply (get_token_punct pre [] RPAREN PARENTHESIS_CLOSE); reflexivity. }
      reflexivity. }
  reflexivity.
Qed.

Lemma parse_args_rest (ns : list number) :
  forall (fuel : nat) (acc : list number) (pre rest : jstring),
    Forall constructor_argument ns -> length ns < fuel ->
    parse_construct_args_loop fuel false acc
      (at_ pre (more_arguments ns ++ RPAREN :: rest))
    = Ok (acc ++ ns, at_ (pre ++ more_arguments ns ++ [RPAREN]) rest).
Proof.
  induction ns as [|n ns IH]; intros fuel acc pre rest Hns Hf.
  - destruct fuel as [|f]; [simpl in Hf; lia|]. simpl.
    rewrite app_nil_r. apply parse_args_close.
  - destruct fuel as [|f]; [simpl in Hf; lia|].
    inversion Hns as [|? ? Hn Hns']; subst.
    unfold more_arguments. cbn [flat_map]. fold (more_arguments ns).
    rewrite <- !app_assoc. rewrite parse_args_next; auto.
    + rewrite IH by (auto; simpl in Hf; lia).
      rewrite <- !app_assoc. reflexivity.
    + destruct ns; eexists; [right | left]; reflexivity.
Qed.

(** The argument list of a constructor, from the opening parenthesis. *)
Lemma parse_construct_args_text (n : number) (ns : list number)
    (pre rest : jstring) :
  Forall constructor_argument (n :: ns) ->
  parse_construct_args
    (at_ pre (LPAREN :: Number_toString n ++ more_arguments ns ++ RPAREN :: rest))
  = Ok (n :: ns,
        at_ (pre ++ LPAREN :: Number_toString n ++ more_arguments ns ++ [RPAREN])
          rest).
Proof.
  intros Hns. inversion Hns as [|? ? Hn Hns']; subst.
  unfold parse_construct_args.
  erewrite bind_Ok.
  2:{ apply (get_token_punct pre [] LPAREN PARENTHESIS_OPEN); reflexivity. }
  cbn [tk_type mkToken TokenType_eqb negb app]. rewrite loop_fuel_at.
  replace (length (Number_toString n ++ more_arguments ns ++ RPAREN :: rest) + 2)
    with (S (S (length (Number_toString n ++ more_arguments ns ++ RPAREN :: rest))))
    by lia.
  rewrite parse_args_first; auto.
  - rewrite parse_args_rest; auto.
    + simpl. do 2 f_equal. now rewrite <- !app_assoc.
    + rewrite !length_app. unfold more_arguments.
      clear. induction ns as [|m ns IH]; simpl; [lia|].
      rewrite !length_app in *. simpl in *. lia.
  - destruct ns; eexists; [right | left]; reflexivity.
Qed.

Lemma serialize_Color (r g b a : number) :
  serialize_value (Color r g b a)
  = lit "Color" ++ LPAREN :: Number_toString r
      ++ more_arguments [g; b; a] ++ [RPAREN].
Proof.
  unfold more_arguments. simpl.
  repeat (rewrite <- ?app_assoc; simpl; rewrite ?app_nil_r). reflexivity.
Qed.

Lemma serialize_Vector2 (x y : number) :
  serialize_value (Vector2 x y)
  = lit "Vector2" ++ LPAREN :: Number_toString x
      ++ more_arguments [y] ++ [RPAREN].
Proof.
  unfold more_arguments. simpl.
  repeat (rewrite <- ?app_assoc; simpl; rewrite ?app_nil_r). reflexivity.
Qed.

Lemma constructor_text_app (name x y tail : jstring) :
  (name ++ LPAREN :: x ++ y ++ [RPAREN]) ++ tail
  = name ++ LPAREN :: x ++ y ++ RPAREN :: tail.
Proof. rewrite <- app_assoc. simpl. now rewrite <- !app_assoc. Qed.

(** The parser reads back what the writer prints for a value, whatever
    line follows. *)
Lemma parse_value_serialized (v : value) (pre rest : jstring) :
  round_trip_value v ->
  parse_value (at_ pre (serialize_value v ++ LF :: rest))
  = Ok (v, at_ (pre ++ serialize_value v) (LF :: rest)).
Proof.
  intros Hv. unfold parse_value. destruct Hv as
    [b | s Hs | n (Hfin & Ht & Hp & Hnan) | r g b a Hr Hg Hb Ha | x y Hx Hy].
  - erewrite bind_Ok.
    2:{ apply (get_token_boolean b pre [] (LF :: rest)); reflexivity. }
    reflexivity.
  - erewrite bind_Ok.
    2:{ cbn [serialize_value app]. rewrite <- app_assoc.
        apply (get_token_string pre [] s (LF :: rest)); auto. }
    cbn [tk_type mkToken tk_value value_of_token_value ret serialize_value app].
    reflexivity.
  - cbn [serialize_value]. rewrite Hnan, Hfin. cbn [negb].
    erewrite bind_Ok.
    2:{ apply (get_token_number pre []); auto; [reflexivity | now rewrite Hp]. }
    rewrite Hp. reflexivity.
  - rewrite serialize_Color. rewrite constructor_text_app.
    erewrite bind_Ok.
    2:{ apply (get_token_name pre [] (lit "Color")); reflexivity. }
    cbv zeta. cbn [tk_type mkToken tk_value as_string].
    replace (str_eqb (lit "Color") (lit "Color")) with true by reflexivity.
    erewrite bind_Ok.
    2:{ apply parse_construct_args_text.
        repeat (apply Forall_cons; [assumption|]). apply Forall_nil. }
    unfold ret. do 2 f_equal. now rewrite <- !app_assoc.
  - rewrite serialize_Vector2. rewrite constructor_text_app.
    erewrite bind_Ok.
    2:{ apply (get_token_name pre [] (lit "Vector2")); reflexivity. }
    cbv zeta. cbn [tk_type mkToken tk_value as_string].
    replace (str_eqb (lit "Vector2") (lit "Color")) with false by reflexivity.
    replace (str_eqb (lit "Vector2") (lit "Vector2")) with true by reflexivity.
    erewrite bind_Ok.
    2:{ apply parse_construct_args_text.
        repeat (apply Forall_cons; [assumption|]). apply Forall_nil. }
    unfold ret. do 2 f_equal. now rewrite <- !app_assoc.
Qed.

(** ** The key-quoting test *)




Lemma encode_key_bare (key : jstring) :
  needs_quotes key = false -> encode_key key = key.
Proof. intros H. unfold encode_key. now rewrite H. Qed.

(** ** The turns of the top-level loop *)

Lemma ident_like_chars (id : jstring) :
  ident_like id = true -> forallb is_identifier_char id = true.
Proof.
  destruct id as [|c r]; [discriminate|]. simpl.
  intros H. apply andb_true_iff in H as [Hc ->]. rewrite andb_true_r.
  char_arith.
Qed.

Lemma name_like_ident (id : jstring) :
  name_like id = true ->
  ident_like id = true /\ str_eqb id (lit "true") = false
  /\ str_eqb id (lit "false") = false.
Proof.
  unfold name_like. rewrite !andb_true_iff, !negb_true_iff. tauto.
Qed.

Lemma identifier_chars_bare (id : jstring) :
  forallb is_identifier_char id = true ->
  existsb quoted_code id = false
  /\ replace_char RBRACKET [BACKSLASH; RBRACKET] id = id
  /\ unescape_brackets id = id.
Proof.
  induction id as [|c r IH]; [auto|]. simpl.
  intros H. apply andb_true_iff in H as [Hc Hr].
  destruct (IH Hr) as (IH1 & IH2 & IH3).
  assert (Hq : quoted_code c = false)
    by (unfold quoted_code; char_arith).
  assert (Hb : N.eqb c RBRACKET = false) by char_arith.
  assert (Hs : N.eqb c BACKSLASH = false) by char_arith.
  rewrite Hq, IH1. split; [reflexivity|]. split.
  - unfold replace_char in *. cbn [flat_map]. rewrite Hb, IH2. reflexivity.
  - destruct r as [|b r']; [reflexivity|].
    rewrite Hs. cbn [andb]. now rewrite IH3.
Qed.

Lemma name_like_bare (id : jstring) :
  name_like id = true -> encode_key id = id.
Proof.
  intros H. apply name_like_ident in H as (H & _ & _).
  apply encode_key_bare. unfold needs_quotes.
  destruct id as [|c r]; [discriminate|]. cbn [length Nat.eqb].
  now apply identifier_chars_bare, ident_like_chars.
Qed.

Lemma skip_whitespace_text (pre ws l : jstring) :
  forallb is_whitespace ws = true -> stops is_whitespace l ->
  skip_whitespace (at_ pre (ws ++ l)) = at_ (pre ++ ws) l.
Proof.
  intros Hws Hl. rewrite skip_whitespace_at.
  now rewrite take_while_app, drop_while_app.
Qed.

(** A key line. *)
Lemma parse_config_step_entry (cur : jstring) (vals : Doc)
    (pre ws key : jstring) (v : value) (rest : jstring) :
  forallb is_whitespace ws = true ->
  round_trip_key key -> round_trip_value v ->
  parse_config_step cur vals
    (at_ pre (ws ++ item_line (Entry key v) ++ LF :: rest))
  = Ok (Some (cur, doc_set cur key v vals),
        at_ (pre ++ ws ++ item_line (Entry key v)) (LF :: rest)).
Proof.
  intros Hws Hk Hv. unfold parse_config_step. cbn [item_line].
  assert (Htok : exists tok,
    get_token (at_ (pre ++ ws)
                 (encode_key key ++ EQUALS :: serialize_value v ++ LF :: rest))
    = Ok (tok, at_ ((pre ++ ws) ++ encode_key key)
                 (EQUALS :: serialize_value v ++ LF :: rest))
    /\ (tk_type tok = IDENTIFIER \/ tk_type tok = STRING)
    /\ String_of_token_value (tk_value tok) = key
    /\ is_whitespace (hd NUL (encode_key key)) = false
    /\ encode_key key <> []).
  { destruct Hk as [Hk | [Hq Hn]].
    - destruct (name_like_ident key Hk) as (Hid & Ht & Hf).
      rewrite name_like_bare by assumption. eexists. split.
      + apply (get_token_name (pre ++ ws) [] key); auto; reflexivity.
      + repeat split; auto.
        * destruct key as [|c r]; [discriminate|]. simpl in Hid.
          apply andb_true_iff in Hid as [Hc _]. simpl.
          now apply identifier_start_not_whitespace.
        * destruct key; [discriminate | discriminate].
    - unfold encode_key. rewrite Hq. fold (escape_string key).
      eexists. split.
      + cbn [app]. rewrite <- app_assoc. cbn [app].
        apply (get_token_string (pre ++ ws) [] key
                 (EQUALS :: serialize_value v ++ LF :: rest) eq_refl Hn).
      + repeat split; auto. discriminate. }
  destruct Htok as (tok & Htok & Htype & Hval & Hhd & Hne).
  rewrite <- app_assoc. rewrite skip_whitespace_text; auto.
  2:{ destruct (encode_key key) as [|c r]; [congruence|]. exact Hhd. }
  erewrite bind_Ok by exact Htok.
  assert (Hrest :
    (equalToken <- get_token ;;
     match tk_type equalToken with
     | EQUAL =>
         v0 <- parse_value ;;
         ret (Some (cur, doc_set cur (String_of_token_value (tk_value tok)) v0 vals))
     | _ => throw (lit "Expected '=' after key") (tk_line equalToken)
     end) (at_ ((pre ++ ws) ++ encode_key key)
             (EQUALS :: serialize_value v ++ LF :: rest))
    = Ok (Some (cur, doc_set cur key v vals),
          at_ (pre ++ ws ++ encode_key key ++ EQUALS :: serialize_value v)
            (LF :: rest))).
  { erewrite bind_Ok.
    2:{ apply (get_token_punct _ [] EQUALS EQUAL); reflexivity. }
    cbn [tk_type mkToken app].
    erewrite bind_Ok by (apply parse_value_serialized; assumption).
    rewrite Hval. unfold ret. do 2 f_equal.
    rewrite <- !app_assoc. reflexivity. }
  destruct Htype as [Ht | Ht]; rewrite Ht; exact Hrest.
Qed.

(** A section header. *)
Lemma parse_config_step_header (cur : jstring) (vals : Doc)
    (pre ws name rest : jstring) :
  forallb is_whitespace ws = true -> name_like name = true ->
  parse_config_step cur vals
    (at_ pre (ws ++ item_line (Header name) ++ rest))
  = Ok (Some (apply_item (cur, vals) (Header name)),
        at_ (pre ++ ws ++ item_line (Header name)) rest).
Proof.
  intros Hws Hname. destruct (name_like_ident name Hname) as (Hid & Ht & Hf).
  destruct (identifier_chars_bare name (ident_like_chars name Hid))
    as (_ & Hrep & Hun).
  unfold parse_config_step. cbn [item_line apply_item fst snd].
  rewrite Hrep. cbn [app].
  rewrite skip_whitespace_text by (auto; reflexivity).
  erewrite bind_Ok.
  2:{ apply (get_token_punct (pre ++ ws) [] LBRACKET BRACKET_OPEN); reflexivity. }
  cbn [tk_type mkToken app]. rewrite <- (app_assoc name [RBRACKET] rest).
  cbn [app].
  erewrite bind_Ok.
  2:{ apply (get_token_name _ [] name (RBRACKET :: rest)); auto; reflexivity. }
  cbn [tk_type mkToken tk_value String_of_token_value app].
  erewrite bind_Ok.
  2:{ apply (get_token_punct _ [] RBRACKET BRACKET_CLOSE); reflexivity. }
  cbn [tk_type mkToken app]. rewrite Hun. unfold ret. do 2 f_equal.
  f_equal. rewrite <- !app_assoc. reflexivity.
Qed.

(** The end of the input. *)
Lemma parse_config_step_eof (cur : jstring) (vals : Doc) (pre ws : jstring) :
  forallb is_whitespace ws = true ->
  parse_config_step cur vals (at_ pre ws) = Ok (None, at_ (pre ++ ws) []).
Proof.
  intros Hws. unfold parse_config_step.
  rewrite <- (app_nil_r ws) at 1.
  rewrite skip_whitespace_text by (auto; exact I).
  erewrite bind_Ok.
  2:{ apply (get_token_eof (pre ++ ws) []); reflexivity. }
  cbn [tk_type mkToken]. unfold ret. now rewrite app_nil_r.
Qed.

Lemma items_text_cons (it : line_item) (items : list line_item)
    (tail : jstring) :
  items_text (it :: items) ++ tail
  = item_line it ++ LF :: items_text items ++ tail.
Proof. unfold items_text. simpl. now rewrite <- !app_assoc. Qed.

(** The loop over a text of lines. *)
Lemma parse_config_loop_items (items : list line_item) :
  forall (fuel : nat) (pre ws tail cur : jstring) (vals : Doc),
    Forall item_ok items ->
    forallb is_whitespace ws = true -> forallb is_whitespace tail = true ->
    length (ws ++ items_text items ++ tail) < fuel ->
    parse_config_loop fuel (at_ pre (ws ++ items_text items ++ tail)) cur vals
    = Some {| values := snd (fold_left apply_item items (cur, vals));
              error := None |}.
Proof.
  induction items as [|it items IH];
    intros fuel pre ws tail cur vals Hok Hws Htail Hf.
  - destruct fuel as [|f]; [lia|]. cbn [items_text flat_map app fold_left snd].
    cbn [parse_config_loop].
    rewrite parse_config_step_eof; [reflexivity|].
    rewrite forallb_app. now rewrite Hws, Htail.
  - inversion Hok as [|? ? Hit Hok']; subst.
    rewrite items_text_cons in *.
    destruct it as [|name|key v].
    + cbn [item_line app fold_left apply_item] in *.
      replace (ws ++ LF :: items_text items ++ tail)
        with ((ws ++ [LF]) ++ items_text items ++ tail) in *
        by (now rewrite <- app_assoc).
      apply IH; auto. rewrite forallb_app. now rewrite Hws.
    + destruct fuel as [|f]; [lia|]. cbn [parse_config_loop].
      rewrite parse_config_step_header by assumption.
      cbn [fold_left].
      destruct (apply_item (cur, vals) (Header name)) as [c' v'] eqn:E.
      apply (IH f _ [LF]); auto.
      assert (1 <= length (item_line (Header name)))
        by (cbn [item_line length]; lia).
      rewrite !length_app in Hf. cbn [length app] in *. lia.
    + destruct fuel as [|f]; [lia|]. cbn [parse_config_loop].
      destruct Hit as [Hk Hv].
      rewrite parse_config_step_entry by assumption.
      cbn [fold_left apply_item fst snd].
      apply (IH f _ [LF]); auto.
      assert (1 <= length (item_line (Entry key v)))
        by (cbn [item_line]; rewrite length_app; cbn [length]; lia).
      rewrite !length_app in Hf. cbn [length app] in *. lia.
Qed.

(** ** The writer's text, line by line *)

Lemma fold_keys_lines (keys : KeyMap) (acc : list jstring) :
  fold_left
    (fun acc kv => acc ++ [encode_key (fst kv) ++ EQUALS :: serialize_value (snd kv)])
    keys acc
  = acc ++ map item_line (map (fun kv => Entry (fst kv) (snd kv)) keys).
Proof.
  revert acc. induction keys as [|kv keys IH]; intros acc; simpl.
  - now rewrite app_nil_r.
  - rewrite IH, <- app_assoc. reflexivity.
Qed.

Lemma serialize_fold_items (d : Doc) :
  forall (acc : list jstring) (first : bool),
    fst (fold_left
           (fun (st : list jstring * bool) (entry : jstring * KeyMap) =>
              (serialize_section (snd st) (fst entry) (snd entry) (fst st),
               false))
           d (acc, first))
    = acc ++ map item_line (doc_items first d).
Proof.
  induction d as [|[name keys] d IH]; intros acc first.
  - simpl. now rewrite app_nil_r.
  - cbn [fold_left fst snd doc_items]. rewrite IH.
    unfold serialize_section. rewrite fold_keys_lines.
    rewrite !map_app.
    destruct first, (negb (Nat.eqb (length name) 0)); cbn [map item_line app];
      rewrite <- ?app_assoc; reflexivity.
Qed.

Lemma join_lines_LF (ls : list jstring) :
  join_lines ls ++ [LF]
  = match ls with
    | [] => [LF]
    | _ => flat_map (fun l => l ++ [LF]) ls
    end.
Proof.
  induction ls as [|l ls IH]; [reflexivity|].
  destruct ls as [|l' ls].
  - simpl. now rewrite app_nil_r.
  - change (join_lines (l :: l' :: ls)) with (l ++ LF :: join_lines (l' :: ls)).
    rewrite <- app_assoc. cbn [app]. rewrite IH.
    cbn [flat_map]. now rewrite <- !app_assoc.
Qed.

Lemma serialize_config_items (d : Doc) :
  exists tail,
    forallb is_whitespace tail = true
    /\ serialize_config d = items_text (doc_items true d) ++ tail.
Proof.
  unfold serialize_config. rewrite serialize_fold_items. cbn [app].
  rewrite join_lines_LF.
  assert (Hflat : forall items,
    flat_map (fun l => l ++ [LF]) (map item_line items) = items_text items).
  { induction items as [|it items IHi]; simpl; [reflexivity|].
    unfold items_text in *. cbn [flat_map]. now rewrite IHi. }
  destruct (doc_items true d) as [|it items] eqn:E.
  - exists [LF]. split; reflexivity.
  - exists []. split; [reflexivity|]. rewrite app_nil_r.
    rewrite <- Hflat. reflexivity.
Qed.

(** ** What the lines of a document build *)

Lemma doc_set_last (cur key : jstring) (v : value) (prev : Doc) (done : KeyMap) :
  ~ In cur (map_keys prev) -> ~ In key (map_keys done) ->
  doc_set cur key v (prev ++ [(cur, done)])
  = prev ++ [(cur, done ++ [(key, v)])].
Proof.
  intros Hcur Hkey. unfold doc_set, map_has.
  rewrite map_get_last by assumption. rewrite map_get_last by assumption.
  rewrite map_set_last by assumption. now rewrite map_set_fresh.
Qed.

Lemma apply_entries (keys : KeyMap) :
  forall (more : list line_item) (cur : jstring) (prev : Doc) (done : KeyMap),
    ~ In cur (map_keys prev) -> NoDup (map_keys (done ++ keys)) ->
    fold_left apply_item
      (map (fun kv => Entry (fst kv) (snd kv)) keys ++ more)
      (cur, prev ++ [(cur, done)])
    = fold_left apply_item more (cur, prev ++ [(cur, done ++ keys)]).
Proof.
  induction keys as [|[k v] keys IH]; intros more cur prev done Hcur Hnd.
  - simpl. now rewrite app_nil_r.
  - cbn [map app fold_left apply_item fst snd].
    unfold map_keys in Hnd. rewrite map_app in Hnd. cbn [map fst] in Hnd.
    assert (Hk : ~ In k (map_keys done)).
    { apply NoDup_remove_2 in Hnd. intros Hin. apply Hnd.
      apply in_or_app. now left. }
    rewrite doc_set_last by assumption.
    rewrite IH; auto.
    + now rewrite <- app_assoc.
    + unfold map_keys. rewrite <- app_assoc, map_app, map_app. exact Hnd.
Qed.

Lemma name_like_nonempty (name : jstring) :
  name_like name = true -> negb (Nat.eqb (length name) 0) = true.
Proof.
  intros H. apply name_like_ident in H as (H & _ & _).
  destruct name; [discriminate | reflexivity].
Qed.

Lemma apply_items_named (d : Doc) :
  forall (first : bool) (cur : jstring) (prev : Doc),
    Forall (fun sec => name_like (fst sec) = true) d ->
    Forall (fun sec => NoDup (map_keys (snd sec))) d ->
    NoDup (map_keys (prev ++ d)) ->
    snd (fold_left apply_item (doc_items first d) (cur, prev)) = prev ++ d.
Proof.
  induction d as [|[name keys] d IH]; intros first cur prev Hnames Hkeys Hnd.
  - simpl. now rewrite app_nil_r.
  - inversion Hnames as [|? ? Hname Hnames']; subst.
    inversion Hkeys as [|? ? Hk Hkeys']; subst.
    cbn [fst snd] in *.
    assert (Hfresh : ~ In name (map_keys prev)).
    { unfold map_keys in *. rewrite map_app in Hnd. cbn [map fst] in Hnd.
      apply NoDup_remove_2 in Hnd. intros Hin. apply Hnd.
      apply in_or_app. now left. }
    cbn [doc_items]. rewrite (name_like_nonempty name Hname).
    assert (Hstep : forall st more,
      snd st = prev ->
      fold_left apply_item
        ([Header name; Blank]
           ++ map (fun kv => Entry (fst kv) (snd kv)) keys ++ more) st
      = fold_left apply_item more (name, prev ++ [(name, keys)])).
    { intros [c0 v0] more Hst. cbn [snd] in Hst. subst v0.
      cbn [app fold_left apply_item fst snd]. unfold map_has.
      replace (map_get name prev) with (@None KeyMap)
        by (symmetry; now apply map_get_None_notin).
      rewrite map_set_fresh by assumption.
      exact (apply_entries keys more name prev [] Hfresh Hk). }
    assert (Hblank : forall more st,
      fold_left apply_item ((if first then [] else [Blank]) ++ more) st
      = fold_left apply_item more st)
      by (intros; destruct first; reflexivity).
    rewrite Hblank, Hstep by reflexivity.
    rewrite IH; auto.
    + now rewrite <- app_assoc.
    + now rewrite <- app_assoc.
Qed.

Lemma apply_items_doc (d : Doc) :
  round_trip_doc d ->
  snd (fold_left apply_item (doc_items true d) ([], [])) = d.
Proof.
  intros (Hnd & Hsecs & Hnames).
  assert (Hkeys : Forall (fun sec => NoDup (map_keys (snd sec))) d).
  { eapply Forall_impl; [|exact Hsecs]. intros sec [H _]. exact H. }
  destruct d as [|[name keys] d]; [reflexivity|].
  destruct Hnames as [[[-> Hne] | Hname] Hrest].
  - destruct keys as [|[k v] keys]; [congruence|].
    inversion Hkeys as [|? ? Hk Hkeys']; subst. cbn [snd] in Hk.
    cbn [doc_items length Nat.eqb negb app map fst snd].
    cbn [fold_left apply_item fst snd].
    change (doc_set [] k v []) with ([] ++ [(@nil char, [(k, v)])]).
    assert (Hnil : ~ In (@nil char) (map_keys (@nil (jstring * KeyMap))))
      by (intros []).
    etransitivity.
    { apply f_equal.
      exact (apply_entries keys (doc_items false d) [] [] [(k, v)] Hnil Hk). }
    cbn [app].
    apply (apply_items_named d false [] [([], (k, v) :: keys)]); auto.
  - apply (apply_items_named ((name, keys) :: d) true [] []); auto.
Qed.

Lemma doc_items_ok (d : Doc) :
  round_trip_doc d -> Forall item_ok (doc_items true d).
Proof.
  intros (_ & Hsecs & Hnames).
  assert (Hgen : forall d first,
    Forall round_trip_section d ->
    Forall (fun sec => fst sec = [] \/ name_like (fst sec) = true) d ->
    Forall item_ok (doc_items first d)).
  { clear. induction d as [|[name keys] d IH]; intros first Hs Hn.
    - constructor.
    - inversion Hs as [|? ? [_ Hkv] Hs']; subst.
      inversion Hn as [|? ? Hname Hn']; subst. cbn [fst snd] in *.
      cbn [doc_items].
      apply Forall_app; split;
        [|apply Forall_app; split; [|apply Forall_app; split]].
      + destruct first; repeat constructor.
      + destruct Hname as [-> | Hname]; [constructor|].
        rewrite (name_like_nonempty name Hname).
        repeat constructor. exact Hname.
      + apply Forall_map. eapply Forall_impl; [|exact Hkv].
        intros kv H. exact H.
      + now apply IH. }
  apply Hgen; [assumption|].
  destruct d as [|[name keys] d]; [constructor|].
  destruct Hnames as [Hfirst Hrest]. constructor.
  - cbn [fst]. destruct Hfirst as [[-> _] | H]; auto.
  - eapply Forall_impl; [|exact Hrest]. intros sec H. now right.
Qed.

(** ** ConfigFile.parse *)

(** C9. [ConfigFile.parse] leaves the stored map as it was when the parse
    returns an error (the values parsed before the failure are not
    installed), and stores the newly parsed map exactly when it returns
    no error. *)
Theorem C9_parse_keeps_store_on_error (this : ConfigFile) (content : jstring) :
  (forall e, snd (ConfigFile_parse this content) = Some e ->
             fst (ConfigFile_parse this content) = this
             /\ error (parse_config content) = Some e)
  /\ (snd (ConfigFile_parse this content) = None ->
      fst (ConfigFile_parse this content)
      = {| cf_values := values (parse_config content) |}
      /\ error (parse_config content) = None)
  /\ (fst (ConfigFile_parse this content) <> this ->
      snd (ConfigFile_parse this content) = None).
Proof.
  unfold ConfigFile_parse. destruct (error (parse_config content)) as [e|];
    cbn [fst snd].
  - split; [|split].
    + intros e' H. injection H as <-. auto.
    + discriminate.
    + intros H. now contradiction H.
  - split; [|split]; auto. discriminate.
Qed.

(** ** Objects and their prototype *)



Lemma spread_NoDup (o : omap value) : NoDup (map_keys (spread o)).
Proof.
  unfold spread. generalize (NoDup_nil jstring).
  change (@nil jstring) with (map_keys (@nil (jstring * value))).
  generalize (@nil (jstring * value)) as acc.
  induction o as [|[k v] o IH]; intros acc H; simpl; [assumption|].
  apply IH. now apply map_set_NoDup.
Qed.



Lemma property_assign_get_owned (o : jsobject) (k : jstring) (v : value)
    (vp : prototype) :
  k <> PROTO \/ map_has k (own o) = true ->
  map_get k (own (property_assign o k v vp)) = Some v.
Proof.
  intros H. unfold property_assign.
  destruct (str_eqb k PROTO) eqn:E.
  - apply str_eqb_eq in E. subst k.
    destruct H as [H | H]; [congruence|]. rewrite H. cbn [negb andb own].
    apply map_get_set_same.
  - cbn [andb own]. apply map_get_set_same.
Qed.


Lemma property_assign_NoDup (o : jsobject) (k : jstring) (v : value)
    (vp : prototype) :
  NoDup (map_keys (own o)) ->
  NoDup (map_keys (own (property_assign o k v vp))).
Proof.
  intros H. unfold property_assign.
  destruct (str_eqb k PROTO && negb (map_has PROTO (own o))
            && setter_reached (proto o)).
  - destruct v; assumption.
  - cbn [own]. now apply map_set_NoDup.
Qed.

(** An assignment to another key than [__proto__] sets the property. *)
Lemma property_assign_plain (o : jsobject) (k : jstring) (v : value)
    (vp : prototype) :
  k <> PROTO ->
  property_assign o k v vp
  = {| own := map_set k v (own o); proto := proto o |}.
Proof.
  intros H. apply str_eqb_neq in H. unfold property_assign. now rewrite H.
Qed.


(** ** Merging presets *)

Lemma map_delete_In {V} (k x : jstring) (m : omap V) :
  In x (map_keys (map_delete k m)) -> In x (map_keys m).
Proof.
  induction m as [|[k0 v0] m IH]; simpl; auto.
  destruct (str_eqb k0 k); simpl; intuition.
Qed.

Lemma map_delete_NoDup {V} (k : jstring) (m : omap V) :
  NoDup (map_keys m) -> NoDup (map_keys (map_delete k m)).
Proof.
  induction m as [|[k0 v0] m IH]; simpl; auto.
  intros H. inversion H as [|? ? Hk0 H']; subst.
  destruct (str_eqb k0 k); simpl; auto.
  constructor; auto. intros Hin. apply Hk0. eapply map_delete_In; eauto.
Qed.











(** The loop of [deepMerge] on any source: the properties of the result. *)
Lemma deepMerge_loop_NoDup (s : omap value) :
  forall r0,
    NoDup (map_keys (own r0)) -> NoDup (map_keys (own (deepMerge_loop s r0))).
Proof.
  unfold deepMerge_loop.
  induction s as [|[k v] s IH]; intros r0 H; [exact H|].
  cbn [fold_left fst snd]. apply IH. now apply property_assign_NoDup.
Qed.


Lemma deepMerge_NoDup (target source : omap value) :
  NoDup (map_keys (own (deepMerge target source))).
Proof. apply deepMerge_loop_NoDup, spread_NoDup. Qed.





(** One turn of the merge loop. *)
Lemma merge_step_NoDup (merged current : ExportPreset) :
  NoDup (map_keys (merge_step merged current)).
Proof.
  unfold merge_step. apply property_assign_NoDup, deepMerge_NoDup.
Qed.

Lemma merge_step_options_field (merged current : ExportPreset) :
  map_get (lit "options") (merge_step merged current)
  = Some
      (VObj
         (mergeOptions
            [options_or_empty
               (options_field
                  (property_read
                     (deepMerge merged
                        (map_delete (lit "options") (spread current)))
                     (lit "options")));
             options_or_empty (preset_options current)])).
Proof.
  unfold merge_step. apply property_assign_get_owned. left. discriminate.
Qed.











(** ** The string rule, the constructors and the section header *)

(** C2, amended. In the string rule an unescaped double quote always closes
    the string, whatever follows it: the loop returns the text gathered so
    far and leaves what follows the quote unread; and so a quoted text the
    writer produced is read back as one STRING token up to its closing
    quote, whatever comes next. *)
Theorem C2_unescaped_quote_closes :
  (forall (fuel ln : nat) (str pre rest : jstring),
      lex_string_loop (S fuel) ln str false (at_ pre (DQUOTE :: rest))
      = Ok (str, at_ (pre ++ [DQUOTE]) rest))
  /\ (forall (pre ws v rest : jstring),
         forallb is_whitespace ws = true -> no_NUL v = true ->
         get_token (at_ pre (ws ++ DQUOTE :: escape_string v ++ DQUOTE :: rest))
         = Ok (mkToken STRING (TStr v) (line_after pre ws),
               at_ (pre ++ ws ++ DQUOTE :: escape_string v ++ [DQUOTE]) rest)).
Proof.
  split.
  - intros fuel ln str pre rest. cbn [lex_string_loop].
    rewrite get_char_at_cons. cbn -[string_end_lookahead at_].
    now destruct (string_end_lookahead _).
  - exact get_token_string.
Qed.

Lemma parse_value_unknown_identifier (name pre rest : jstring) :
  ident_like name = true -> stops is_identifier_char rest ->
  str_eqb name (lit "true") = false -> str_eqb name (lit "false") = false ->
  str_eqb name (lit "Color") = false -> str_eqb name (lit "Vector2") = false ->
  parse_value (at_ pre (name ++ rest))
  = Throw {| pe_message := lit "Unknown identifier: " ++ name;
             pe_line := S (count_lf pre) |}.
Proof.
  intros Hid Hrest Ht Hf Hc Hv. unfold parse_value.
  erewrite bind_Ok.
  2:{ apply (get_token_name pre [] name rest); auto. }
  cbn [tk_type mkToken tk_value as_string tk_line]. rewrite Hc, Hv.
  unfold throw, line_after. now rewrite app_nil_r.
Qed.

(** C3, on the code. The value parser knows no string-array constructor:
    whatever argument list follows, each of the three names ends the parse
    with the error Unknown identifier. *)
Theorem C3_string_arrays_rejected (pre rest : jstring) :
  parse_value (at_ pre (lit "PackedStringArray" ++ LPAREN :: rest))
  = Throw {| pe_message := lit "Unknown identifier: PackedStringArray";
             pe_line := S (count_lf pre) |}
  /\ parse_value (at_ pre (lit "PoolStringArray" ++ LPAREN :: rest))
     = Throw {| pe_message := lit "Unknown identifier: PoolStringArray";
                pe_line := S (count_lf pre) |}
  /\ parse_value (at_ pre (lit "StringArray" ++ LPAREN :: rest))
     = Throw {| pe_message := lit "Unknown identifier: StringArray";
                pe_line := S (count_lf pre) |}.
Proof.
  repeat split; apply parse_value_unknown_identifier; reflexivity.
Qed.

Lemma token_switch_unexpected (again : Stream -> outcome (Token * Stream))
    (ln : nat) (c : char) (pre rest : jstring) :
  (c = MINUS /\ stops is_digit rest) \/ c = BACKSLASH ->
  token_switch again ln c (at_ pre rest)
  = Throw {| pe_message := lit "Unexpected character: " ++ [c];
             pe_line := ln |}.
Proof.
  intros [[-> Hrest] | ->]; unfold token_switch.
  - cbn -[peek_char at_ is_digit].
    replace (is_digit (peek_char (at_ pre rest))) with false; [reflexivity|].
    destruct rest as [|d rest].
    + now rewrite peek_char_at_nil.
    + rewrite peek_char_at_cons. simpl in Hrest. now rewrite Hrest.
  - reflexivity.
Qed.

(** C6, on the code. The sentinel [-inf] never reaches the constructor's
    argument loop: the lexer stops at the minus sign, so a Color whose
    first argument is written [-inf] ends the parse with the error
    Unexpected character, whatever follows. *)
Theorem C6_negative_infinity_rejected (pre rest : jstring) :
  parse_value (at_ pre (lit "Color(-inf" ++ rest))
  = Throw {| pe_message := lit "Unexpected character: -";
             pe_line := S (count_lf (pre ++ lit "Color(")) |}.
Proof.
  unfold parse_value.
  erewrite bind_Ok.
  2:{ apply (get_token_name pre [] (lit "Color") (lit "(-inf" ++ rest));
      reflexivity. }
  cbn [tk_type mkToken tk_value as_string tk_line].
  replace (str_eqb (lit "Color") (lit "Color")) with true by reflexivity.
  unfold bind at 1. unfold parse_construct_args.
  erewrite bind_Ok.
  2:{ apply (get_token_punct (pre ++ lit "Color") [] LPAREN PARENTHESIS_OPEN
               (lit "-inf" ++ rest)); reflexivity. }
  cbn [tk_type mkToken TokenType_eqb negb].
  rewrite loop_fuel_at. rewrite Nat.add_comm.
  cbn [Nat.add parse_construct_args_loop].
  unfold bind at 1. unfold ret at 1. unfold bind at 1.
  rewrite (get_token_start _ [] MINUS (lit "inf" ++ rest)) by reflexivity.
  rewrite token_switch_unexpected by (left; split; reflexivity).
  unfold line_after. do 2 f_equal. f_equal.
  rewrite app_nil_r, <- app_assoc. reflexivity.
Qed.

Lemma skip_whitespace_none (pre l : jstring) :
  stops is_whitespace l -> skip_whitespace (at_ pre l) = at_ pre l.
Proof.
  intros H. pose proof (skip_whitespace_text pre [] l eq_refl H) as E.
  cbn [app] in E. now rewrite app_nil_r in E.
Qed.

(** C8, on the code. A bracketed header whose bare name is followed by a
    backslash, as the writer prints a name with a closing bracket in it,
    ends the parse with the error Unexpected character: the escaped bracket
    is never reached. *)
Theorem C8_escaped_bracket_rejected (cur : jstring) (vals : Doc)
    (pre name rest : jstring) :
  name_like name = true ->
  parse_config_step cur vals (at_ pre (LBRACKET :: name ++ BACKSLASH :: rest))
  = Throw {| pe_message := lit "Unexpected character: " ++ [BACKSLASH];
             pe_line := S (count_lf (pre ++ LBRACKET :: name)) |}.
Proof.
  intros Hname. destruct (name_like_ident name Hname) as (Hid & Ht & Hf).
  unfold parse_config_step.
  rewrite skip_whitespace_none by reflexivity.
  erewrite bind_Ok.
  2:{ apply (get_token_punct pre [] LBRACKET BRACKET_OPEN); reflexivity. }
  cbn [tk_type mkToken app].
  erewrite bind_Ok.
  2:{ apply (get_token_name _ [] name (BACKSLASH :: rest)); auto; reflexivity. }
  cbn [tk_type mkToken tk_value String_of_token_value app].
  unfold bind at 1.
  rewrite (get_token_start _ [] BACKSLASH rest) by reflexivity.
  rewrite token_switch_unexpected by now right.
  unfold line_after. do 2 f_equal.
  rewrite !app_nil_r, <- !app_assoc. reflexivity.
Qed.

(** ** Every call returns or throws a sound error *)

Lemma lex_string_loop_cases (fuel : nat) :
  forall (ln : nat) (acc : jstring) (esc : bool) (pre l : jstring),
    length l < fuel ->
    (string_open esc l = true ->
     lex_string_loop fuel ln acc esc (at_ pre l)
     = Throw {| pe_message := lit "Unterminated string"; pe_line := ln |})
    /\ (string_open esc l = false ->
        exists str pre' l',
          lex_string_loop fuel ln acc esc (at_ pre l) = Ok (str, at_ pre' l')
          /\ pre' ++ l' = pre ++ l /\ length l' < length l).
Proof.
  induction fuel as [|f IH]; intros ln acc esc pre l Hf; [lia|].
  destruct l as [|c l].
  - split; [|discriminate]. intros _. cbn [lex_string_loop].
    rewrite get_char_at_nil. reflexivity.
  - cbn [lex_string_loop string_open]. rewrite get_char_at_cons.
    simpl in Hf.
    assert (Hnext : forall acc' esc',
      (string_open esc' l = true ->
       lex_string_loop f ln acc' esc' (at_ (pre ++ [c]) l)
       = Throw {| pe_message := lit "Unterminated string"; pe_line := ln |})
      /\ (string_open esc' l = false ->
          exists str pre' l',
            lex_string_loop f ln acc' esc' (at_ (pre ++ [c]) l)
            = Ok (str, at_ pre' l')
            /\ pre' ++ l' = pre ++ c :: l /\ length l' < length (c :: l))).
    { intros acc' esc'. destruct (IH ln acc' esc' (pre ++ [c]) l) as [H1 H2];
        [lia|]. split; [exact H1|].
      intros H. destruct (H2 H) as (str & pre' & l' & E & Hc & Hl).
      exists str, pre', l'. rewrite <- app_assoc in Hc. simpl in *.
      repeat split; auto. }
    destruct (N.eqb c NUL); [split; [reflexivity | discriminate]|].
    destruct esc; [apply Hnext|].
    destruct (N.eqb c BACKSLASH); [apply Hnext|].
    destruct (N.eqb c DQUOTE); [|apply Hnext].
    split; [discriminate|]. intros _.
    exists acc, (pre ++ [c]), l. rewrite <- app_assoc. simpl.
    destruct (string_end_lookahead _); auto.
Qed.

Lemma count_lf_prefix (pre l content : jstring) :
  pre ++ l = content ->
  1 <= S (count_lf pre) /\ S (count_lf pre) <= S (count_lf content).
Proof. intros <-. rewrite count_lf_app. lia. Qed.

Lemma error_ok_other (content msg : jstring) (ln : nat) :
  (1 <= ln /\ ln <= S (count_lf content)) ->
  firstn 3 msg <> firstn 3 (lit "Unterminated string") ->
  error_ok content {| pe_message := msg; pe_line := ln |}.
Proof.
  intros Hln Hmsg. split; [exact Hln|]. cbn [pe_message].
  intros E. rewrite E in Hmsg. congruence.
Qed.

Lemma post_Ok {A} (content : jstring) (Q : A -> jstring -> Prop) (a : A)
    (pre' l' : jstring) :
  pre' ++ l' = content -> Q a l' -> post content Q (Ok (a, at_ pre' l')).
Proof. intros H1 H2. exists pre', l'. auto. Qed.

Lemma token_switch_post (again : Stream -> outcome (Token * Stream))
    (content pre : jstring) (c : char) (r : jstring) (n : nat) :
  pre ++ c :: r = content -> c <> NUL -> length r < n ->
  (forall pre1 l1, pre1 ++ l1 = content -> length l1 <= length r ->
                   post content (token_post content l1) (again (at_ pre1 l1))) ->
  post content (token_post content (c :: r))
    (token_switch again (S (count_lf pre)) c (at_ (pre ++ [c]) r)).
Proof.
  intros Hc Hnul Hn Hagain.
  assert (Hline : 1 <= S (count_lf pre) /\ S (count_lf pre) <= S (count_lf content))
    by (eapply count_lf_prefix; eauto).
  assert (Hc' : (pre ++ [c]) ++ r = content)
    by (now rewrite <- app_assoc).
  assert (Hsimple : forall t v,
    t <> EOF \/ True ->
    post content (token_post content (c :: r))
      (Ok (mkToken t v (S (count_lf pre)), at_ (pre ++ [c]) r))).
  { intros t v _. apply post_Ok; [exact Hc'|].
    repeat split; cbn [tk_line mkToken length]; try lia. }
  assert (Hcomment :
    post content (token_post content (c :: r))
      (again (skip_comment (at_ (pre ++ [c]) r)))).
  { rewrite skip_comment_at.
    pose proof (comment_rest_length r) as Hlen.
    assert (Hp : post content (token_post content (comment_rest r))
                   (again (at_ ((pre ++ [c]) ++ comment_text r) (comment_rest r)))).
    { apply Hagain; [|exact Hlen].
      rewrite <- app_assoc. rewrite comment_text_rest. exact Hc'. }
    destruct (again _) as [[tok s']|e|]; cbn [post] in *; auto.
    destruct Hp as (p' & l' & -> & Hcont & (Hl1 & Hl2 & Hl3)).
    exists p', l'. repeat split; auto; cbn [length]; try lia. }
  unfold token_switch.
  destruct (N.eqb c NUL) eqn:E0; [apply N.eqb_eq in E0; congruence|].
  destruct (N.eqb c LBRACKET); [apply Hsimple; auto|].
  destruct (N.eqb c RBRACKET); [apply Hsimple; auto|].
  destruct (N.eqb c LPAREN); [apply Hsimple; auto|].
  destruct (N.eqb c RPAREN); [apply Hsimple; auto|].
  destruct (N.eqb c EQUALS); [apply Hsimple; auto|].
  destruct (N.eqb c COMMA_CHAR); [apply Hsimple; auto|].
  destruct (N.eqb c SEMI); [exact Hcomment|].
  destruct (N.eqb c HASH_CHAR); [exact Hcomment|].
  destruct (N.eqb c DQUOTE) eqn:Eq.
  { apply N.eqb_eq in Eq; subst c. rewrite loop_fuel_at.
    destruct (lex_string_loop_cases (length r + 2) (S (count_lf pre)) [] false
                (pre ++ [DQUOTE]) r) as [H1 H2]; [lia|].
    destruct (string_open false r) eqn:Eopen.
    - rewrite H1 by reflexivity. cbn [post]. split; [exact Hline|].
      intros _. exists pre, r. cbn [pe_line]. auto.
    - destruct (H2 eq_refl) as (str & p' & l' & -> & Hcont & Hlen).
      apply post_Ok; [congruence|].
      repeat split; cbn [tk_line mkToken length]; try lia. }
  destruct (is_digit c || N.eqb c MINUS && is_digit (peek_char (at_ (pre ++ [c]) r))
            || N.eqb c PLUS && is_digit (peek_char (at_ (pre ++ [c]) r))
            || N.eqb c DOT && is_digit (peek_char (at_ (pre ++ [c]) r))).
  { rewrite loop_fuel_at, lex_number_loop_at by lia.
    destruct (isNaN _).
    - cbn [post]. apply error_ok_other; [exact Hline|]. discriminate.
    - apply post_Ok.
      + rewrite <- app_assoc, number_tail_rest. exact Hc'.
      + pose proof (number_rest_length (N.eqb c DOT) r).
        repeat split; cbn [tk_line mkToken length]; try lia. }
  destruct (is_alpha c || N.eqb c SLASH).
  { rewrite loop_fuel_at, lex_identifier_loop_at by lia.
    pose proof (drop_while_length is_identifier_char r) as Hlen.
    assert (Hcont : ((pre ++ [c]) ++ take_while is_identifier_char r)
                      ++ drop_while is_identifier_char r = content)
      by (rewrite <- app_assoc, take_drop_while; exact Hc').
    destruct (str_eqb _ (lit "true")); [|destruct (str_eqb _ (lit "false"))];
      (apply post_Ok; [exact Hcont|]);
      repeat split; cbn [tk_line mkToken length]; try lia. }
  cbn [post]. apply error_ok_other; [exact Hline|]. discriminate.
Qed.

Lemma get_token_fuel_post (fuel : nat) :
  forall pre l content : jstring,
    pre ++ l = content -> length l < fuel ->
    post content (token_post content l) (get_token_fuel fuel (at_ pre l)).
Proof.
  induction fuel as [|f IH]; intros pre l content Hc Hf; [lia|].
  rewrite get_token_fuel_at. cbv zeta.
  pose proof (take_drop_while is_whitespace l) as Hsplit.
  pose proof (drop_while_length is_whitespace l) as Hlen.
  assert (Hc1 : (pre ++ take_while is_whitespace l)
                  ++ drop_while is_whitespace l = content)
    by (rewrite <- app_assoc, Hsplit; exact Hc).
  destruct (drop_while is_whitespace l) as [|c r] eqn:Ed.
  - unfold token_switch. cbn [N.eqb NUL]. apply post_Ok; [exact Hc1|].
    assert (Hline := count_lf_prefix _ _ _ Hc1).
    repeat split; cbn [tk_line mkToken tk_type length]; try lia. congruence.
  - destruct (N.eq_dec c NUL) as [-> | Hnul].
    + unfold token_switch. cbn [N.eqb NUL].
      apply post_Ok; [now rewrite <- app_assoc|].
      assert (Hline := count_lf_prefix _ _ _ Hc1).
      cbn [length] in Hlen.
      repeat split; cbn [tk_line mkToken tk_type length]; lia.
    + cbn [length] in Hlen.
      assert (Hp : post content (token_post content (c :: r))
                     (token_switch (get_token_fuel f)
                        (S (count_lf (pre ++ take_while is_whitespace l))) c
                        (at_ ((pre ++ take_while is_whitespace l) ++ [c]) r))).
      { apply (token_switch_post _ content _ c r f); auto; [lia|].
        intros pre1 l1 Hc' Hl1. apply IH; [exact Hc' | lia]. }
      destruct (token_switch _ _ _ _) as [[tok s']|e|]; cbn [post] in *; auto.
      destruct Hp as (p' & l' & -> & Hcont & (Hl1 & Hl2 & Hl3)).
      exists p', l'. repeat split; auto; cbn [length] in *; try lia.
      intros Hne. specialize (Hl3 Hne). lia.
Qed.

Lemma get_token_post (pre l content : jstring) :
  pre ++ l = content ->
  post content (token_post content l) (get_token (at_ pre l)).
Proof.
  intros Hc. rewrite get_token_at. apply get_token_fuel_post; [exact Hc | lia].
Qed.

Lemma post_weaken {A} (content : jstring) (Q R : A -> jstring -> Prop)
    (r : outcome (A * Stream)) :
  (forall a l, Q a l -> R a l) -> post content Q r -> post content R r.
Proof.
  intros H. destruct r as [[a s']|e|]; cbn [post]; auto.
  intros (p' & l' & E & Hc & Hq). exists p', l'. auto.
Qed.

Lemma post_bind {A B} (content : jstring) (Q : A -> jstring -> Prop)
    (R : B -> jstring -> Prop) (m : M A) (k : A -> M B) (s : Stream) :
  post content Q (m s) ->
  (forall a pre l, pre ++ l = content -> Q a l ->
                   post content R (k a (at_ pre l))) ->
  post content R (bind m k s).
Proof.
  intros Hm Hk. unfold bind. destruct (m s) as [[a s']|e|]; cbn [post] in *;
    auto.
  destruct Hm as (p' & l' & -> & Hc & Hq). now apply Hk.
Qed.

Lemma post_throw {A} (content : jstring) (Q : A -> jstring -> Prop)
    (msg : jstring) (tok : Token) (l l' : jstring) (s : Stream) :
  token_post content l tok l' ->
  firstn 3 msg <> firstn 3 (lit "Unterminated string") ->
  post content Q (throw msg (tk_line tok) s).
Proof.
  intros (Hline & _) Hmsg. unfold throw. cbn [post].
  now apply error_ok_other.
Qed.

Lemma parse_construct_args_loop_post (fuel : nat) :
  forall (first : bool) (args : list number) (pre l content : jstring),
    pre ++ l = content -> length l < fuel ->
    post content (fun _ l' => length l' <= length l)
      (parse_construct_args_loop fuel first args (at_ pre l)).
Proof.
  induction fuel as [|f IH]; intros first args pre l content Hc Hf; [lia|].
  assert (Hbody : forall (first' : bool) pre0 l0,
    pre0 ++ l0 = content -> length l0 <= length l ->
    post content (fun _ l' => length l' <= length l)
      ((token <- get_token ;;
        if first' && TokenType_eqb (tk_type token) PARENTHESIS_CLOSE
        then ret args
        else
          match tk_type token with
          | NUMBER =>
              parse_construct_args_loop f false
                (args ++ [as_number (tk_value token)])
          | IDENTIFIER =>
              let ident := as_string (tk_value token) in
              if str_eqb ident (lit "inf") || str_eqb ident (lit "Infinity")
              then parse_construct_args_loop f false (args ++ [Infinity])
              else if str_eqb ident (lit "-inf")
                      || str_eqb ident (lit "-Infinity")
              then parse_construct_args_loop f false (args ++ [NegInfinity])
              else if str_eqb ident (lit "nan") || str_eqb ident (lit "NaN")
              then parse_construct_args_loop f false (args ++ [NaN])
              else throw (lit "Expected number in constructor, got: " ++ ident)
                     (tk_line token)
          | _ => throw (lit "Expected number in constructor") (tk_line token)
          end) (at_ pre0 l0))).
  { intros first' pre0 l0 Hc0 Hl0.
    eapply post_bind; [apply get_token_post; exact Hc0|].
    intros tok p1 l1 Hc1 Htok.
    assert (Hrec : forall args', tk_type tok <> EOF ->
      post content (fun _ l' => length l' <= length l)
        (parse_construct_args_loop f false args' (at_ p1 l1))).
    { intros args' Hne. destruct Htok as (_ & _ & Hlt). specialize (Hlt Hne).
      eapply post_weaken; [|apply IH; [exact Hc1 | lia]].
      cbn beta. intros _ l' Hl'. lia. }
    destruct (first' && TokenType_eqb (tk_type tok) PARENTHESIS_CLOSE).
    { apply post_Ok; [exact Hc1|]. destruct Htok as (_ & Hle & _). lia. }
    destruct (tk_type tok) eqn:Et;
      try (eapply post_throw; [exact Htok | discriminate]).
    - apply Hrec. discriminate.
    - cbv zeta.
      destruct (_ || _); [apply Hrec; discriminate|].
      destruct (_ || _); [apply Hrec; discriminate|].
      destruct (_ || _); [apply Hrec; discriminate|].
      eapply post_throw; [exact Htok | discriminate]. }
  cbn [parse_construct_args_loop]. destruct first.
  - unfold bind at 1. unfold ret at 1. apply Hbody; [exact Hc | lia].
  - eapply post_bind
      with (Q := fun (closed : bool) l' => length l' <= length l).
    + eapply post_bind; [apply get_token_post; exact Hc|].
      intros tok p1 l1 Hc1 Htok.
      destruct (tk_type tok) eqn:Et;
        try (eapply post_throw; [exact Htok | discriminate]);
        (apply post_Ok; [exact Hc1|]; destruct Htok as (_ & Hle & _); lia).
    + intros closed p1 l1 Hc1 Hl1. destruct closed.
      * apply post_Ok; [exact Hc1 | exact Hl1].
      * apply Hbody; assumption.
Qed.

Lemma parse_construct_args_post (pre l content : jstring) :
  pre ++ l = content ->
  post content (fun _ l' => length l' <= length l)
    (parse_construct_args (at_ pre l)).
Proof.
  intros Hc. unfold parse_construct_args.
  eapply post_bind; [apply get_token_post; exact Hc|].
  intros tok p1 l1 Hc1 Htok.
  destruct (negb _); [eapply post_throw; [exact Htok | discriminate]|].
  rewrite loop_fuel_at.
  eapply post_weaken;
    [|apply parse_construct_args_loop_post; [exact Hc1 | lia]].
  cbn beta. intros _ l' Hl'. destruct Htok as (_ & Hle & _). lia.
Qed.

Lemma parse_value_post (pre l content : jstring) :
  pre ++ l = content ->
  post content (fun _ l' => length l' <= length l) (parse_value (at_ pre l)).
Proof.
  intros Hc. unfold parse_value.
  eapply post_bind; [apply get_token_post; exact Hc|].
  intros tok p1 l1 Hc1 Htok.
  assert (Hle : length l1 <= length l) by (destruct Htok as (_ & H & _); exact H).
  assert (Hargs : post content (fun _ l' => length l' <= length l)
                    (parse_construct_args (at_ p1 l1))).
  { eapply post_weaken; [|apply parse_construct_args_post; exact Hc1].
    cbn beta. intros _ l' Hl'. lia. }
  destruct (tk_type tok) eqn:Et;
    try (eapply post_throw; [exact Htok | discriminate]);
    try (apply post_Ok; [exact Hc1 | exact Hle]).
  cbv zeta. destruct (str_eqb _ (lit "Color")).
  { eapply post_bind; [exact Hargs|].
    intros args p2 l2 Hc2 Hl2.
    destruct args as [|r [|g [|b [|a [|x args]]]]];
      try (eapply post_throw; [exact Htok | discriminate]).
    apply post_Ok; [exact Hc2 | exact Hl2]. }
  destruct (str_eqb _ (lit "Vector2")).
  { eapply post_bind; [exact Hargs|].
    intros args p2 l2 Hc2 Hl2.
    destruct args as [|x [|y [|z args]]];
      try (eapply post_throw; [exact Htok | discriminate]).
    apply post_Ok; [exact Hc2 | exact Hl2]. }
  eapply post_throw; [exact Htok | discriminate].
Qed.

Lemma parse_config_step_post (cur : jstring) (vals : Doc)
    (pre l content : jstring) :
  pre ++ l = content ->
  post content (step_post l) (parse_config_step cur vals (at_ pre l)).
Proof.
  intros Hc. unfold parse_config_step. rewrite skip_whitespace_at.
  pose proof (drop_while_length is_whitespace l) as Hlen.
  assert (Hc0 : (pre ++ take_while is_whitespace l)
                  ++ drop_while is_whitespace l = content)
    by (rewrite <- app_assoc, take_drop_while; exact Hc).
  eapply post_bind; [apply get_token_post; exact Hc0|].
  intros tok p1 l1 Hc1 Htok.
  assert (Hlt : tk_type tok <> EOF -> length l1 < length l)
    by (intros Hne; destruct Htok as (_ & _ & H); specialize (H Hne); lia).
  destruct (tk_type tok) eqn:Et;
    try (apply post_Ok; [exact Hc1 | cbn [step_post]; try exact I;
                         apply Hlt; discriminate]);
    try (eapply post_throw; [exact Htok | discriminate]).
  - (* STRING key *)
    eapply post_bind; [apply get_token_post; exact Hc1|].
    intros tok2 p2 l2 Hc2 Htok2.
    destruct (tk_type tok2) eqn:Et2;
      try (eapply post_throw; [exact Htok2 | discriminate]).
    eapply post_bind; [apply parse_value_post; exact Hc2|].
    intros v p3 l3 Hc3 Hl3. apply post_Ok; [exact Hc3|].
    cbn [step_post]. cbn beta in Hl3. destruct Htok2 as (_ & Hle2 & _).
    assert (length l1 < length l) by (apply Hlt; discriminate). lia.
  - (* IDENTIFIER key *)
    eapply post_bind; [apply get_token_post; exact Hc1|].
    intros tok2 p2 l2 Hc2 Htok2.
    destruct (tk_type tok2) eqn:Et2;
      try (eapply post_throw; [exact Htok2 | discriminate]).
    eapply post_bind; [apply parse_value_post; exact Hc2|].
    intros v p3 l3 Hc3 Hl3. apply post_Ok; [exact Hc3|].
    cbn [step_post]. cbn beta in Hl3. destruct Htok2 as (_ & Hle2 & _).
    assert (length l1 < length l) by (apply Hlt; discriminate). lia.
  - (* BRACKET_OPEN *)
    eapply post_bind; [apply get_token_post; exact Hc1|].
    intros tok2 p2 l2 Hc2 Htok2.
    assert (Hclose :
      post content (step_post l)
        ((closeToken <- get_token ;;
          match tk_type closeToken with
          | BRACKET_CLOSE =>
              let sectionName :=
                unescape_brackets (String_of_token_value (tk_value tok2)) in
              ret (Some (sectionName,
                         if map_has sectionName vals then vals
                         else map_set sectionName [] vals))
          | _ => throw (lit "Expected ']' after section name")
                   (tk_line closeToken)
          end) (at_ p2 l2))).
    { eapply post_bind; [apply get_token_post; exact Hc2|].
      intros tok3 p3 l3 Hc3 Htok3.
      destruct (tk_type tok3) eqn:Et3;
        try (eapply post_throw; [exact Htok3 | discriminate]).
      apply post_Ok; [exact Hc3|]. cbn [step_post].
      destruct Htok2 as (_ & Hle2 & _). destruct Htok3 as (_ & Hle3 & _).
      assert (length l1 < length l) by (apply Hlt; discriminate). lia. }
    destruct (tk_type tok2) eqn:Et2;
      try (eapply post_throw; [exact Htok2 | discriminate]);
      exact Hclose.
Qed.

(** ** The top-level loop ends, with the map of the turns done *)

Lemma parse_config_loop_total (fuel : nat) :
  forall (pre l cur : jstring) (vals : Doc),
    length l < fuel ->
    exists r,
      parse_config_loop fuel (at_ pre l) cur vals = Some r
      /\ forall e, error r = Some e -> error_ok (pre ++ l) e.
Proof.
  induction fuel as [|f IH]; intros pre l cur vals Hf; [lia|].
  cbn [parse_config_loop].
  pose proof (parse_config_step_post cur vals pre l (pre ++ l) eq_refl) as Hp.
  destruct (parse_config_step cur vals (at_ pre l)) as [[[[c' v']|] s']|e|];
    cbn [post] in Hp.
  - destruct Hp as (p' & l' & -> & Hc & Hl). cbn [step_post] in Hl.
    destruct (IH p' l' c' v') as (r & Hr & He); [lia|].
    exists r. split; [exact Hr|]. now rewrite <- Hc.
  - eexists. split; [reflexivity|]. discriminate.
  - eexists. split; [reflexivity|]. cbn [error]. intros e' H.
    now injection H as <-.
  - contradiction.
Qed.

Lemma parse_config_loop_more_fuel (fuel : nat) :
  forall (s : Stream) (cur : jstring) (vals : Doc) (r : ParseResult) (d : nat),
    parse_config_loop fuel s cur vals = Some r ->
    parse_config_loop (fuel + d) s cur vals = Some r.
Proof.
  induction fuel as [|f IH]; intros s cur vals r d; [discriminate|].
  cbn [parse_config_loop Nat.add].
  destruct (parse_config_step cur vals s) as [[[[c' v']|] s']|e|]; auto.
Qed.

Lemma parse_config_loop_turns (k : nat) :
  forall (fuel : nat) (s : Stream) (cur : jstring) (vals : Doc)
         (s1 : Stream) (cur1 : jstring) (vals1 : Doc),
    turns k s cur vals = Some (s1, cur1, vals1) ->
    parse_config_loop (k + fuel) s cur vals
    = parse_config_loop fuel s1 cur1 vals1.
Proof.
  induction k as [|k IH]; intros fuel s cur vals s1 cur1 vals1 H.
  - injection H as <- <- <-. reflexivity.
  - cbn [turns] in H. cbn [Nat.add parse_config_loop].
    destruct (parse_config_step cur vals s) as [[[[c' v']|] s']|e|];
      try discriminate.
    now apply IH.
Qed.

Lemma parse_config_run_total (content : jstring) :
  exists r,
    parse_config_run content = Some r
    /\ parse_config content = r
    /\ forall e, error r = Some e -> error_ok content e.
Proof.
  unfold parse_config, parse_config_run. rewrite new_Stream_at.
  destruct (parse_config_loop_total (length content + 2) [] content [] [])
    as (r & Hr & He); [lia|].
  exists r. rewrite Hr. auto.
Qed.

(** The result of [parse_config] is the result of the turn that ends the
    loop, after any number of full turns. *)
Lemma parse_config_after_turns (content : jstring) (k : nat) (s : Stream)
    (cur : jstring) (vals : Doc) (r : ParseResult) :
  turns k (new_Stream content) [] [] = Some (s, cur, vals) ->
  parse_config_loop 1 s cur vals = Some r ->
  parse_config content = r.
Proof.
  intros Hk H1.
  destruct (parse_config_run_total content) as (r' & Hrun & Hpc & _).
  rewrite Hpc. unfold parse_config_run in Hrun.
  pose proof (parse_config_loop_turns k 1 _ _ _ _ _ _ Hk) as Hturns.
  rewrite H1 in Hturns.
  apply (parse_config_loop_more_fuel _ _ _ _ _ (length content + 2)) in Hturns.
  apply (parse_config_loop_more_fuel _ _ _ _ _ (k + 1)) in Hrun.
  rewrite Nat.add_comm in Hrun. congruence.
Qed.

Lemma get_token_unterminated (pre ws body : jstring) :
  forallb is_whitespace ws = true -> string_open false body = true ->
  get_token (at_ pre (ws ++ DQUOTE :: body))
  = Throw {| pe_message := lit "Unterminated string";
             pe_line := S (count_lf (pre ++ ws)) |}.
Proof.
  intros Hws Hopen. rewrite get_token_start by auto.
  unfold token_switch. cbn [N.eqb NUL DQUOTE LBRACKET RBRACKET LPAREN RPAREN
    EQUALS COMMA_CHAR SEMI HASH_CHAR Pos.eqb].
  rewrite loop_fuel_at.
  destruct (lex_string_loop_cases (length body + 2) (line_after pre ws) []
              false (pre ++ ws ++ [DQUOTE]) body) as [H _]; [lia|].
  now rewrite H.
Qed.

(** C4. [parse_config] always returns: the fuel never runs out.  Whatever
    turn of the loop throws, the error is returned, not thrown, beside the
    map built by the turns before it.  The error's line is a line of the
    text, counted from 1; an unterminated-string error carries the line of
    a double quote after which the string runs open to the end of the
    input; and the lexer, asked for a token where such a quote stands,
    throws exactly that error with the line of the quote. *)
Theorem C4_errors_returned (content : jstring) :
  (exists r, parse_config_run content = Some r /\ parse_config content = r)
  /\ (forall k s cur vals e,
         turns k (new_Stream content) [] [] = Some (s, cur, vals) ->
         parse_config_step cur vals s = Throw e ->
         parse_config content = {| values := vals; error := Some e |})
  /\ (forall e,
         error (parse_config content) = Some e ->
         (1 <= pe_line e /\ pe_line e <= S (count_lf content))
         /\ (pe_message e = lit "Unterminated string" ->
             unterminated_at content (pe_line e)))
  /\ (forall pre ws body,
         forallb is_whitespace ws = true -> string_open false body = true ->
         get_token (at_ pre (ws ++ DQUOTE :: body))
         = Throw {| pe_message := lit "Unterminated string";
                    pe_line := S (count_lf (pre ++ ws)) |}).
Proof.
  split; [|split; [|split]].
  - destruct (parse_config_run_total content) as (r & H1 & H2 & _). eauto.
  - intros k s cur vals e Hk He.
    apply (parse_config_after_turns content k s cur vals); [exact Hk|].
    cbn [parse_config_loop]. now rewrite He.
  - intros e He.
    destruct (parse_config_run_total content) as (r & _ & H2 & H3).
    rewrite H2 in He. exact (H3 e He).
  - exact get_token_unterminated.
Qed.

(** ** The store without repetition *)

Lemma map_set_Forall {V} (P : jstring * V -> Prop) (k : jstring) (v : V)
    (m : omap V) :
  (forall k', P (k', v)) -> Forall P m -> Forall P (map_set k v m).
Proof.
  intros Hv Hm. induction Hm as [|[k' v'] m Hkv Hm IH]; simpl.
  - repeat constructor. apply Hv.
  - destruct (str_eqb k' k); constructor; auto.
Qed.

Lemma store_invariant_section (name : jstring) (d : Doc) :
  store_invariant d ->
  store_invariant (if map_has name d then d else map_set name [] d).
Proof.
  intros [H1 H2]. destruct (map_has name d); [split; assumption|].
  split; [now apply map_set_NoDup|].
  apply map_set_Forall; [intros; constructor | assumption].
Qed.

Lemma map_get_Forall {V} (P : jstring * V -> Prop) (k : jstring) (v : V)
    (m : omap V) :
  Forall P m -> map_get k m = Some v -> exists k', P (k', v).
Proof.
  intros Hm. induction Hm as [|[k' v'] m Hkv Hm IH]; simpl; [discriminate|].
  destruct (str_eqb k' k); [intros [= <-]; eauto | exact IH].
Qed.

Lemma store_invariant_doc_set (s k : jstring) (v : value) (d : Doc) :
  store_invariant d -> store_invariant (doc_set s k v d).
Proof.
  intros Hd. apply (store_invariant_section s) in Hd.
  unfold doc_set. cbv zeta.
  match goal with
  | |- store_invariant (match ?x with _ => _ end) =>
      destruct x as [keys|] eqn:E; [|exact Hd]
  end.
  destruct Hd as [H1 H2].
  split; [now apply map_set_NoDup|].
  apply map_set_Forall; [|assumption].
  intros k'. cbn [snd]. apply map_set_NoDup.
  destruct (map_get_Forall _ s keys _ H2 E) as [k'' H]. exact H.
Qed.

(** A turn of the loop keeps the store without repetition. *)
Lemma parse_config_step_invariant (cur : jstring) (vals : Doc) (s : Stream)
    (cur' : jstring) (vals' : Doc) (s' : Stream) :
  store_invariant vals ->
  parse_config_step cur vals s = Ok (Some (cur', vals'), s') ->
  store_invariant vals'.
Proof.
  intros Hinv. unfold parse_config_step, bind, ret, throw.
  destruct (get_token (skip_whitespace s)) as [[token s1]|e|]; try discriminate.
  destruct (tk_type token); try discriminate;
    try (intros [= <- <- <-]; exact Hinv).
  - (* a quoted key *)
    destruct (get_token s1) as [[equalToken s2]|e|]; try discriminate.
    destruct (tk_type equalToken); try discriminate.
    destruct (parse_value s2) as [[v s3]|e|]; try discriminate.
    intros [= <- <- <-]. now apply store_invariant_doc_set.
  - (* a bare key *)
    destruct (get_token s1) as [[equalToken s2]|e|]; try discriminate.
    destruct (tk_type equalToken); try discriminate.
    destruct (parse_value s2) as [[v s3]|e|]; try discriminate.
    intros [= <- <- <-]. now apply store_invariant_doc_set.
  - (* a header *)
    destruct (get_token s1) as [[sectionToken s2]|e|]; try discriminate.
    destruct (tk_type sectionToken); try discriminate;
      (destruct (get_token s2) as [[closeToken s3]|e|]; try discriminate;
       destruct (tk_type closeToken); try discriminate;
       intros [= <- <- <-]; now apply store_invariant_section).
Qed.

Lemma parse_config_loop_invariant (fuel : nat) :
  forall (s : Stream) (cur : jstring) (vals : Doc) (r : ParseResult),
    store_invariant vals ->
    parse_config_loop fuel s cur vals = Some r ->
    store_invariant (values r).
Proof.
  induction fuel as [|fuel IH]; intros s cur vals r Hinv; [discriminate|].
  cbn [parse_config_loop].
  destruct (parse_config_step cur vals s) as [[[[cur' vals']|] s']|e|] eqn:E;
    try discriminate.
  - apply IH. eapply parse_config_step_invariant; eauto.
  - intros [= <-]. exact Hinv.
  - intros [= <-]. exact Hinv.
Qed.

Lemma parse_config_invariant (content : jstring) :
  store_invariant (values (parse_config content)).
Proof.
  destruct (parse_config_run_total content) as (r & Hrun & -> & _).
  unfold parse_config_run in Hrun.
  assert (H0 : store_invariant ([] : Doc)) by (split; constructor).
  exact (parse_config_loop_invariant _ _ _ _ _ H0 Hrun).
Qed.

(** ** Extracting presets *)

Lemma map_get_In {V} (k : jstring) (m : omap V) :
  In k (map_keys m) -> exists v, map_get k m = Some v.
Proof.
  intros H. destruct (map_get k m) eqn:E; [eauto|].
  now apply map_get_None_notin in E.
Qed.

Lemma get_value_found (cf : ConfigFile) (sec key : jstring) (keys : KeyMap)
    (v : value) :
  map_get sec (cf_values cf) = Some keys -> map_get key keys = Some v ->
  get_value cf sec key VUndefined = inr v.
Proof. intros Hs Hk. unfold get_value. now rewrite Hs, Hk. Qed.

(** One assignment of the loops that fill a preset or its options, on an
    object that owns no property [__proto__] and, while that key is still
    to come, has its first prototype: the object still owns none, a key
    other than [__proto__] is set, and the key [__proto__] sets nothing. *)
Lemma property_assign_pending (o : jsobject) (key : jstring) (v : value)
    (ks : list jstring) :
  NoDup (key :: ks) ->
  map_has PROTO (own o) = false ->
  (In PROTO (key :: ks) -> proto o = Object_prototype) ->
  map_has PROTO (own (property_assign o key v Object_prototype)) = false
  /\ (In PROTO ks ->
      proto (property_assign o key v Object_prototype) = Object_prototype)
  /\ (forall k, map_get k (own (property_assign o key v Object_prototype))
                = if str_eqb key k && negb (str_eqb key PROTO)
                  then Some v else map_get k (own o)).
Proof.
  intros Hnd Hown Hproto. inversion Hnd as [|? ? Hkey Hnd']; subst.
  destruct (str_eqb key PROTO) eqn:E.
  - apply str_eqb_eq in E. subst key.
    assert (Hsame : own (property_assign o PROTO v Object_prototype) = own o).
    { unfold property_assign. rewrite Hown, str_eqb_refl.
      rewrite (Hproto (or_introl eq_refl)). cbn [negb andb setter_reached].
      now destruct v. }
    rewrite Hsame. split; [exact Hown|]. split; [intros H; contradiction|].
    intros k. now rewrite andb_false_r.
  - pose proof E as E'. apply str_eqb_neq in E'.
    rewrite property_assign_plain by assumption. cbn [own proto].
    split; [now rewrite map_has_set_other|]. split.
    + intros H. apply Hproto. now right.
    + intros k. rewrite andb_true_r. destruct (str_eqb key k) eqn:Ek.
      * apply str_eqb_eq in Ek. subst k. apply map_get_set_same.
      * apply str_eqb_neq in Ek. now apply map_get_set_other.
Qed.

Lemma copy_preset_keys_spec (cf : ConfigFile) (sec : jstring) (keys : KeyMap)
    (ks : list jstring) :
  map_get sec (cf_values cf) = Some keys ->
  (forall k, In k ks -> In k (map_keys keys)) ->
  NoDup ks ->
  forall preset0,
    map_has PROTO (own preset0) = false ->
    (In PROTO ks -> proto preset0 = Object_prototype) ->
    exists preset,
      copy_preset_keys cf sec ks preset0 = inr preset
      /\ map_has PROTO (own preset) = false
      /\ (forall k, k = lit "options" \/ k = PROTO \/ ~ In k ks ->
                    map_get k (own preset) = map_get k (own preset0))
      /\ (forall k, k <> lit "options" -> k <> PROTO -> In k ks ->
                    map_get k (own preset) = map_get k keys).
Proof.
  intros Hsec. induction ks as [|key ks IH]; intros Hks Hnd preset0 Hown Hproto.
  - exists preset0. repeat split; auto. intros k _ _ [].
  - destruct (map_get_In key keys (Hks key (or_introl eq_refl))) as [v Hv].
    cbn [copy_preset_keys]. rewrite (get_value_found cf sec key keys v Hsec Hv).
    assert (Hks' : forall k, In k ks -> In k (map_keys keys))
      by (intros k Hk; apply Hks; now right).
    assert (Hnd' : NoDup ks) by now inversion Hnd.
    assert (Hkey : ~ In key ks) by now inversion Hnd.
    destruct (str_eqb key (lit "options")) eqn:E.
    + apply str_eqb_eq in E; subst key.
      destruct (IH Hks' Hnd' preset0 Hown)
        as (preset & Hrun & Hp & Ha & Hb).
      { intros H. apply Hproto. now right. }
      exists preset. split; [exact Hrun|]. split; [exact Hp|]. split.
      * intros k [-> | [-> | Hk]]; apply Ha; auto.
        right. right. intros Hin. apply Hk. now right.
      * intros k Hne Hne' [<- | Hin]; [congruence | now apply Hb].
    + apply str_eqb_neq in E.
      destruct (property_assign_pending preset0 key v ks Hnd Hown Hproto)
        as (Hown1 & Hproto1 & Hget1).
      destruct (IH Hks' Hnd' _ Hown1 Hproto1)
        as (preset & Hrun & Hp & Ha & Hb).
      exists preset. split; [exact Hrun|]. split; [exact Hp|]. split.
      * intros k Hk. rewrite Ha.
        2:{ destruct Hk as [Hk | [Hk | Hk]]; auto.
            right. right. intros Hin. apply Hk. now right. }
        rewrite Hget1. destruct (str_eqb key k) eqn:Ek; [|reflexivity].
        apply str_eqb_eq in Ek. subst k.
        destruct Hk as [Hk | [Hk | Hk]].
        -- congruence.
        -- subst key. now rewrite str_eqb_refl.
        -- exfalso. apply Hk. now left.
      * intros k Hne Hne' Hin.
        destruct (in_dec (list_eq_dec N.eq_dec) k ks) as [Hin' | Hnin].
        -- now apply Hb.
        -- destruct Hin as [<- | Hin]; [|contradiction].
           rewrite Ha by auto. rewrite Hget1, str_eqb_refl.
           apply str_eqb_neq in Hne'. rewrite Hne'. now rewrite Hv.
Qed.

Lemma copy_option_keys_spec (cf : ConfigFile) (sec : jstring) (keys : KeyMap)
    (ks : list jstring) :
  map_get sec (cf_values cf) = Some keys ->
  (forall k, In k ks -> In k (map_keys keys)) ->
  NoDup ks ->
  forall options0,
    map_has PROTO (own options0) = false ->
    (In PROTO ks -> proto options0 = Object_prototype) ->
    exists options,
      copy_option_keys cf sec ks options0 = inr options
      /\ map_has PROTO (own options) = false
      /\ (forall k, k = PROTO \/ ~ In k ks ->
                    map_get k (own options) = map_get k (own options0))
      /\ (forall k, k <> PROTO -> In k ks ->
                    map_get k (own options) = map_get k keys).
Proof.
  intros Hsec. induction ks as [|key ks IH]; intros Hks Hnd options0 Hown Hproto.
  - exists options0. repeat split; auto. intros k _ [].
  - destruct (map_get_In key keys (Hks key (or_introl eq_refl))) as [v Hv].
    cbn [copy_option_keys]. rewrite (get_value_found cf sec key keys v Hsec Hv).
    assert (Hks' : forall k, In k ks -> In k (map_keys keys))
      by (intros k Hk; apply Hks; now right).
    assert (Hnd' : NoDup ks) by now inversion Hnd.
    destruct (property_assign_pending options0 key v ks Hnd Hown Hproto)
      as (Hown1 & Hproto1 & Hget1).
    destruct (IH Hks' Hnd' _ Hown1 Hproto1)
      as (options & Hrun & Hp & Ha & Hb).
    exists options. split; [exact Hrun|]. split; [exact Hp|]. split.
    + intros k Hk. rewrite Ha.
      2:{ destruct Hk as [Hk | Hk]; auto.
          right. intros Hin. apply Hk. now right. }
      rewrite Hget1. destruct (str_eqb key k) eqn:Ek; [|reflexivity].
      apply str_eqb_eq in Ek. subst k. destruct Hk as [Hk | Hk].
      * subst key. now rewrite str_eqb_refl.
      * exfalso. apply Hk. now left.
    + intros k Hne Hin.
      destruct (in_dec (list_eq_dec N.eq_dec) k ks) as [Hin' | Hnin].
      * now apply Hb.
      * destruct Hin as [<- | Hin]; [|contradiction].
        rewrite Ha by auto. rewrite Hget1, str_eqb_refl.
        apply str_eqb_neq in Hne. rewrite Hne. now rewrite Hv.
Qed.

Lemma map_get_Some_In {V} (k : jstring) (m : omap V) (v : V) :
  map_get k m = Some v -> In k (map_keys m).
Proof.
  intros H. destruct (in_dec (list_eq_dec N.eq_dec) k (map_keys m)); auto.
  apply map_get_None_notin in n. congruence.
Qed.

Lemma store_invariant_keys (d : Doc) (sec : jstring) (keys : KeyMap) :
  store_invariant d -> map_get sec d = Some keys -> NoDup (map_keys keys).
Proof.
  intros [_ H] Hsec. destruct (map_get_Forall _ _ _ _ H Hsec) as [k' Hk'].
  exact Hk'.
Qed.

Lemma build_preset_spec (cf : ConfigFile) (sec : jstring) :
  store_invariant (cf_values cf) ->
  In sec (get_sections cf) ->
  exists preset,
    build_preset cf sec = inr preset
    /\ preset_of_section (cf_values cf) sec preset.
Proof.
  intros Hinv Hin. destruct (map_get_In sec (cf_values cf) Hin) as [keys Hsec].
  unfold build_preset, get_section_keys, has_section, map_has.
  rewrite Hsec. fold preset_defaults.
  destruct (copy_preset_keys_spec cf sec keys (map_keys keys) Hsec
              (fun k H => H) (store_invariant_keys _ _ _ Hinv Hsec)
              (object_literal preset_defaults) eq_refl (fun _ => eq_refl))
    as (preset1 & Hrun & Hp & Ha & Hb).
  rewrite Hrun.
  assert (Hfield : forall k, k <> lit "options" -> k <> PROTO ->
            map_get k (own preset1)
            = match map_get k keys with
              | Some v => Some v
              | None => map_get k preset_defaults
              end).
  { intros k Hk Hk'. destruct (map_get k keys) as [v|] eqn:E.
    - rewrite Hb; eauto using map_get_Some_In.
    - rewrite Ha; [reflexivity|]. right. right.
      now apply map_get_None_notin. }
  assert (Hreq : map_has (lit "name") (own preset1) = true
                 /\ map_has (lit "platform") (own preset1) = true
                 /\ map_has (lit "runnable") (own preset1) = true).
  { unfold map_has. rewrite !Hfield by discriminate.
    repeat split;
      match goal with
      | |- context [map_get ?k keys] => destruct (map_get k keys)
      end; reflexivity. }
  assert (Hproto : map_get PROTO (own preset1) = None).
  { unfold map_has in Hp. now destruct (map_get PROTO (own preset1)). }
  destruct (map_get (sec ++ lit ".options") (cf_values cf)) as [okeys|] eqn:Eo.
  - destruct (copy_option_keys_spec cf (sec ++ lit ".options") okeys
                (map_keys okeys) Eo (fun k H => H)
                (store_invariant_keys _ _ _ Hinv Eo)
                (object_literal []) eq_refl (fun _ => eq_refl))
      as (options & Hrun' & Hp' & Ha' & Hb').
    rewrite Hrun'. eexists. split; [reflexivity|].
    rewrite property_assign_plain by discriminate. cbn [own].
    exists keys. split; [exact Hsec|]. split; [|split; [|split]].
    + unfold map_has in *. rewrite !map_get_set_other by discriminate.
      exact Hreq.
    + intros k Hk Hk'. rewrite map_get_set_other by congruence.
      now apply Hfield.
    + rewrite map_get_set_other by discriminate. exact Hproto.
    + rewrite Eo. exists (own options). split; [apply map_get_set_same|].
      split.
      * intros k Hk. destruct (map_get k okeys) as [v|] eqn:E.
        -- rewrite Hb' by eauto using map_get_Some_In. exact E.
        -- rewrite Ha' by (right; now apply map_get_None_notin). reflexivity.
      * unfold map_has in Hp'. now destruct (map_get PROTO (own options)).
  - exists (own preset1). split; [reflexivity|].
    exists keys. split; [exact Hsec|]. split; [|split; [|split]].
    + exact Hreq.
    + exact Hfield.
    + exact Hproto.
    + rewrite Eo. rewrite Ha by now left. reflexivity.
Qed.

Lemma build_presets_spec (cf : ConfigFile) (secs : list jstring) :
  store_invariant (cf_values cf) ->
  (forall sec, In sec secs -> In sec (get_sections cf)) ->
  forall acc,
  exists presets,
    build_presets cf secs acc = inr (acc ++ presets)
    /\ Forall2 (preset_of_section (cf_values cf)) secs presets.
Proof.
  intros Hinv. induction secs as [|sec secs IH]; intros Hin acc.
  - exists []. split; [simpl; now rewrite app_nil_r | constructor].
  - destruct (build_preset_spec cf sec Hinv (Hin sec (or_introl eq_refl)))
      as (preset & Hrun & Hspec).
    cbn [build_presets]. rewrite Hrun.
    destruct (IH (fun s H => Hin s (or_intror H)) (acc ++ [preset]))
      as (presets & Hrun' & Hall).
    exists (preset :: presets). split.
    + rewrite Hrun'. now rewrite <- app_assoc.
    + now constructor.
Qed.

Lemma insert_section_In (x y : jstring) (l : list jstring) :
  In y (insert_section x l) -> y = x \/ In y l.
Proof.
  induction l as [|z l IH]; simpl.
  - intuition.
  - destruct (index_before x z); simpl; intuition.
Qed.

Lemma sort_sections_In (l : list jstring) (y : jstring) :
  In y (sort_sections l) -> In y l.
Proof.
  unfold sort_sections.
  assert (H : forall acc, In y (fold_left (fun acc x => insert_section x acc) l acc)
                          -> In y l \/ In y acc).
  { induction l as [|x l IH]; intros acc; simpl; auto.
    intros Hin. apply IH in Hin as [Hin | Hin]; auto.
    apply insert_section_In in Hin as [-> | Hin]; auto. }
  intros Hin. apply H in Hin as [Hin | []]. exact Hin.
Qed.

(** C10. Every preset [parseExportPresets] returns comes from a section
    whose name starts with [preset.]; it has [name], [platform] and
    [runnable], each holding the section's value for that key or else the
    default (the empty string, the empty string, false); and its [options]
    field comes from the section's options section alone: a key named
    [options] in the preset section itself is not copied.  (Every other
    key of the section is copied, but the key [__proto__], which makes no
    property of the preset or of its options.) *)
Theorem C10_preset_defaults (content : jstring) (presets : list ExportPreset) :
  parseExportPresets content = inr presets ->
  error (parse_config content) = None
  /\ Forall
       (fun preset =>
          exists sec,
            In sec (map_keys (values (parse_config content)))
            /\ startsWith (lit "preset.") sec = true
            /\ preset_of_section (values (parse_config content)) sec preset)
       presets.
Proof.
  unfold parseExportPresets, ConfigFile_parse.
  destruct (error (parse_config content)) as [e|]; [discriminate|].
  set (cf := {| cf_values := values (parse_config content) |}).
  set (secs := sort_sections _).
  assert (Hsecs : forall sec, In sec secs ->
            In sec (get_sections cf)
            /\ startsWith (lit "preset.") sec = true).
  { intros sec Hin. apply sort_sections_In, filter_In in Hin as [Hin Hf].
    apply andb_true_iff in Hf as [Hf _]. auto. }
  destruct (build_presets_spec cf secs (parse_config_invariant content)
              (fun s H => proj1 (Hsecs s H)) [])
    as (ps & Hrun & Hall).
  rewrite Hrun. cbn [app]. intros H. injection H as <-.
  split; [reflexivity|].
  clear Hrun. induction Hall as [|sec preset secs' ps' Hp Hall IH].
  - constructor.
  - constructor.
    + exists sec. destruct (Hsecs sec (or_introl eq_refl)) as [H1 H2].
      repeat split; assumption.
    + apply IH. intros s Hs. apply Hsecs. now right.
Qed.

(** ** The round trip *)

(** C1, amended. For every document whose section names and keys do not
    repeat, whose sections are named like identifiers (the first may be the
    unnamed one when it has a key), whose keys either lex as identifiers or
    go out quoted without a NUL character, and whose values are booleans,
    strings without a NUL character, plain numbers, or Color and Vector2
    objects over constructor arguments: parsing the serialized text ends
    without error and returns the document itself, sections, keys and
    values in their order. *)
Theorem C1_round_trip (d : Doc) :
  round_trip_doc d ->
  parse_config_run (serialize_config d) = Some {| values := d; error := None |}
  /\ parse_config (serialize_config d) = {| values := d; error := None |}.
Proof.
  intros Hd.
  assert (Hrun : parse_config_run (serialize_config d)
                 = Some {| values := d; error := None |}).
  { unfold parse_config_run. rewrite new_Stream_at.
    destruct (serialize_config_items d) as (tail & Htail & ->).
    rewrite (parse_config_loop_items (doc_items true d) _ [] [] tail [] []);
      auto using doc_items_ok.
    - now rewrite apply_items_doc.
    - cbn [app]. lia. }
  split; [exact Hrun|]. unfold parse_config. now rewrite Hrun.
Qed.

(* ================================================================== *)
(** * Further properties of the code *)

(** ** The store: set, get and the order of keys *)

(** The section map after [doc_set]. *)
Lemma doc_set_get (s k : jstring) (v : value) (d : Doc) (s' : jstring) :
  map_get s' (doc_set s k v d)
  = if str_eqb s s'
    then Some (map_set k v
                 match map_get s d with Some keys => keys | None => [] end)
    else map_get s' d.
Proof.
  unfold doc_set, map_has.
  destruct (map_get s d) as [keys|] eqn:E.
  - rewrite E. destruct (str_eqb s s') eqn:Es.
    + apply str_eqb_eq in Es as <-. apply map_get_set_same.
    + apply str_eqb_neq in Es. now apply map_get_set_other.
  - rewrite map_get_set_same. destruct (str_eqb s s') eqn:Es.
    + apply str_eqb_eq in Es as <-. apply map_get_set_same.
    + apply str_eqb_neq in Es. now rewrite !map_get_set_other.
Qed.

Lemma doc_set_keys (s k : jstring) (v : value) (d : Doc) :
  map_keys (doc_set s k v d)
  = if map_has s d then map_keys d else map_keys d ++ [s].
Proof.
  unfold doc_set. destruct (map_has s d) eqn:E.
  - unfold map_has in E. destruct (map_get s d) eqn:E'; [|discriminate].
    rewrite map_keys_set. unfold map_has. now rewrite E'.
  - rewrite map_get_set_same, map_keys_set, map_has_set_same.
    rewrite map_keys_set. now rewrite E.
Qed.

(** X1. A value stored with [set_value] is what [get_value] returns for
    that section and key, whatever default is passed, and the section and
    the key exist afterwards.  Nothing else changes: every other section
    answers as before, and so does every other key of the section when the
    section was there already; [has_section_key] is unchanged for every
    other section or key. *)
Theorem set_value_then_get_value (cf : ConfigFile) (s k : jstring) (v : value) :
  (forall d, get_value (set_value cf s k v) s k d = inr v)
  /\ has_section (set_value cf s k v) s = true
  /\ has_section_key (set_value cf s k v) s k = true
  /\ (forall s' k' d, s' <> s ->
        get_value (set_value cf s k v) s' k' d = get_value cf s' k' d)
  /\ (forall k' d, k' <> k -> has_section cf s = true ->
        get_value (set_value cf s k v) s k' d = get_value cf s k' d)
  /\ (forall s' k', s' <> s \/ k' <> k ->
        has_section_key (set_value cf s k v) s' k' = has_section_key cf s' k').
Proof.
  unfold get_value, has_section, has_section_key, set_value, map_has.
  cbn [cf_values].
  repeat split.
  - intros d. rewrite doc_set_get, str_eqb_refl, map_get_set_same. reflexivity.
  - now rewrite doc_set_get, str_eqb_refl.
  - now rewrite doc_set_get, str_eqb_refl, map_get_set_same.
  - intros s' k' d Hs. rewrite doc_set_get.
    assert (E : str_eqb s s' = false) by (apply str_eqb_neq; congruence).
    now rewrite E.
  - intros k' d Hk Hs. rewrite doc_set_get, str_eqb_refl.
    destruct (map_get s (cf_values cf)) as [keys|]; [|discriminate].
    now rewrite map_get_set_other.
  - intros s' k' H. rewrite doc_set_get.
    destruct (str_eqb s s') eqn:E.
    + apply str_eqb_eq in E as <-. destruct H as [H|H]; [congruence|].
      rewrite map_get_set_other by congruence.
      now destruct (map_get s (cf_values cf)).
    + reflexivity.
Qed.

(** X2. What [get_value] does when the value is missing.  Without a
    default it throws, with one message when the section is missing and
    another when only the key is; with a default other than [undefined] it
    returns the default; and it throws or falls back to the default exactly
    when [has_section_key] is false. *)
Theorem get_value_missing (cf : ConfigFile) (s k : jstring) :
  (has_section cf s = false ->
   get_value cf s k VUndefined
   = inl (Err (lit "Section " ++ DQUOTE :: s ++ DQUOTE
                 :: lit " not found and no default value provided")))
  /\ (has_section cf s = true -> has_section_key cf s k = false ->
      get_value cf s k VUndefined
      = inl (Err (lit "Key " ++ DQUOTE :: k ++ DQUOTE
                    :: lit " not found in section " ++ DQUOTE :: s ++ DQUOTE
                    :: lit " and no default value provided")))
  /\ (forall d, d <> VUndefined -> has_section_key cf s k = false ->
                get_value cf s k d = inr d)
  /\ (has_section_key cf s k = true ->
      exists v, forall d, get_value cf s k d = inr v)
  /\ ((exists e, get_value cf s k VUndefined = inl e)
      <-> has_section_key cf s k = false).
Proof.
  unfold get_value, has_section, has_section_key, map_has.
  destruct (map_get s (cf_values cf)) as [keys|].
  - destruct (map_get k keys) as [v|].
    + repeat split; try discriminate.
      * now exists v.
      * intros [e H]. discriminate.
    + repeat split; try discriminate; auto.
      * intros d Hd _. now destruct d.
      * eauto.
  - repeat split; try discriminate; auto.
    + intros d Hd _. now destruct d.
    + eauto.
Qed.

(** X3. [set_value] keeps the order of insertion: a section that exists
    keeps its place in [get_sections] and a new one goes last; in the
    section, a key that exists keeps its place in [get_section_keys] and a
    new one goes last; the keys of the other sections are untouched. *)
Theorem set_value_order (cf : ConfigFile) (s k : jstring) (v : value) :
  get_sections (set_value cf s k v)
  = (if has_section cf s then get_sections cf else get_sections cf ++ [s])
  /\ get_section_keys (set_value cf s k v) s
     = (if has_section_key cf s k then get_section_keys cf s
        else get_section_keys cf s ++ [k])
  /\ (forall s', s' <> s ->
        get_section_keys (set_value cf s k v) s' = get_section_keys cf s').
Proof.
  unfold get_sections, get_section_keys, has_section, has_section_key,
    set_value. cbn [cf_values].
  split; [apply doc_set_keys|]. split.
  - rewrite doc_set_get, str_eqb_refl, map_keys_set.
    now destruct (map_get s (cf_values cf)).
  - intros s' Hs. rewrite doc_set_get.
    assert (E : str_eqb s s' = false) by (apply str_eqb_neq; congruence).
    now rewrite E.
Qed.


(** ** Operations on the list of presets *)

Lemma Qle_bool_inject (a b : Z) :
  QArith_base.Qle_bool (QArith_base.inject_Z a) (QArith_base.inject_Z b)
  = (a <=? b)%Z.
Proof.
  unfold QArith_base.Qle_bool, QArith_base.inject_Z. simpl.
  now rewrite !Z.mul_1_r.
Qed.

Lemma is_whole_inject (z : Z) : is_whole (QArith_base.inject_Z z) = true.
Proof.
  unfold is_whole. rewrite Qround.Qfloor_Z. apply QArith_base.Qeq_bool_refl.
Qed.

(** [getPreset] at a whole number. *)
Lemma getPreset_whole (presets : PresetArray) (z : Z) :
  getPreset presets (whole z)
  = if ((0 <=? z) && (z <? Z.of_nat (length (elements presets))))%Z
    then nth_error (elements presets) (Z.to_nat z)
    else None.
Proof.
  unfold getPreset, whole, index_negative, index_at_least, array_get.
  rewrite !Qle_bool_inject, is_whole_inject, Qround.Qfloor_Z.
  destruct (0 <=? z)%Z eqn:E0; simpl; [|reflexivity].
  rewrite Z.ltb_antisym. now destruct (Z.of_nat _ <=? z)%Z.
Qed.

Lemma list_set_length {A} (i : nat) (x : A) (l : list A) :
  length (list_set i x l) = length l.
Proof.
  revert i. induction l as [|y l IH]; intros [|i]; simpl; auto.
Qed.

Lemma list_set_nth_same {A} (i : nat) (x : A) (l : list A) :
  i < length l -> nth_error (list_set i x l) i = Some x.
Proof.
  revert i. induction l as [|y l IH]; intros [|i]; simpl; try lia; auto.
  intros H. apply IH. lia.
Qed.

Lemma list_set_nth_other {A} (i j : nat) (x : A) (l : list A) :
  i <> j -> nth_error (list_set i x l) j = nth_error l j.
Proof.
  revert i j. induction l as [|y l IH]; intros [|i] [|j] H; simpl; auto;
    congruence.
Qed.

Lemma setPreset_whole_in_range (presets : PresetArray) (preset : ExportPreset)
    (i : nat) :
  i < length (elements presets) ->
  setPreset presets preset (Some (whole (Z.of_nat i)))
  = array_of (list_set i preset (elements presets)).
Proof.
  intros H. unfold setPreset, whole, index_nonnegative, index_below, array_set.
  cbn [array_of elements others].
  rewrite !Qle_bool_inject, is_whole_inject, Qround.Qfloor_Z, Nat2Z.id.
  replace (0 <=? Z.of_nat i)%Z with true by (symmetry; apply Z.leb_le; lia).
  replace (Z.of_nat (length (elements presets)) <=? Z.of_nat i)%Z with false
    by (symmetry; apply Z.leb_gt; lia).
  reflexivity.
Qed.

(** X7. [setPreset] with a whole index inside the list replaces the preset
    at that index and nothing else: the list keeps its length, [getPreset]
    at the index returns the new preset, and at every other whole index it
    returns what it returned before. *)
Theorem setPreset_replaces (presets : PresetArray) (preset : ExportPreset)
    (i : nat) :
  i < length (elements presets) ->
  length (elements (setPreset presets preset (Some (whole (Z.of_nat i)))))
  = length (elements presets)
  /\ getPreset (setPreset presets preset (Some (whole (Z.of_nat i))))
       (whole (Z.of_nat i))
     = Some preset
  /\ (forall z : Z,
         z <> Z.of_nat i ->
         getPreset (setPreset presets preset (Some (whole (Z.of_nat i))))
           (whole z)
         = getPreset presets (whole z)).
Proof.
  intros H. rewrite setPreset_whole_in_range by assumption.
  cbn [array_of elements]. split; [apply list_set_length|]. split.
  - rewrite getPreset_whole. cbn [array_of elements].
    rewrite list_set_length, Nat2Z.id.
    replace ((0 <=? Z.of_nat i) && (Z.of_nat i <? Z.of_nat (length (elements presets))))%Z
      with true by (symmetry; apply andb_true_iff; split;
                    [apply Z.leb_le | apply Z.ltb_lt]; lia).
    now apply list_set_nth_same.
  - intros z Hz. rewrite !getPreset_whole. cbn [array_of elements].
    rewrite list_set_length.
    destruct ((0 <=? z) && _)%Z eqn:E; [|reflexivity].
    apply andb_true_iff in E as [E1 E2]. apply Z.leb_le in E1.
    apply list_set_nth_other. lia.
Qed.

Lemma setPreset_appending (presets : PresetArray) (preset : ExportPreset)
    (index : option jsindex) :
  appending_index presets index ->
  setPreset presets preset index = array_of (elements presets ++ [preset]).
Proof.
  unfold setPreset. cbn [array_of elements].
  intros [-> | [-> | [[b ->] | (q & -> & Hq)]]]; try reflexivity.
  - now destruct b.
  - unfold index_nonnegative, index_below.
    destruct (QArith_base.Qle_bool (QArith_base.inject_Z 0) q) eqn:E0;
      [|reflexivity].
    destruct Hq as [Hq | Hq].
    + apply QArith_base.Qle_bool_iff in E0. exfalso.
      exact (QArith_base.Qlt_not_le _ _ Hq E0).
    + apply QArith_base.Qle_bool_iff in Hq. rewrite Hq. reflexivity.
Qed.

(** X8. [setPreset] without an index, or with an index that is [NaN], an
    infinity, negative, or at or past the end of the list, whole or not,
    adds the preset at the end: the new list is the old one followed by
    the preset, [getPreset] at the old length returns it, and at every
    other whole index it returns what it returned before. *)
Theorem setPreset_appends (presets : PresetArray) (preset : ExportPreset)
    (index : option jsindex) :
  appending_index presets index ->
  elements (setPreset presets preset index) = elements presets ++ [preset]
  /\ getPreset (setPreset presets preset index)
       (whole (Z.of_nat (length (elements presets))))
     = Some preset
  /\ (forall z : Z,
         z <> Z.of_nat (length (elements presets)) ->
         getPreset (setPreset presets preset index) (whole z)
         = getPreset presets (whole z)).
Proof.
  intros H. rewrite setPreset_appending by assumption.
  cbn [array_of elements]. split; [reflexivity|]. split.
  - rewrite getPreset_whole. cbn [array_of elements].
    rewrite length_app, Nat2Z.id. cbn [length].
    replace ((0 <=? Z.of_nat (length (elements presets)))
             && (Z.of_nat (length (elements presets))
                 <? Z.of_nat (length (elements presets) + 1)))%Z
      with true by (symmetry; apply andb_true_iff; split;
                    [apply Z.leb_le | apply Z.ltb_lt]; lia).
    rewrite nth_error_app2 by lia. now rewrite Nat.sub_diag.
  - intros z Hz. rewrite !getPreset_whole. cbn [array_of elements].
    rewrite length_app. cbn [length].
    destruct (0 <=? z)%Z eqn:E0; [|reflexivity]. apply Z.leb_le in E0.
    cbn [andb].
    destruct (z <? Z.of_nat (length (elements presets)))%Z eqn:E1.
    + apply Z.ltb_lt in E1.
      replace (z <? Z.of_nat (length (elements presets) + 1))%Z with true
        by (symmetry; apply Z.ltb_lt; lia).
      apply nth_error_app1. lia.
    + apply Z.ltb_ge in E1.
      replace (z <? Z.of_nat (length (elements presets) + 1))%Z with false
        by (symmetry; apply Z.ltb_ge; lia).
      reflexivity.
Qed.

Lemma others_get_set_same (q : QArith_base.Q) (p : ExportPreset)
    (l : list (QArith_base.Q * ExportPreset)) :
  others_get q (others_set q p l) = Some p.
Proof.
  induction l as [|[q' p'] l IH]; simpl.
  - now rewrite QArith_base.Qeq_bool_refl.
  - destruct (QArith_base.Qeq_bool q' q) eqn:E; simpl; now rewrite E.
Qed.

(** X9. [setPreset] with an index inside the list that is not a whole
    number neither replaces nor adds an element: the list of presets is the
    old one, and the preset is only found again by [getPreset] with that
    same number. *)
Theorem setPreset_fraction (presets : PresetArray) (preset : ExportPreset)
    (q : QArith_base.Q) :
  is_whole q = false ->
  index_nonnegative (IFin q) = true ->
  index_below (IFin q) (length (elements presets)) = true ->
  elements (setPreset presets preset (Some (IFin q))) = elements presets
  /\ getPreset (setPreset presets preset (Some (IFin q))) (IFin q)
     = Some preset.
Proof.
  intros Hw H0 Hn. unfold setPreset. cbn [array_of elements].
  rewrite H0, Hn. cbn [andb]. unfold array_set. rewrite Hw.
  cbn [elements others]. split; [reflexivity|].
  unfold getPreset. cbn [array_of elements others].
  unfold index_nonnegative in H0. unfold index_below in Hn.
  unfold index_negative, index_at_least. rewrite H0.
  apply negb_true_iff in Hn. rewrite Hn. cbn [negb orb].
  unfold array_get. rewrite Hw. cbn [others others_set others_get].
  now rewrite QArith_base.Qeq_bool_refl.
Qed.

Lemma removePreset_whole_in_range (presets : PresetArray) (i : nat) :
  i < length (elements presets) ->
  removePreset presets (whole (Z.of_nat i))
  = array_of (firstn i (elements presets) ++ skipn (S i) (elements presets)).
Proof.
  intros H. unfold removePreset, whole, index_negative, index_at_least,
    splice_start.
  cbn [array_of elements].
  rewrite !Qle_bool_inject, Qround.Qfloor_Z, Nat2Z.id.
  replace (0 <=? Z.of_nat i)%Z with true by (symmetry; apply Z.leb_le; lia).
  replace (Z.of_nat (length (elements presets)) <=? Z.of_nat i)%Z with false
    by (symmetry; apply Z.leb_gt; lia).
  reflexivity.
Qed.

Lemma nth_error_remove {A} (i j : nat) (l : list A) :
  nth_error (firstn i l ++ skipn (S i) l) j
  = if j <? i then nth_error l j else nth_error l (S j).
Proof.
  revert i j. induction l as [|x l IH]; intros i j.
  - rewrite firstn_nil, skipn_nil. simpl.
    destruct (j <? i); now destruct j.
  - destruct i as [|i].
    + simpl. reflexivity.
    + destruct j as [|j]; [reflexivity|].
      cbn [firstn skipn app nth_error]. rewrite IH.
      change (S j <? S i) with (j <? i). reflexivity.
Qed.

(** X10. [removePreset] with a whole index inside the list removes the
    preset at that index and nothing else: the list is one shorter, the
    presets before the index stay where they are and those after it move
    down by one. *)
Theorem removePreset_removes (presets : PresetArray) (i : nat) :
  i < length (elements presets) ->
  elements (removePreset presets (whole (Z.of_nat i)))
  = firstn i (elements presets) ++ skipn (S i) (elements presets)
  /\ S (length (elements (removePreset presets (whole (Z.of_nat i)))))
     = length (elements presets)
  /\ (forall j : nat,
         getPreset (removePreset presets (whole (Z.of_nat i)))
           (whole (Z.of_nat j))
         = if j <? i then getPreset presets (whole (Z.of_nat j))
           else getPreset presets (whole (Z.of_nat (S j)))).
Proof.
  intros H. rewrite removePreset_whole_in_range by assumption.
  cbn [array_of elements].
  assert (Hlen : S (length (firstn i (elements presets)
                            ++ skipn (S i) (elements presets)))
                 = length (elements presets)).
  { rewrite length_app, length_firstn, length_skipn. lia. }
  split; [reflexivity|]. split; [exact Hlen|].
  intros j. rewrite !getPreset_whole. cbn [array_of elements].
  rewrite !Nat2Z.id, nth_error_remove.
  replace (0 <=? Z.of_nat j)%Z with true by (symmetry; apply Z.leb_le; lia).
  replace (0 <=? Z.of_nat (S j))%Z with true by (symmetry; apply Z.leb_le; lia).
  cbn [andb].
  destruct (j <? i) eqn:Eji.
  - apply Nat.ltb_lt in Eji.
    replace (Z.of_nat j <? Z.of_nat (length (firstn i (elements presets)
                            ++ skipn (S i) (elements presets))))%Z
      with true by (symmetry; apply Z.ltb_lt; lia).
    replace (Z.of_nat j <? Z.of_nat (length (elements presets)))%Z
      with true by (symmetry; apply Z.ltb_lt; lia).
    reflexivity.
  - apply Nat.ltb_ge in Eji.
    destruct (Z.of_nat (S j) <? Z.of_nat (length (elements presets)))%Z eqn:E.
    + apply Z.ltb_lt in E.
      replace (Z.of_nat j <? Z.of_nat (length (firstn i (elements presets)
                            ++ skipn (S i) (elements presets))))%Z
        with true by (symmetry; apply Z.ltb_lt; lia).
      reflexivity.
    + apply Z.ltb_ge in E.
      replace (Z.of_nat j <? Z.of_nat (length (firstn i (elements presets)
                            ++ skipn (S i) (elements presets))))%Z
        with false by (symmetry; apply Z.ltb_ge; lia).
      reflexivity.
Qed.

(** X11. [removePreset] at its edges.  A whole index that is negative or at
    or past the end, or an infinity, returns the file as it is.  [NaN]
    passes both range tests and removes the first preset.  A number inside
    the list that is not whole removes the preset at its whole part. *)
Theorem removePreset_edges (presets : PresetArray) :
  (forall z : Z,
      (z < 0 \/ Z.of_nat (length (elements presets)) <= z)%Z ->
      removePreset presets (whole z) = presets)
  /\ (forall b, removePreset presets (IInf b) = presets)
  /\ elements (removePreset presets INaN) = skipn 1 (elements presets)
  /\ (forall q,
         index_nonnegative (IFin q) = true ->
         index_below (IFin q) (length (elements presets)) = true ->
         elements (removePreset presets (IFin q))
         = elements (removePreset presets (whole (Qround.Qfloor q)))).
Proof.
  split; [|split; [|split]].
  - intros z Hz. unfold removePreset, whole, index_negative, index_at_least.
    rewrite !Qle_bool_inject.
    destruct (0 <=? z)%Z eqn:E0; [|reflexivity]. apply Z.leb_le in E0.
    replace (Z.of_nat (length (elements presets)) <=? z)%Z with true
      by (symmetry; apply Z.leb_le; lia).
    reflexivity.
  - intros b. unfold removePreset, index_negative, index_at_least.
    now destruct b.
  - reflexivity.
  - intros q H0 Hn. unfold removePreset, whole.
    unfold index_nonnegative in H0. unfold index_below in Hn.
    apply negb_true_iff in Hn.
    unfold index_negative, index_at_least, splice_start.
    rewrite H0, Hn, !Qle_bool_inject, Qround.Qfloor_Z. cbn [negb orb].
    assert (Hq0 : (0 <= Qround.Qfloor q)%Z).
    { apply QArith_base.Qle_bool_iff in H0.
      change 0%Z with (Qround.Qfloor (QArith_base.inject_Z 0)).
      now apply Qround.Qfloor_resp_le. }
    assert (Hqn : (Qround.Qfloor q < Z.of_nat (length (elements presets)))%Z).
    { destruct (Z.lt_ge_cases (Qround.Qfloor q)
                  (Z.of_nat (length (elements presets)))) as [Hl|Hg]; auto.
      exfalso. assert (Hle : QArith_base.Qle
                 (QArith_base.inject_Z (Z.of_nat (length (elements presets)))) q).
      { eapply QArith_base.Qle_trans; [|apply Qround.Qfloor_le].
        rewrite <- QArith_base.Zle_Qle. exact Hg. }
      apply QArith_base.Qle_bool_iff in Hle. congruence. }
    replace (0 <=? Qround.Qfloor q)%Z with true
      by (symmetry; apply Z.leb_le; lia).
    replace (Z.of_nat (length (elements presets)) <=? Qround.Qfloor q)%Z
      with false by (symmetry; apply Z.leb_gt; lia).
    reflexivity.
Qed.

(** X12. Adding a preset with [setPreset] and removing the last preset with
    [removePreset] gives back the list of presets there was. *)
Theorem removePreset_after_setPreset (presets : PresetArray)
    (preset : ExportPreset) :
  elements
    (removePreset (setPreset presets preset None)
       (whole (Z.of_nat (length (elements presets)))))
  = elements presets.
Proof.
  rewrite setPreset_appending by now left.
  rewrite removePreset_whole_in_range
    by (cbn [array_of elements]; rewrite length_app; cbn [length]; lia).
  cbn [array_of elements].
  rewrite firstn_app, Nat.sub_diag, firstn_all. cbn [firstn].
  rewrite app_nil_r.
  rewrite skipn_all2 by (rewrite length_app; cbn [length]; lia).
  apply app_nil_r.
Qed.


Section FindTheory.
Variable toUpperCase : jstring -> jstring.

Lemma findPreset_loop_split (criteria : FindPresetCriteria)
    (l : list ExportPreset) :
  match findPreset_loop toUpperCase criteria l with
  | Some preset =>
      exists before after,
        l = before ++ preset :: after
        /\ preset_matches toUpperCase criteria preset = true
        /\ forallb (fun p => negb (preset_matches toUpperCase criteria p)) before
           = true
  | None =>
      forallb (fun p => negb (preset_matches toUpperCase criteria p)) l = true
  end.
Proof.
  induction l as [|p l IH]; cbn [findPreset_loop]; [reflexivity|].
  destruct (criterion_matches toUpperCase (criteria_platform criteria) p
              (lit "platform")) eqn:E1.
  - exists [], l. repeat split. unfold preset_matches. now rewrite E1.
  - destruct (criterion_matches toUpperCase (criteria_name criteria) p
                (lit "name")) eqn:E2.
    + exists [], l. repeat split. unfold preset_matches. now rewrite E1, E2.
    + assert (Hp : negb (preset_matches toUpperCase criteria p) = true)
        by (unfold preset_matches; now rewrite E1, E2).
      destruct (findPreset_loop toUpperCase criteria l) as [found|].
      * destruct IH as (before & after & -> & Hm & Hb).
        exists (p :: before), after. repeat split; auto.
        cbn [forallb]. now rewrite Hp.
      * cbn [forallb]. now rewrite Hp.
Qed.

(** X13. [findPreset] with an index is [getPreset] at that index, whatever
    name or platform is given beside it.  Without an index it returns the
    first preset of the list whose platform agrees with the platform asked
    for or whose name agrees with the name asked for, and nothing when no
    preset does. *)
Theorem findPreset_first_match (presets : PresetArray)
    (criteria : FindPresetCriteria) :
  (forall index,
      criteria_index criteria = Some index ->
      findPreset toUpperCase presets criteria = getPreset presets index)
  /\ (criteria_index criteria = None ->
      match findPreset toUpperCase presets criteria with
      | Some preset =>
          exists before after,
            elements presets = before ++ preset :: after
            /\ preset_matches toUpperCase criteria preset = true
            /\ forallb
                 (fun p => negb (preset_matches toUpperCase criteria p)) before
               = true
      | None =>
          forallb (fun p => negb (preset_matches toUpperCase criteria p))
            (elements presets)
          = true
      end).
Proof.
  unfold findPreset. split.
  - intros index ->. reflexivity.
  - intros ->. apply findPreset_loop_split.
Qed.

Lemma trim_start_blank (s : jstring) :
  forallb is_js_space s = true -> trim_start s = [].
Proof.
  induction s as [|c s IH]; simpl; [reflexivity|].
  intros H. apply andb_true_iff in H as [Hc Hs]. rewrite Hc. now apply IH.
Qed.

Lemma trim_blank (s : jstring) : forallb is_js_space s = true -> trim s = [].
Proof.
  intros H. unfold trim. rewrite (trim_start_blank s) by assumption.
  reflexivity.
Qed.

Lemma findPreset_loop_none (criteria : FindPresetCriteria)
    (l : list ExportPreset) :
  (forall p, preset_matches toUpperCase criteria p = false) ->
  findPreset_loop toUpperCase criteria l = None.
Proof.
  intros H. induction l as [|p l IH]; cbn [findPreset_loop]; [reflexivity|].
  specialize (H p). unfold preset_matches in H.
  apply orb_false_iff in H as [-> ->]. exact IH.
Qed.

(** X14. The criteria at their edges.  A name or platform that is missing
    or the empty string is not a criterion: with neither, and no index,
    [findPreset] finds nothing.  A criterion made of white space only is
    one, and agrees with every preset whose field is missing, falsy or
    blank. *)
Theorem findPreset_blank_criteria :
  (forall presets criteria,
      criteria_index criteria = None ->
      criteria_name criteria = None \/ criteria_name criteria = Some [] ->
      criteria_platform criteria = None
      \/ criteria_platform criteria = Some [] ->
      findPreset toUpperCase presets criteria = None)
  /\ (forall (c : jstring) (preset : ExportPreset) (key : jstring),
         c <> [] -> forallb is_js_space c = true ->
         forallb is_js_space (field_text preset key) = true ->
         criterion_matches toUpperCase (Some c) preset key = true).
Proof.
  split.
  - intros presets criteria Hi Hn Hp. unfold findPreset. rewrite Hi.
    apply findPreset_loop_none. intros p. unfold preset_matches.
    destruct Hn as [-> | ->], Hp as [-> | ->]; reflexivity.
  - intros c preset key Hc Hblank Hfield. unfold criterion_matches.
    rewrite !trim_blank by assumption. rewrite str_eqb_refl.
    destruct c; [congruence | reflexivity].
Qed.

End FindTheory.

(** ** The lexer between tokens: white space and comments *)

(** The dispatch only calls [get_token] again on a text no longer than the
    one it has. *)
Lemma token_switch_again_ext (again1 again2 : Stream -> outcome (Token * Stream))
    (ln : nat) (c : char) (pre r : jstring) :
  (forall pre' l', length l' <= length r ->
                   again1 (at_ pre' l') = again2 (at_ pre' l')) ->
  token_switch again1 ln c (at_ pre r) = token_switch again2 ln c (at_ pre r).
Proof.
  intros H. unfold token_switch.
  destruct (N.eqb c NUL); [reflexivity|].
  destruct (N.eqb c LBRACKET); [reflexivity|].
  destruct (N.eqb c RBRACKET); [reflexivity|].
  destruct (N.eqb c LPAREN); [reflexivity|].
  destruct (N.eqb c RPAREN); [reflexivity|].
  destruct (N.eqb c EQUALS); [reflexivity|].
  destruct (N.eqb c COMMA_CHAR); [reflexivity|].
  destruct (N.eqb c SEMI).
  { rewrite skip_comment_at. apply H, comment_rest_length. }
  destruct (N.eqb c HASH_CHAR).
  { rewrite skip_comment_at. apply H, comment_rest_length. }
  reflexivity.
Qed.

(** Any fuel above the length of the text gives the same token. *)
Lemma get_token_fuel_enough (n : nat) :
  forall (f1 f2 : nat) (pre l : jstring),
    length l < n -> length l < f1 -> length l < f2 ->
    get_token_fuel f1 (at_ pre l) = get_token_fuel f2 (at_ pre l).
Proof.
  induction n as [|n IH]; intros f1 f2 pre l Hn H1 H2; [lia|].
  destruct f1 as [|f1]; [lia|]. destruct f2 as [|f2]; [lia|].
  rewrite !get_token_fuel_at. cbv zeta.
  pose proof (drop_while_length is_whitespace l) as Hd.
  destruct (drop_while is_whitespace l) as [|c r]; [reflexivity|].
  cbn [length] in Hd.
  apply token_switch_again_ext. intros pre' l' Hl'.
  apply IH; lia.
Qed.

Lemma get_token_fuel_is_get_token (f : nat) (pre l : jstring) :
  length l < f -> get_token_fuel f (at_ pre l) = get_token (at_ pre l).
Proof.
  intros H. rewrite get_token_at.
  apply (get_token_fuel_enough (S (length l))); lia.
Qed.

(** White space before a token is skipped. *)
Lemma get_token_ws (pre ws l : jstring) :
  forallb is_whitespace ws = true ->
  get_token (at_ pre (ws ++ l)) = get_token (at_ (pre ++ ws) l).
Proof.
  intros Hws. rewrite (get_token_at pre), get_token_fuel_ws by assumption.
  apply get_token_fuel_is_get_token. rewrite length_app. lia.
Qed.

Lemma comment_text_body (text rest : jstring) (stop : char) :
  comment_body text = true -> N.eqb stop LF || N.eqb stop NUL = true ->
  comment_text (text ++ stop :: rest) = text ++ [stop]
  /\ comment_rest (text ++ stop :: rest) = rest.
Proof.
  intros Ht Hs. induction text as [|c text IH]; simpl.
  - now rewrite Hs.
  - simpl in Ht. apply andb_true_iff in Ht as [Hc Ht].
    apply negb_true_iff in Hc. rewrite Hc.
    destruct (IH Ht) as [-> ->]. auto.
Qed.

Lemma comment_text_open (text : jstring) :
  comment_body text = true ->
  comment_text text = text /\ comment_rest text = [].
Proof.
  intros Ht. induction text as [|c text IH]; simpl; [auto|].
  simpl in Ht. apply andb_true_iff in Ht as [Hc Ht].
  apply negb_true_iff in Hc. rewrite Hc.
  destruct (IH Ht) as [-> ->]. auto.
Qed.

Lemma count_lf_body (text : jstring) :
  comment_body text = true -> count_lf text = 0.
Proof.
  induction text as [|c text IH]; simpl; [reflexivity|].
  intros H. apply andb_true_iff in H as [Hc Ht].
  apply negb_true_iff, orb_false_iff in Hc as [-> _]. now apply IH.
Qed.

(** The token after a comment starter. *)
Lemma get_token_comment (pre ws : jstring) (c : char) (l : jstring) :
  forallb is_whitespace ws = true -> c = SEMI \/ c = HASH_CHAR ->
  get_token (at_ pre (ws ++ c :: l))
  = get_token (at_ (pre ++ ws ++ c :: comment_text l) (comment_rest l)).
Proof.
  intros Hws Hc.
  rewrite get_token_start by (auto; destruct Hc as [-> | ->]; reflexivity).
  assert (E : token_switch (get_token_fuel (S (length (ws ++ c :: l))))
                (line_after pre ws) c (at_ (pre ++ ws ++ [c]) l)
              = get_token_fuel (S (length (ws ++ c :: l)))
                  (skip_comment (at_ (pre ++ ws ++ [c]) l))).
  { destruct Hc as [-> | ->]; reflexivity. }
  rewrite E, skip_comment_at.
  rewrite get_token_fuel_is_get_token.
  - f_equal. f_equal. rewrite <- !app_assoc. reflexivity.
  - pose proof (comment_rest_length l). rewrite length_app. cbn [length]. lia.
Qed.

Lemma skip_whitespace_ws (pre ws : jstring) (c : char) (rest : jstring) :
  forallb is_whitespace ws = true -> is_whitespace c = false ->
  skip_whitespace (at_ pre (ws ++ c :: rest)) = at_ (pre ++ ws) (c :: rest).
Proof. intros Hws Hc. now apply skip_whitespace_text. Qed.

Lemma skip_whitespace_get_token {A} (k : Token -> M A) (pre l : jstring) :
  bind get_token k (skip_whitespace (at_ pre l)) = bind get_token k (at_ pre l).
Proof.
  rewrite skip_whitespace_at. unfold bind.
  rewrite <- (get_token_ws pre (take_while is_whitespace l)).
  - now rewrite take_drop_while.
  - clear. induction l as [|c l IH]; simpl; [reflexivity|].
    destruct (is_whitespace c) eqn:E; simpl; [now rewrite E|reflexivity].
Qed.

(** A turn of the loop, from the token it starts with. *)
Lemma parse_config_step_token (cur : jstring) (vals : Doc) (pre l : jstring) :
  parse_config_step cur vals (at_ pre l)
  = bind get_token
      (fun token =>
         match tk_type token with
         | EOF => ret None
         | BRACKET_OPEN =>
             sectionToken <- get_token ;;
             match tk_type sectionToken with
             | IDENTIFIER | STRING =>
                 let sectionName :=
                   String_of_token_value (tk_value sectionToken) in
                 closeToken <- get_token ;;
                 match tk_type closeToken with
                 | BRACKET_CLOSE =>
                     let sectionName := unescape_brackets sectionName in
                     ret (Some (sectionName,
                                if map_has sectionName vals then vals
                                else map_set sectionName [] vals))
                 | _ => throw (lit "Expected ']' after section name")
                          (tk_line closeToken)
                 end
             | _ => throw (lit "Expected section name") (tk_line sectionToken)
             end
         | IDENTIFIER | STRING =>
             let key := String_of_token_value (tk_value token) in
             equalToken <- get_token ;;
             match tk_type equalToken with
             | EQUAL =>
                 v <- parse_value ;;
                 ret (Some (cur, doc_set cur key v vals))
             | _ => throw (lit "Expected '=' after key") (tk_line equalToken)
             end
         | BRACKET_CLOSE => throw (lit "Unexpected ']'") (tk_line token)
         | _ => ret (Some (cur, vals))
         end) (at_ pre l).
Proof. unfold parse_config_step. apply skip_whitespace_get_token. Qed.

(** X15. A semicolon or a hash sign where a token may start opens a
    comment that runs through the end of its line: the token returned is
    the one that follows the line, and when the input ends inside the
    comment it is the end-of-input token, on the comment's line.  So a turn
    of the top-level loop that starts at a comment line is the turn that
    starts after it. *)
Theorem comment_skipped (pre ws : jstring) (c : char) (text rest : jstring) :
  forallb is_whitespace ws = true -> c = SEMI \/ c = HASH_CHAR ->
  comment_body text = true ->
  get_token (at_ pre (ws ++ c :: text ++ LF :: rest))
  = get_token (at_ (pre ++ ws ++ c :: text ++ [LF]) rest)
  /\ get_token (at_ pre (ws ++ c :: text))
     = Ok (mkToken EOF (TStr []) (line_after pre ws),
           at_ (pre ++ ws ++ c :: text) [])
  /\ (forall cur vals,
         parse_config_step cur vals (at_ pre (ws ++ c :: text ++ LF :: rest))
         = parse_config_step cur vals
             (at_ (pre ++ ws ++ c :: text ++ [LF]) rest)).
Proof.
  intros Hws Hc Ht.
  assert (Hline : get_token (at_ pre (ws ++ c :: text ++ LF :: rest))
                  = get_token (at_ (pre ++ ws ++ c :: text ++ [LF]) rest)).
  { rewrite get_token_comment by assumption.
    destruct (comment_text_body text rest LF Ht eq_refl) as [-> ->].
    reflexivity. }
  split; [exact Hline|]. split.
  - rewrite get_token_comment by assumption.
    destruct (comment_text_open text Ht) as [-> ->].
    rewrite (get_token_eof _ []) by reflexivity.
    unfold line_after. rewrite !app_nil_r. do 3 f_equal.
    rewrite !count_lf_app. cbn [count_lf].
    rewrite (count_lf_body text Ht).
    destruct Hc as [-> | ->]; simpl; lia.
  - intros cur vals. rewrite !parse_config_step_token.
    unfold bind. now rewrite Hline.
Qed.

(** ** Statements the top-level loop skips or refuses *)

(** X16. A token that cannot start a statement is skipped without an
    error: after a parenthesis, an equals sign, a comma, a number or a
    boolean word where a statement should start, the turn of the loop ends
    with the current section and the map unchanged and the text read up to
    the end of that token. *)
Theorem stray_tokens_skipped (cur : jstring) (vals : Doc)
    (pre ws rest : jstring) :
  forallb is_whitespace ws = true ->
  (forall c, c = LPAREN \/ c = RPAREN \/ c = EQUALS \/ c = COMMA_CHAR ->
     parse_config_step cur vals (at_ pre (ws ++ c :: rest))
     = Ok (Some (cur, vals), at_ (pre ++ ws ++ [c]) rest))
  /\ (forall t, number_text t = true -> stops number_char rest ->
        isNaN (parseFloat t) = false ->
        parse_config_step cur vals (at_ pre (ws ++ t ++ rest))
        = Ok (Some (cur, vals), at_ (pre ++ ws ++ t) rest))
  /\ (forall b : bool, stops is_identifier_char rest ->
        parse_config_step cur vals
          (at_ pre (ws ++ (if b then lit "true" else lit "false") ++ rest))
        = Ok (Some (cur, vals),
              at_ (pre ++ ws ++ (if b then lit "true" else lit "false")) rest)).
Proof.
  intros Hws. split; [|split].
  - intros c Hc. rewrite parse_config_step_token.
    destruct Hc as [-> | [-> | [-> | ->]]].
    + erewrite bind_Ok
        by (apply (get_token_punct pre ws LPAREN PARENTHESIS_OPEN); auto).
      reflexivity.
    + erewrite bind_Ok
        by (apply (get_token_punct pre ws RPAREN PARENTHESIS_CLOSE); auto).
      reflexivity.
    + erewrite bind_Ok
        by (apply (get_token_punct pre ws EQUALS EQUAL); auto).
      reflexivity.
    + erewrite bind_Ok
        by (apply (get_token_punct pre ws COMMA_CHAR COMMA); auto).
      reflexivity.
  - intros t Ht Hrest Hnan. rewrite parse_config_step_token.
    erewrite bind_Ok by (apply get_token_number; assumption).
    reflexivity.
  - intros b Hrest. rewrite parse_config_step_token.
    erewrite bind_Ok by (apply get_token_boolean; assumption).
    reflexivity.
Qed.

(** X17. The statements the loop refuses, each with the line of the token
    that is at fault.  A closing bracket where a statement should start is
    [Unexpected ']'].  After a key, a token that is not an equals sign is
    [Expected '=' after key].  After an opening bracket, a token that is
    neither an identifier nor a string is [Expected section name], and
    after the section name a token that is not a closing bracket is
    [Expected ']' after section name]. *)
Theorem statement_errors (cur : jstring) (vals : Doc) (pre ws : jstring) :
  forallb is_whitespace ws = true ->
  (forall rest,
      parse_config_step cur vals (at_ pre (ws ++ RBRACKET :: rest))
      = Throw {| pe_message := lit "Unexpected ']'";
                 pe_line := line_after pre ws |})
  /\ (forall key tail tok s',
         name_like key = true -> stops is_identifier_char tail ->
         get_token (at_ (pre ++ ws ++ key) tail) = Ok (tok, s') ->
         tk_type tok <> EQUAL ->
         parse_config_step cur vals (at_ pre (ws ++ key ++ tail))
         = Throw {| pe_message := lit "Expected '=' after key";
                    pe_line := tk_line tok |})
  /\ (forall tail tok s',
         get_token (at_ (pre ++ ws ++ [LBRACKET]) tail) = Ok (tok, s') ->
         tk_type tok <> IDENTIFIER -> tk_type tok <> STRING ->
         parse_config_step cur vals (at_ pre (ws ++ LBRACKET :: tail))
         = Throw {| pe_message := lit "Expected section name";
                    pe_line := tk_line tok |})
  /\ (forall name tail tok s',
         name_like name = true -> stops is_identifier_char tail ->
         get_token (at_ (pre ++ ws ++ LBRACKET :: name) tail) = Ok (tok, s') ->
         tk_type tok <> BRACKET_CLOSE ->
         parse_config_step cur vals (at_ pre (ws ++ LBRACKET :: name ++ tail))
         = Throw {| pe_message := lit "Expected ']' after section name";
                    pe_line := tk_line tok |}).
Proof.
  intros Hws. split; [|split; [|split]].
  - intros rest. rewrite parse_config_step_token.
    erewrite bind_Ok
      by (apply (get_token_punct pre ws RBRACKET BRACKET_CLOSE); auto).
    reflexivity.
  - intros key tail tok s' Hkey Htail Htok Htype.
    destruct (name_like_ident key Hkey) as (Hid & Ht & Hf).
    rewrite parse_config_step_token.
    erewrite bind_Ok by (apply get_token_name; assumption).
    cbn [tk_type mkToken]. cbv zeta.
    erewrite bind_Ok by exact Htok.
    destruct (tk_type tok); try reflexivity. congruence.
  - intros tail tok s' Htok Hi Hs. rewrite parse_config_step_token.
    erewrite bind_Ok
      by (apply (get_token_punct pre ws LBRACKET BRACKET_OPEN); auto).
    cbn [tk_type mkToken].
    erewrite bind_Ok by exact Htok.
    destruct (tk_type tok); try reflexivity; congruence.
  - intros name tail tok s' Hname Htail Htok Htype.
    destruct (name_like_ident name Hname) as (Hid & Ht & Hf).
    rewrite parse_config_step_token.
    erewrite bind_Ok
      by (apply (get_token_punct pre ws LBRACKET BRACKET_OPEN); auto).
    cbn [tk_type mkToken].
    erewrite bind_Ok.
    2:{ apply (get_token_name (pre ++ ws ++ [LBRACKET]) [] name tail);
        auto. }
    cbn [tk_type mkToken app]. cbv zeta.
    replace ((pre ++ ws ++ [LBRACKET]) ++ name)
      with (pre ++ ws ++ LBRACKET :: name)
      by (rewrite <- !app_assoc; reflexivity).
    erewrite bind_Ok by exact Htok.
    destruct (tk_type tok); try reflexivity. congruence.
Qed.


(** ** Constructors with any number of arguments *)

Lemma parse_construct_args_any (ns : list number) (pre rest : jstring) :
  Forall constructor_argument ns ->
  parse_construct_args (at_ pre (LPAREN :: arguments_text ns ++ RPAREN :: rest))
  = Ok (ns, at_ (pre ++ LPAREN :: arguments_text ns ++ [RPAREN]) rest).
Proof.
  intros Hns. destruct ns as [|n ns].
  - unfold parse_construct_args. cbn [arguments_text app].
    erewrite bind_Ok.
    2:{ apply (get_token_punct pre [] LPAREN PARENTHESIS_OPEN); reflexivity. }
    cbn [tk_type mkToken TokenType_eqb negb app]. rewrite loop_fuel_at.
    replace (length (RPAREN :: rest) + 2) with (S (S (S (length rest))))
      by (cbn [length]; lia).
    cbn [parse_construct_args_loop].
    unfold bind at 1. unfold ret at 1.
    erewrite bind_Ok.
    2:{ apply (get_token_punct (pre ++ [LPAREN]) [] RPAREN PARENTHESIS_CLOSE);
        reflexivity. }
    cbn [tk_type mkToken TokenType_eqb andb app]. unfold ret.
    do 2 f_equal. now rewrite <- !app_assoc.
  - cbn [arguments_text]. rewrite <- !app_assoc.
    now apply parse_construct_args_text.
Qed.

(** X18. The number of arguments of a constructor.  For every list of
    arguments the writer can print, [Color] with that list parses to the
    object [{r, g, b, a}] when there are four of them and fails with
    [Expected 4 arguments for Color constructor] otherwise, the empty list
    included; [Vector2] likewise with two.  The error carries the line of
    the constructor's name. *)
Theorem constructor_arity (ns : list number) (pre rest : jstring) :
  Forall constructor_argument ns ->
  parse_value
    (at_ pre (lit "Color" ++ LPAREN :: arguments_text ns ++ RPAREN :: rest))
  = match ns with
    | [r; g; b; a] =>
        Ok (Color r g b a,
            at_ (pre ++ lit "Color" ++ LPAREN :: arguments_text ns ++ [RPAREN])
              rest)
    | _ => Throw {| pe_message :=
                      lit "Expected 4 arguments for Color constructor";
                    pe_line := S (count_lf pre) |}
    end
  /\ parse_value
       (at_ pre (lit "Vector2" ++ LPAREN :: arguments_text ns ++ RPAREN :: rest))
     = match ns with
       | [x; y] =>
           Ok (Vector2 x y,
               at_ (pre ++ lit "Vector2" ++ LPAREN :: arguments_text ns
                      ++ [RPAREN])
                 rest)
       | _ => Throw {| pe_message :=
                         lit "Expected 2 arguments for Vector2 constructor";
                       pe_line := S (count_lf pre) |}
       end.
Proof.
  intros Hns. split.
  - unfold parse_value.
    erewrite bind_Ok.
    2:{ apply (get_token_name pre [] (lit "Color")); reflexivity. }
    cbv zeta. cbn [tk_type mkToken tk_value as_string tk_line].
    replace (str_eqb (lit "Color") (lit "Color")) with true by reflexivity.
    erewrite bind_Ok by (apply parse_construct_args_any; assumption).
    unfold line_after. rewrite app_nil_r.
    destruct ns as [|r [|g [|b [|a [|e ns]]]]]; try reflexivity.
    unfold ret. do 2 f_equal. now rewrite <- !app_assoc.
  - unfold parse_value.
    erewrite bind_Ok.
    2:{ apply (get_token_name pre [] (lit "Vector2")); reflexivity. }
    cbv zeta. cbn [tk_type mkToken tk_value as_string tk_line].
    replace (str_eqb (lit "Vector2") (lit "Color")) with false by reflexivity.
    replace (str_eqb (lit "Vector2") (lit "Vector2")) with true by reflexivity.
    erewrite bind_Ok by (apply parse_construct_args_any; assumption).
    unfold line_after. rewrite app_nil_r.
    destruct ns as [|x [|y [|e ns]]]; try reflexivity.
    unfold ret. do 2 f_equal. now rewrite <- !app_assoc.
Qed.

(** ** Entries with white space, and texts of lines *)

Lemma parse_value_ws (pre ws l : jstring) :
  forallb is_whitespace ws = true ->
  parse_value (at_ pre (ws ++ l)) = parse_value (at_ (pre ++ ws) l).
Proof.
  intros Hws. unfold parse_value, bind. now rewrite get_token_ws.
Qed.

Lemma whitespace_stops_identifier (ws rest : jstring) (c : char) :
  forallb is_whitespace ws = true -> is_identifier_char c = false ->
  stops is_identifier_char (ws ++ c :: rest).
Proof.
  intros Hws Hc. destruct ws as [|w ws]; simpl; [assumption|].
  simpl in Hws. apply andb_true_iff in Hws as [Hw _].
  destruct (is_identifier_char w) eqn:E; [|reflexivity].
  exfalso. clear - Hw E. char_arith.
Qed.

(** X19. White space around the equals sign does not matter, line breaks
    included: a key the writer can print, any white space, the equals
    sign, any white space and a value the writer can print are read as
    that key set to that value in the current section. *)
Theorem entry_spacing (cur : jstring) (vals : Doc)
    (pre ws ws1 ws2 key : jstring) (v : value) (rest : jstring) :
  forallb is_whitespace ws = true -> forallb is_whitespace ws1 = true ->
  forallb is_whitespace ws2 = true ->
  round_trip_key key -> round_trip_value v ->
  parse_config_step cur vals
    (at_ pre (ws ++ encode_key key ++ ws1 ++ EQUALS :: ws2
                ++ serialize_value v ++ LF :: rest))
  = Ok (Some (cur, doc_set cur key v vals),
        at_ (pre ++ ws ++ encode_key key ++ ws1 ++ EQUALS :: ws2
               ++ serialize_value v)
          (LF :: rest)).
Proof.
  intros Hws Hws1 Hws2 Hk Hv. rewrite parse_config_step_token.
  set (tail := ws1 ++ EQUALS :: ws2 ++ serialize_value v ++ LF :: rest).
  assert (Htok : exists tok,
    get_token (at_ pre (ws ++ encode_key key ++ tail))
    = Ok (tok, at_ (pre ++ ws ++ encode_key key) tail)
    /\ (tk_type tok = IDENTIFIER \/ tk_type tok = STRING)
    /\ String_of_token_value (tk_value tok) = key).
  { destruct Hk as [Hk | [Hq Hn]].
    - destruct (name_like_ident key Hk) as (Hid & Ht & Hf).
      rewrite name_like_bare by assumption. eexists. split.
      + apply get_token_name; auto.
        apply whitespace_stops_identifier; [assumption | reflexivity].
      + split; [now left | reflexivity].
    - unfold encode_key. rewrite Hq. fold (escape_string key).
      eexists. split.
      + cbn [app]. rewrite <- app_assoc. cbn [app].
        apply (get_token_string pre ws key tail Hws Hn).
      + split; [now right | reflexivity]. }
  destruct Htok as (tok & Htok & Htype & Hval).
  erewrite bind_Ok by exact Htok.
  assert (Hrest :
    (equalToken <- get_token ;;
     match tk_type equalToken with
     | EQUAL =>
         v0 <- parse_value ;;
         ret (Some (cur, doc_set cur (String_of_token_value (tk_value tok)) v0
                           vals))
     | _ => throw (lit "Expected '=' after key") (tk_line equalToken)
     end) (at_ (pre ++ ws ++ encode_key key) tail)
    = Ok (Some (cur, doc_set cur key v vals),
          at_ (pre ++ ws ++ encode_key key ++ ws1 ++ EQUALS :: ws2
                 ++ serialize_value v)
            (LF :: rest))).
  { unfold tail. erewrite bind_Ok.
    2:{ apply (get_token_punct _ ws1 EQUALS EQUAL); auto. }
    cbn [tk_type mkToken].
    erewrite bind_Ok.
    2:{ rewrite parse_value_ws by assumption.
        apply parse_value_serialized. assumption. }
    rewrite Hval. unfold ret. do 2 f_equal.
    rewrite <- ?app_assoc. cbn [app]. rewrite <- ?app_assoc. reflexivity. }
  destruct Htype as [Ht | Ht]; rewrite Ht; exact Hrest.
Qed.

Lemma map_set_twice {V} (k : jstring) (v1 v2 : V) (m : omap V) :
  map_set k v2 (map_set k v1 m) = map_set k v2 m.
Proof.
  induction m as [|[k' v'] m IH]; simpl.
  - now rewrite str_eqb_refl.
  - destruct (str_eqb k' k) eqn:E; simpl; rewrite E; [reflexivity|].
    now rewrite IH.
Qed.

Lemma doc_set_twice (s k : jstring) (v1 v2 : value) (d : Doc) :
  doc_set s k v2 (doc_set s k v1 d) = doc_set s k v2 d.
Proof.
  unfold doc_set. destruct (map_has s d) eqn:E.
  - unfold map_has in E. destruct (map_get s d) as [ks|] eqn:E'; [|discriminate].
    rewrite map_has_set_same, map_get_set_same. now rewrite !map_set_twice.
  - rewrite !map_get_set_same, !map_set_twice.
    rewrite map_has_set_same, map_get_set_same. now rewrite !map_set_twice.
Qed.

(** X20. Parsing a text of well-formed lines is a left fold over the
    lines, and ends without error: a header makes its section the current
    one, adding it to the map when it is new and leaving it as it is when
    it is there already; an entry sets its key in the current section; a
    blank line does nothing.  So a section may be opened again further
    down and goes on where it was, and of two entries in a row for the
    same key only the second counts. *)
Theorem parse_config_lines (items : list line_item) :
  Forall item_ok items ->
  parse_config (items_text items)
  = {| values := snd (fold_left apply_item items ([], [])); error := None |}
  /\ (forall key v1 v2,
         round_trip_key key -> round_trip_value v1 -> round_trip_value v2 ->
         parse_config (items_text (items ++ [Entry key v1; Entry key v2]))
         = parse_config (items_text (items ++ [Entry key v2]))).
Proof.
  intros Hok.
  assert (Hall : forall its, Forall item_ok its ->
            parse_config (items_text its)
            = {| values := snd (fold_left apply_item its ([], []));
                 error := None |}).
  { intros its Hits. unfold parse_config, parse_config_run.
    rewrite new_Stream_at.
    pose proof (parse_config_loop_items its (length (items_text its) + 2)
                  [] [] [] [] [] Hits eq_refl eq_refl) as H.
    cbn [app] in H. rewrite app_nil_r in H. rewrite H by lia. reflexivity. }
  split; [now apply Hall|].
  intros key v1 v2 Hk H1 H2.
  rewrite !Hall.
  - rewrite !fold_left_app. cbn [fold_left apply_item fst snd].
    now rewrite doc_set_twice.
  - apply Forall_app. split; [assumption|].
    apply Forall_cons; [split; assumption | apply Forall_nil].
  - apply Forall_app. split; [assumption|].
    apply Forall_cons; [split; assumption|].
    apply Forall_cons; [split; assumption | apply Forall_nil].
Qed.

(** ** The order of the presets *)

Lemma insert_section_perm (x : jstring) (l : list jstring) :
  Permutation (insert_section x l) (x :: l).
Proof.
  induction l as [|y l IH]; simpl; [reflexivity|].
  destruct (index_before x y); [reflexivity|].
  rewrite IH. apply perm_swap.
Qed.

Lemma sort_sections_fold_perm (l : list jstring) :
  forall acc,
    Permutation (fold_left (fun acc x => insert_section x acc) l acc) (acc ++ l).
Proof.
  induction l as [|x l IH]; intros acc; simpl.
  - now rewrite app_nil_r.
  - rewrite IH, insert_section_perm. simpl. apply Permutation_middle.
Qed.

Lemma sort_sections_perm (l : list jstring) : Permutation (sort_sections l) l.
Proof. unfold sort_sections. now rewrite sort_sections_fold_perm. Qed.

Lemma index_before_numeric (a b : jstring) (x y : Z) :
  section_index a = Some x -> section_index b = Some y ->
  index_before a b = (x <? y)%Z.
Proof.
  intros Ha Hb. unfold index_before. rewrite Ha, Hb.
  destruct (x <? y)%Z eqn:E.
  - apply Z.ltb_lt in E. apply Z.ltb_lt. lia.
  - apply Z.ltb_ge in E. apply Z.ltb_ge. lia.
Qed.

Lemma insert_section_Forall (P : jstring -> Prop) (x : jstring)
    (l : list jstring) :
  P x -> Forall P l -> Forall P (insert_section x l).
Proof.
  intros Hx Hl. apply Forall_forall. intros y Hy.
  apply insert_section_In in Hy as [-> | Hy]; [assumption|].
  now apply (proj1 (Forall_forall P l) Hl).
Qed.

Lemma insert_section_sorted (x : jstring) (l : list jstring) :
  section_index x <> None -> Forall (fun s => section_index s <> None) l ->
  StronglySorted index_le l -> StronglySorted index_le (insert_section x l).
Proof.
  intros Hx Hl Hs. induction Hs as [|y l Hs IH Hy]; simpl.
  - repeat constructor.
  - inversion Hl as [|? ? Hny Hl']; subst.
    destruct (section_index x) as [ix|] eqn:Ex; [|congruence].
    destruct (section_index y) as [iy|] eqn:Ey; [|congruence].
    rewrite (index_before_numeric x y ix iy Ex Ey).
    destruct (ix <? iy)%Z eqn:E.
    + apply Z.ltb_lt in E. constructor.
      * now constructor.
      * constructor.
        -- exists ix, iy. repeat split; auto. lia.
        -- eapply Forall_impl; [|exact Hy].
           intros z (a & b & Ha & Hb & Hab).
           assert (a = iy) by congruence. subst a.
           exists ix, b. repeat split; auto. lia.
    + apply Z.ltb_ge in E. constructor.
      * apply IH; assumption.
      * apply insert_section_Forall; [|assumption].
        exists iy, ix. repeat split; auto.
Qed.

Lemma filter_index_insert (i : Z) (x : jstring) (l : list jstring) :
  section_index x <> None -> Forall (fun s => section_index s <> None) l ->
  StronglySorted index_le l ->
  filter (has_index i) (insert_section x l)
  = filter (has_index i) l ++ (if has_index i x then [x] else []).
Proof.
  intros Hx Hl Hs. induction Hs as [|y l Hs IH Hy]; simpl.
  - destruct (has_index i x); reflexivity.
  - inversion Hl as [|? ? Hny Hl']; subst.
    destruct (section_index x) as [ix|] eqn:Ex; [|congruence].
    destruct (section_index y) as [iy|] eqn:Ey; [|congruence].
    rewrite (index_before_numeric x y ix iy Ex Ey).
    destruct (ix <? iy)%Z eqn:E.
    + apply Z.ltb_lt in E.
      destruct (has_index i x) eqn:Hix.
      * (* nothing from y on has the number of x *)
        assert (Hi : ix = i).
        { unfold has_index in Hix. rewrite Ex in Hix. now apply Z.eqb_eq. }
        assert (Hnone : filter (has_index i) (y :: l) = []).
        { assert (Hall : Forall (fun z => has_index i z = false) (y :: l)).
          { constructor.
            - unfold has_index. rewrite Ey. apply Z.eqb_neq. lia.
            - eapply Forall_impl; [|exact Hy].
              intros z (a & b & Ha & Hb & Hab).
              assert (a = iy) by congruence. subst a.
              unfold has_index. rewrite Hb. apply Z.eqb_neq. lia. }
          clear - Hall. induction Hall as [|z zs Hz _ IHz]; simpl; auto.
          now rewrite Hz. }
        cbn [filter]. rewrite Hix.
        change (filter (has_index i) (y :: l)) with
          (if has_index i y then y :: filter (has_index i) l
           else filter (has_index i) l) in Hnone.
        simpl. rewrite Hnone. reflexivity.
      * cbn [filter]. rewrite Hix. now rewrite app_nil_r.
    + cbn [filter]. rewrite IH by assumption.
      destruct (has_index i y); reflexivity.
Qed.

Lemma sort_sections_fold_facts (i : Z) (l : list jstring) :
  forall acc,
    Forall (fun s => section_index s <> None) l ->
    Forall (fun s => section_index s <> None) acc ->
    StronglySorted index_le acc ->
    StronglySorted index_le
      (fold_left (fun acc x => insert_section x acc) l acc)
    /\ filter (has_index i) (fold_left (fun acc x => insert_section x acc) l acc)
       = filter (has_index i) acc ++ filter (has_index i) l.
Proof.
  induction l as [|x l IH]; intros acc Hl Hacc Hs; simpl.
  - split; [assumption | now rewrite app_nil_r].
  - inversion Hl as [|? ? Hx Hl']; subst.
    destruct (IH (insert_section x acc) Hl'
                (insert_section_Forall _ x acc Hx Hacc)
                (insert_section_sorted x acc Hx Hacc Hs)) as [H1 H2].
    split; [exact H1|]. rewrite H2, filter_index_insert by assumption.
    rewrite <- app_assoc. destruct (has_index i x); reflexivity.
Qed.

Lemma insert_section_length (x : jstring) (l : list jstring) :
  length (insert_section x l) = S (length l).
Proof. now rewrite (Permutation_length (insert_section_perm x l)). Qed.

(** A sort by the number after the first dot, stable. *)
Lemma sort_sections_by_index (l : list jstring) :
  Forall (fun s => section_index s <> None) l ->
  Permutation (sort_sections l) l
  /\ StronglySorted index_le (sort_sections l)
  /\ (forall i, filter (has_index i) (sort_sections l) = filter (has_index i) l).
Proof.
  intros Hl. split; [apply sort_sections_perm|].
  unfold sort_sections. split.
  - apply (sort_sections_fold_facts 0%Z l []); auto; constructor.
  - intros i.
    destruct (sort_sections_fold_facts i l [] Hl (Forall_nil _)
                (SSorted_nil _)) as [_ H].
    exact H.
Qed.

(** X22. [parseExportPresets] fails only with the parse error of the text,
    and returns no presets then; on a text that parses it returns one
    preset for each section whose name starts with [preset.] and does not
    contain [.options], so a lone options section gives no preset. *)
Theorem parseExportPresets_outcome (content : jstring) :
  (forall e, error (parse_config content) = Some e ->
             parseExportPresets content = inl (ParseErr e))
  /\ (error (parse_config content) = None ->
      exists presets,
        parseExportPresets content = inr presets
        /\ length presets
           = length (filter is_preset_section
                       (map_keys (values (parse_config content))))).
Proof.
  unfold parseExportPresets, ConfigFile_parse. split.
  - intros e ->. reflexivity.
  - intros ->.
    set (cf := {| cf_values := values (parse_config content) |}).
    change (get_sections cf) with (map_keys (values (parse_config content))).
    change (fun s : jstring =>
              startsWith (lit "preset.") s && negb (includes (lit ".options") s))
      with is_preset_section.
    set (secs := sort_sections _).
    destruct (build_presets_spec cf secs (parse_config_invariant content))
      with (acc := @nil ExportPreset) as (ps & Hrun & Hall).
    { intros sec Hin. apply sort_sections_In, filter_In in Hin as [Hin _].
      exact Hin. }
    exists ps. split; [exact Hrun|].
    rewrite <- (Forall2_length Hall). unfold secs.
    apply Permutation_length, sort_sections_perm.
Qed.

(** ** The decimal text of an index *)

(** One more digit read. *)
Ltac read_digit D d c IH :=
  change (lit (NilEmpty.string_of_uint (D d)))
    with (c :: lit (NilEmpty.string_of_uint d));
  cbn [app read_digits length Nat.of_uint_acc];
  change (is_digit c) with true; cbv iota;
  rewrite IH by assumption; rewrite Nat.tail_mul_spec;
  do 2 f_equal; [f_equal; f_equal|]; lia.

Lemma lit_digits (d : Decimal.uint) :
  forallb is_digit (lit (NilEmpty.string_of_uint d)) = true
  /\ forall (acc : N) (n : nat) (rest : jstring),
       stops is_digit rest ->
       read_digits (lit (NilEmpty.string_of_uint d) ++ rest) acc n
       = (N.of_nat (Nat.of_uint_acc d (N.to_nat acc)),
          n + length (lit (NilEmpty.string_of_uint d)), rest).
Proof.
  induction d as [|d [IH1 IH2]|d [IH1 IH2]|d [IH1 IH2]|d [IH1 IH2]|d [IH1 IH2]
                  |d [IH1 IH2]|d [IH1 IH2]|d [IH1 IH2]|d [IH1 IH2]|d [IH1 IH2]];
    (split; [try exact IH1; reflexivity|]); intros acc n rest Hrest.
  - cbn [NilEmpty.string_of_uint lit list_ascii_of_string map app length
         Nat.of_uint_acc].
    rewrite N2Nat.id, Nat.add_0_r.
    destruct rest as [|c rest]; [reflexivity|].
    cbn [read_digits]. simpl in Hrest. now rewrite Hrest.
  - read_digit Decimal.D0 d 48%N IH2.
  - read_digit Decimal.D1 d 49%N IH2.
  - read_digit Decimal.D2 d 50%N IH2.
  - read_digit Decimal.D3 d 51%N IH2.
  - read_digit Decimal.D4 d 52%N IH2.
  - read_digit Decimal.D5 d 53%N IH2.
  - read_digit Decimal.D6 d 54%N IH2.
  - read_digit Decimal.D7 d 55%N IH2.
  - read_digit Decimal.D8 d 56%N IH2.
  - read_digit Decimal.D9 d 57%N IH2.
Qed.

(** The text of an index is made of digits, at least one, and reads back
    as the index. *)
Lemma nat_to_string_digits (n : nat) :
  forallb is_digit (nat_to_string n) = true
  /\ nat_to_string n <> []
  /\ forall rest, stops is_digit rest ->
       read_digits (nat_to_string n ++ rest) 0%N 0
       = (N.of_nat n, length (nat_to_string n), rest).
Proof.
  unfold nat_to_string.
  pose proof (Unsigned.of_to n) as Hn. unfold Nat.of_uint in Hn.
  destruct (Nat.to_uint n) as [|d|d|d|d|d|d|d|d|d|d] eqn:E.
  2-11: match goal with
        | |- context [NilZero.string_of_uint ?D] =>
            change (NilZero.string_of_uint D) with (NilEmpty.string_of_uint D);
            destruct (lit_digits D) as [H1 H2];
            split; [exact H1|]; split; [discriminate|];
            intros rest Hrest; rewrite H2 by assumption;
            change (N.to_nat 0) with 0; rewrite Hn; reflexivity
        end.
  simpl in Hn. subst n. split; [reflexivity|]. split; [discriminate|].
  intros rest Hrest. cbn [NilZero.string_of_uint].
  change (lit "0") with [48%N]. cbn [app read_digits length].
  change (is_digit 48) with true. cbv iota.
  destruct rest as [|c rest]; [reflexivity|].
  cbn [read_digits]. simpl in Hrest. now rewrite Hrest.
Qed.

Lemma digit_facts (c : char) :
  is_digit c = true ->
  is_js_space c = false /\ N.eqb c MINUS = false /\ N.eqb c PLUS = false
  /\ N.eqb c DOT = false /\ is_identifier_char c = true
  /\ N.eqb c 111 = false.
Proof.
  intros H. unfold is_js_space.
  repeat split; clear - H; char_arith.
Qed.

Lemma parseInt10_nat_to_string (n : nat) :
  parseInt10 (nat_to_string n) = Some (Z.of_nat n).
Proof.
  destruct (nat_to_string_digits n) as (Hd & Hne & Hr).
  specialize (Hr [] I). rewrite app_nil_r in Hr.
  unfold parseInt10.
  destruct (nat_to_string n) as [|c r] eqn:E; [congruence|].
  cbn [forallb] in Hd. apply andb_true_iff in Hd as [Hc _].
  destruct (digit_facts c Hc) as (Hsp & Hm & Hp & _).
  cbn [trim_start]. rewrite Hsp, Hm, Hp, Hr.
  cbn [length Nat.eqb]. now rewrite nat_N_Z.
Qed.

Lemma nat_to_string_inj (i j : nat) :
  nat_to_string i = nat_to_string j -> i = j.
Proof.
  intros H. apply Nat2Z.inj.
  pose proof (parseInt10_nat_to_string i) as Hi.
  rewrite H, parseInt10_nat_to_string in Hi. congruence.
Qed.

(** ** The names of the preset sections *)

Lemma split_on_no_sep (sep : char) (cur s : jstring) :
  forallb (fun c => negb (N.eqb c sep)) s = true ->
  split_on sep cur s = [cur ++ s].
Proof.
  revert cur. induction s as [|c s IH]; intros cur H; simpl.
  - now rewrite app_nil_r.
  - simpl in H. apply andb_true_iff in H as [Hc Hs].
    apply negb_true_iff in Hc. rewrite Hc, IH by assumption.
    now rewrite <- app_assoc.
Qed.

Lemma digits_no_dot (s : jstring) :
  forallb is_digit s = true ->
  forallb (fun c => negb (N.eqb c DOT)) s = true.
Proof.
  induction s as [|c s IH]; simpl; [reflexivity|].
  intros H. apply andb_true_iff in H as [Hc Hs].
  destruct (digit_facts c Hc) as (_ & _ & _ & -> & _). now rewrite IH.
Qed.

Lemma split_preset_name (s : jstring) :
  split DOT (lit "preset." ++ s) = lit "preset" :: split_on DOT [] s.
Proof. reflexivity. Qed.

Lemma section_index_name (i : nat) :
  section_index (preset_section_name i) = Some (Z.of_nat i).
Proof.
  destruct (nat_to_string_digits i) as (Hd & Hne & _).
  unfold section_index, preset_section_name.
  rewrite split_preset_name, split_on_no_sep by now apply digits_no_dot.
  cbn [nth_error app].
  destruct (nat_to_string i) as [|c r] eqn:E; [congruence|].
  rewrite <- E. apply parseInt10_nat_to_string.
Qed.

Lemma startsWith_refl (p : jstring) : startsWith p p = true.
Proof. induction p as [|c p IH]; simpl; [reflexivity|]. now rewrite N.eqb_refl. Qed.

Lemma includes_app_r (p x : jstring) : includes p (x ++ p) = true.
Proof.
  induction x as [|c x IH].
  - destruct p; simpl; [reflexivity|].
    now rewrite N.eqb_refl, startsWith_refl.
  - cbn [app]. destruct p as [|a p]; [reflexivity|].
    cbn [includes]. cbn [app] in IH. rewrite IH. apply orb_true_r.
Qed.

Lemma includes_digits (p s : jstring) :
  forallb is_digit s = true -> includes (DOT :: p) s = false.
Proof.
  induction s as [|c s IH]; intros H; [reflexivity|].
  simpl in H. apply andb_true_iff in H as [Hc Hs].
  destruct (digit_facts c Hc) as (_ & _ & _ & Hdot & _).
  cbn [includes startsWith]. rewrite N.eqb_sym, Hdot. cbn [andb orb].
  now apply IH.
Qed.

Lemma includes_preset_name (s : jstring) :
  includes (lit ".options") (lit "preset." ++ s)
  = startsWith (lit "options") s || includes (lit ".options") s.
Proof. reflexivity. Qed.

Lemma is_preset_section_name (i : nat) :
  is_preset_section (preset_section_name i) = true.
Proof.
  destruct (nat_to_string_digits i) as (Hd & Hne & _).
  unfold is_preset_section, preset_section_name.
  replace (startsWith (lit "preset.") (lit "preset." ++ nat_to_string i))
    with true by reflexivity.
  rewrite includes_preset_name.
  change (lit ".options") with (DOT :: lit "options").
  rewrite includes_digits by assumption.
  destruct (nat_to_string i) as [|c r]; [congruence|].
  simpl in Hd. apply andb_true_iff in Hd as [Hc _].
  destruct (digit_facts c Hc) as (_ & _ & _ & _ & _ & Ho).
  change (startsWith (lit "options") (c :: r))
    with (N.eqb 111 c && startsWith (lit "ptions") r).
  now rewrite N.eqb_sym, Ho.
Qed.

Lemma is_preset_section_options (x : jstring) :
  is_preset_section (x ++ lit ".options") = false.
Proof.
  unfold is_preset_section. rewrite includes_app_r. apply andb_false_r.
Qed.

Lemma name_like_preset (x : jstring) :
  forallb is_identifier_char x = true -> name_like (lit "preset." ++ x) = true.
Proof.
  intros H. unfold name_like.
  replace (ident_like (lit "preset." ++ x)) with (forallb is_identifier_char x)
    by reflexivity.
  rewrite H. reflexivity.
Qed.

Lemma digits_identifier_chars (s : jstring) :
  forallb is_digit s = true -> forallb is_identifier_char s = true.
Proof.
  induction s as [|c s IH]; simpl; [reflexivity|].
  intros H. apply andb_true_iff in H as [Hc Hs].
  destruct (digit_facts c Hc) as (_ & _ & _ & _ & -> & _). now apply IH.
Qed.

Lemma name_like_section (i : nat) :
  name_like (preset_section_name i) = true
  /\ name_like (preset_section_name i ++ lit ".options") = true.
Proof.
  destruct (nat_to_string_digits i) as (Hd & _ & _).
  apply digits_identifier_chars in Hd.
  unfold preset_section_name. split.
  - now apply name_like_preset.
  - rewrite <- app_assoc. apply name_like_preset.
    rewrite forallb_app, Hd. reflexivity.
Qed.

Lemma preset_section_name_inj (i j : nat) :
  preset_section_name i = preset_section_name j -> i = j.
Proof.
  unfold preset_section_name. intros H.
  apply app_inv_head in H. now apply nat_to_string_inj.
Qed.

Lemma preset_section_name_options (i j : nat) :
  preset_section_name i <> preset_section_name j ++ lit ".options".
Proof.
  unfold preset_section_name. rewrite <- app_assoc. intros H.
  apply app_inv_head in H.
  destruct (nat_to_string_digits i) as (Hd & _ & _).
  rewrite H, forallb_app in Hd. apply andb_true_iff in Hd as [_ Hd].
  discriminate.
Qed.

Lemma section_if_keys (s : jstring) (keys : KeyMap) (x : jstring) :
  In x (map_keys (section_if s keys)) -> x = s.
Proof. destruct keys; simpl; intuition. Qed.

(** The names the sections of [presets_doc i ps] have. *)
Lemma presets_doc_keys (ps : list ExportPreset) :
  forall (i : nat) (s : jstring),
    In s (map_keys (presets_doc i ps)) ->
    exists j, i <= j
              /\ (s = preset_section_name j
                  \/ s = preset_section_name j ++ lit ".options").
Proof.
  induction ps as [|p ps IH]; intros i s Hin; [destruct Hin|].
  cbn [presets_doc] in Hin. unfold map_keys in *. rewrite !map_app in Hin.
  apply in_app_or in Hin as [Hin | Hin];
    [|apply in_app_or in Hin as [Hin | Hin]].
  - apply section_if_keys in Hin as ->. exists i; auto.
  - apply section_if_keys in Hin as ->. exists i; auto.
  - apply IH in Hin as (j & Hj & Hs). exists j. split; [lia | exact Hs].
Qed.

Lemma presets_doc_fresh (ps : list ExportPreset) (i j : nat) :
  j < i ->
  ~ In (preset_section_name j) (map_keys (presets_doc i ps))
  /\ ~ In (preset_section_name j ++ lit ".options")
       (map_keys (presets_doc i ps)).
Proof.
  intros Hj. split; intros Hin;
    apply presets_doc_keys in Hin as (k & Hk & [H | H]).
  - apply preset_section_name_inj in H. lia.
  - now apply preset_section_name_options in H.
  - symmetry in H. now apply preset_section_name_options in H.
  - apply app_inv_tail, preset_section_name_inj in H. lia.
Qed.

Lemma presets_doc_NoDup (ps : list ExportPreset) :
  forall i, NoDup (map_keys (presets_doc i ps)).
Proof.
  induction ps as [|p ps IH]; intros i; [constructor|].
  cbn [presets_doc]. unfold map_keys in *. rewrite !map_app.
  destruct (presets_doc_fresh ps (S i) i (Nat.lt_succ_diag_r i)) as [H1 H2].
  unfold map_keys in H1, H2.
  assert (Hopt : NoDup (map fst (section_if (preset_section_name i
                                   ++ lit ".options") (written_options p))
                        ++ map fst (presets_doc (S i) ps))).
  { destruct (written_options p); cbn [section_if map app fst]; [apply IH|].
    constructor; [assumption | apply IH]. }
  destruct (preset_fields p); cbn [section_if map app fst]; [exact Hopt|].
  constructor; [|exact Hopt].
  intros Hin. apply in_app_or in Hin as [Hin | Hin]; [|contradiction].
  apply section_if_keys in Hin. now apply preset_section_name_options in Hin.
Qed.

(** ** The store the serializer builds *)

Lemma doc_set_new (s k : jstring) (v : value) (d : Doc) :
  ~ In s (map_keys d) -> doc_set s k v d = d ++ [(s, [(k, v)])].
Proof.
  intros H. unfold doc_set, map_has.
  rewrite (proj2 (map_get_None_notin s d) H).
  rewrite map_set_fresh by assumption.
  rewrite map_get_last by assumption.
  now apply map_set_last.
Qed.

Lemma fold_set_value_section (s : jstring) (fields : KeyMap) :
  forall (d : Doc) (done : KeyMap),
    ~ In s (map_keys d) -> NoDup (map_keys (done ++ fields)) ->
    fold_left (fun cf kv => set_value cf s (fst kv) (snd kv)) fields
      {| cf_values := d ++ [(s, done)] |}
    = {| cf_values := d ++ [(s, done ++ fields)] |}.
Proof.
  induction fields as [|[k v] fields IH]; intros d done Hs Hnd.
  - now rewrite app_nil_r.
  - cbn [fold_left fst snd].
    change (set_value {| cf_values := d ++ [(s, done)] |} s k v)
      with {| cf_values := doc_set s k v (d ++ [(s, done)]) |}.
    assert (Hk : ~ In k (map_keys done)).
    { unfold map_keys in *. rewrite map_app in Hnd.
      apply NoDup_remove_2 in Hnd. intros Hin. apply Hnd.
      apply in_or_app. now left. }
    rewrite doc_set_last by assumption.
    rewrite IH; auto.
    + now rewrite <- app_assoc.
    + now rewrite <- app_assoc.
Qed.

Lemma fold_set_value_new (s : jstring) (fields : KeyMap) (d : Doc) :
  ~ In s (map_keys d) -> NoDup (map_keys fields) ->
  fold_left (fun cf kv => set_value cf s (fst kv) (snd kv)) fields
    {| cf_values := d |}
  = {| cf_values := d ++ section_if s fields |}.
Proof.
  intros Hs Hnd. destruct fields as [|[k v] fields].
  - cbn [fold_left section_if]. now rewrite app_nil_r.
  - cbn [fold_left fst snd section_if].
    change (set_value {| cf_values := d |} s k v)
      with {| cf_values := doc_set s k v d |}.
    rewrite doc_set_new by assumption.
    exact (fold_set_value_section s fields d [(k, v)] Hs Hnd).
Qed.

Lemma fold_skip_options (s : jstring) (p : ExportPreset) :
  forall cf : ConfigFile,
    fold_left
      (fun cf kv =>
         if str_eqb (fst kv) (lit "options") then cf
         else set_value cf s (fst kv) (snd kv))
      p cf
    = fold_left (fun cf kv => set_value cf s (fst kv) (snd kv))
        (preset_fields p) cf.
Proof.
  induction p as [|[k v] p IH]; intros cf; [reflexivity|].
  cbn [fold_left fst snd]. unfold preset_fields, map_delete.
  cbn [filter fst]. destruct (str_eqb k (lit "options")); cbn [negb].
  - apply IH.
  - cbn [fold_left fst snd]. apply IH.
Qed.

Lemma serialize_preset_store (d : Doc) (i : nat) (p : ExportPreset) :
  object_like p ->
  ~ In (preset_section_name i) (map_keys d) ->
  ~ In (preset_section_name i ++ lit ".options") (map_keys d) ->
  serialize_preset {| cf_values := d |} i p
  = {| cf_values :=
         d ++ section_if (preset_section_name i) (preset_fields p)
           ++ section_if (preset_section_name i ++ lit ".options")
                (written_options p) |}.
Proof.
  intros [Hp Ho] H1 H2. unfold serialize_preset. cbv zeta.
  fold (preset_section_name i). rewrite fold_skip_options.
  rewrite fold_set_value_new
    by (auto; unfold preset_fields; now apply map_delete_NoDup).
  assert (Hfresh : ~ In (preset_section_name i ++ lit ".options")
                     (map_keys (d ++ section_if (preset_section_name i)
                                       (preset_fields p)))).
  { unfold map_keys in *. rewrite map_app. intros Hin.
    apply in_app_or in Hin as [Hin | Hin]; [contradiction|].
    apply section_if_keys in Hin. symmetry in Hin.
    now apply preset_section_name_options in Hin. }
  unfold written_options in *.
  destruct (map_get (lit "options") p) as [options|].
  - destruct (truthy options).
    + rewrite fold_set_value_new by assumption. now rewrite <- app_assoc.
    + cbn [section_if]. now rewrite app_nil_r.
  - cbn [section_if]. now rewrite app_nil_r.
Qed.

Lemma serialize_presets_store (ps : list ExportPreset) :
  forall (i : nat) (d : Doc),
    Forall object_like ps ->
    (forall j, i <= j ->
               ~ In (preset_section_name j) (map_keys d)
               /\ ~ In (preset_section_name j ++ lit ".options") (map_keys d)) ->
    serialize_presets_from i ps {| cf_values := d |}
    = {| cf_values := d ++ presets_doc i ps |}.
Proof.
  induction ps as [|p ps IH]; intros i d Hps Hd.
  - cbn [serialize_presets_from presets_doc]. now rewrite app_nil_r.
  - inversion Hps as [|? ? Hp Hps']; subst.
    cbn [serialize_presets_from presets_doc].
    destruct (Hd i (Nat.le_refl i)) as [H1 H2].
    rewrite serialize_preset_store by assumption.
    rewrite IH; auto.
    + now rewrite <- !app_assoc.
    + intros j Hj. destruct (Hd j) as [H3 H4]; [lia|].
      unfold map_keys in *. rewrite !map_app.
      split; intros Hin;
        (apply in_app_or in Hin as [Hin | Hin]; [contradiction|]);
        (apply in_app_or in Hin as [Hin | Hin]);
        apply (section_if_keys _ _ _) in Hin.
      * apply preset_section_name_inj in Hin. lia.
      * now apply preset_section_name_options in Hin.
      * symmetry in Hin. now apply preset_section_name_options in Hin.
      * apply app_inv_tail, preset_section_name_inj in Hin. lia.
Qed.

(** X23. What [serializeExportPresets] writes: the text of the store that
    holds, for the preset at each index [i] in turn, the section
    [preset.i] with the preset's properties other than [options] in their
    order, then the section [preset.i.options] with the entries of its
    options.  A key named [options] is never written to [preset.i]; a
    section is written only when it has a key, so options that are
    missing, falsy or an empty object leave no section. *)
Theorem serializeExportPresets_layout (ps : list ExportPreset) :
  Forall object_like ps ->
  serializeExportPresets ps = serialize_config (presets_doc 0 ps).
Proof.
  intros Hps. unfold serializeExportPresets, encode_to_text, new_ConfigFile.
  rewrite serialize_presets_store.
  - reflexivity.
  - exact Hps.
  - intros j _. split; intros [].
Qed.


(** ** Presets written and read back *)

Lemma round_trip_doc_parses (d : Doc) :
  round_trip_doc d ->
  parse_config (serialize_config d) = {| values := d; error := None |}.
Proof.
  intros Hd. unfold parse_config, parse_config_run. rewrite new_Stream_at.
  destruct (serialize_config_items d) as (tail & Htail & ->).
  rewrite (parse_config_loop_items (doc_items true d) _ [] [] tail [] []);
    auto using doc_items_ok.
  - f_equal. exact (apply_items_doc d Hd).
  - cbn [app]. lia.
Qed.

Lemma storable_written_options (p : ExportPreset) :
  storable_preset p ->
  written_options p = match preset_options p with Some o => o | None => [] end
  /\ (forall o, preset_options p = Some o ->
                o <> [] /\ round_trip_section (lit "options", o)).
Proof.
  intros (_ & _ & _ & _ & Ho). unfold written_options, preset_options.
  destruct (map_get (lit "options") p) as [v|]; [|split; [reflexivity|discriminate]].
  destruct v; try (rewrite Ho; split; [reflexivity|discriminate]).
  split; [reflexivity|]. intros o [= <-]. exact Ho.
Qed.

Lemma storable_object_like (p : ExportPreset) :
  storable_preset p -> object_like p.
Proof.
  intros Hp. destruct (storable_written_options p Hp) as [Hw Ho].
  destruct Hp as (_ & Hnd & _). split; [exact Hnd|]. rewrite Hw.
  destruct (preset_options p) as [o|]; [|constructor].
  destruct (Ho o eq_refl) as (_ & H & _). exact H.
Qed.

Lemma storable_fields (p : ExportPreset) :
  storable_preset p ->
  preset_fields p <> []
  /\ round_trip_section (preset_section_name 0, preset_fields p).
Proof.
  intros (_ & Hnd & (Hname & _) & Hall & _). split.
  - intros E. unfold map_has in Hname.
    rewrite <- (map_get_delete_other (lit "options") (lit "name"))
      in Hname by discriminate.
    fold (preset_fields p) in Hname. now rewrite E in Hname.
  - split; cbn [snd].
    + unfold preset_fields. now apply map_delete_NoDup.
    + unfold preset_fields, map_delete. apply Forall_forall.
      intros kv Hin. apply filter_In in Hin as [Hin Hk].
      apply negb_true_iff, str_eqb_neq in Hk.
      destruct (proj1 (Forall_forall _ p) Hall kv Hin) as [H | H];
        [contradiction | exact H].
Qed.

Lemma presets_doc_sections (ps : list ExportPreset) :
  forall i,
    Forall storable_preset ps ->
    Forall round_trip_section (presets_doc i ps)
    /\ Forall (fun sec => name_like (fst sec) = true) (presets_doc i ps).
Proof.
  induction ps as [|p ps IH]; intros i Hps; [split; constructor|].
  inversion Hps as [|? ? Hp Hps']; subst.
  destruct (IH (S i) Hps') as [IH1 IH2].
  destruct (storable_fields p Hp) as [Hne Hf].
  destruct (storable_written_options p Hp) as [Hw Ho].
  destruct (name_like_section i) as [Hn1 Hn2].
  cbn [presets_doc]. rewrite Hw.
  assert (Hsec : section_if (preset_section_name i) (preset_fields p)
                 = [(preset_section_name i, preset_fields p)]).
  { destruct (preset_fields p); [congruence | reflexivity]. }
  rewrite Hsec.
  destruct (preset_options p) as [o|].
  - destruct (Ho o eq_refl) as [Hone Hrt].
    assert (Hsec' : section_if (preset_section_name i ++ lit ".options") o
                    = [(preset_section_name i ++ lit ".options", o)]).
    { destruct o; [congruence | reflexivity]. }
    rewrite Hsec'. cbn [app]. split.
    + constructor; [exact Hf|]. constructor; [exact Hrt | exact IH1].
    + constructor; [exact Hn1|]. constructor; [exact Hn2 | exact IH2].
  - cbn [section_if app]. split.
    + constructor; [exact Hf | exact IH1].
    + constructor; [exact Hn1 | exact IH2].
Qed.

Lemma presets_doc_round_trips (ps : list ExportPreset) :
  Forall storable_preset ps -> round_trip_doc (presets_doc 0 ps).
Proof.
  intros Hps. destruct (presets_doc_sections ps 0 Hps) as [H1 H2].
  split; [apply presets_doc_NoDup|]. split; [exact H1|].
  destruct (presets_doc 0 ps) as [|[name keys] d]; [exact I|].
  inversion H2; subst. split; [now right | assumption].
Qed.

(** The sections of the store, looked up by the index of their preset. *)
Lemma presets_doc_lookup (ps : list ExportPreset) :
  forall (i n : nat) (p : ExportPreset),
    Forall storable_preset ps -> nth_error ps n = Some p ->
    map_get (preset_section_name (i + n)) (presets_doc i ps)
    = Some (preset_fields p)
    /\ map_get (preset_section_name (i + n) ++ lit ".options")
         (presets_doc i ps)
       = preset_options p.
Proof.
  induction ps as [|q ps IH]; intros i n p Hps Hn; [now destruct n|].
  inversion Hps as [|? ? Hq Hps']; subst.
  destruct (storable_fields q Hq) as [Hne _].
  destruct (storable_written_options q Hq) as [Hw Ho].
  cbn [presets_doc]. rewrite Hw.
  assert (Hsec : section_if (preset_section_name i) (preset_fields q)
                 = [(preset_section_name i, preset_fields q)]).
  { destruct (preset_fields q); [congruence | reflexivity]. }
  rewrite Hsec. cbn [app map_get].
  assert (Hopt : forall s rest,
            s <> preset_section_name i ++ lit ".options" ->
            map_get s
              (section_if (preset_section_name i ++ lit ".options")
                 match preset_options q with Some o => o | None => [] end
               ++ rest)
            = map_get s rest).
  { intros s rest Hs. destruct (preset_options q) as [[|kv o]|];
      cbn [section_if app map_get]; try reflexivity.
    apply str_eqb_neq in Hs. rewrite str_eqb_sym in Hs. now rewrite Hs. }
  destruct n as [|n].
  - injection Hn as <-. rewrite Nat.add_0_r, str_eqb_refl.
    split; [reflexivity|].
    assert (E : str_eqb (preset_section_name i)
                  (preset_section_name i ++ lit ".options") = false)
      by (apply str_eqb_neq, preset_section_name_options).
    rewrite E.
    destruct (presets_doc_fresh ps (S i) i (Nat.lt_succ_diag_r i)) as [_ H2].
    apply map_get_None_notin in H2.
    destruct (preset_options q) as [o|].
    + destruct (Ho o eq_refl) as [Hone _].
      destruct o as [|kv o]; [congruence|].
      cbn [section_if app map_get]. now rewrite str_eqb_refl.
    + cbn [section_if app]. exact H2.
  - cbn [nth_error] in Hn.
    replace (i + S n) with (S i + n) by lia.
    assert (E1 : str_eqb (preset_section_name i) (preset_section_name (S i + n))
                 = false).
    { apply str_eqb_neq. intros H. apply preset_section_name_inj in H. lia. }
    assert (E2 : str_eqb (preset_section_name i)
                   (preset_section_name (S i + n) ++ lit ".options") = false)
      by (apply str_eqb_neq, preset_section_name_options).
    rewrite E1, E2. rewrite !Hopt.
    + now apply IH.
    + intros H. apply app_inv_tail, preset_section_name_inj in H. lia.
    + intros H. now apply preset_section_name_options in H.
Qed.

Lemma presets_doc_preset_sections (ps : list ExportPreset) :
  forall i,
    Forall storable_preset ps ->
    filter is_preset_section (map_keys (presets_doc i ps))
    = map preset_section_name (seq i (length ps)).
Proof.
  induction ps as [|p ps IH]; intros i Hps; [reflexivity|].
  inversion Hps as [|? ? Hp Hps']; subst.
  destruct (storable_fields p Hp) as [Hne _].
  cbn [presets_doc length seq map]. unfold map_keys in *.
  rewrite !map_app, !filter_app.
  assert (H1 : filter is_preset_section
                 (map fst (section_if (preset_section_name i) (preset_fields p)))
               = [preset_section_name i]).
  { destruct (preset_fields p); [congruence|].
    cbn [section_if map fst filter]. now rewrite is_preset_section_name. }
  assert (H2 : filter is_preset_section
                 (map fst (section_if (preset_section_name i ++ lit ".options")
                             (written_options p)))
               = []).
  { destruct (written_options p); [reflexivity|].
    cbn [section_if map fst filter]. now rewrite is_preset_section_options. }
  rewrite H1, H2, IH by assumption. reflexivity.
Qed.

Lemma insert_section_last (x : jstring) (l : list jstring) :
  (forall y, In y l -> index_before x y = false) ->
  insert_section x l = l ++ [x].
Proof.
  induction l as [|y l IH]; intros H; [reflexivity|].
  cbn [insert_section]. rewrite (H y (or_introl eq_refl)).
  cbn [app]. f_equal. apply IH. intros z Hz. apply H. now right.
Qed.

Lemma sort_sections_names (n : nat) :
  forall i acc,
    (forall y, In y acc -> exists j, j < i /\ y = preset_section_name j) ->
    fold_left (fun acc x => insert_section x acc)
      (map preset_section_name (seq i n)) acc
    = acc ++ map preset_section_name (seq i n).
Proof.
  induction n as [|n IH]; intros i acc Hacc.
  - cbn. now rewrite app_nil_r.
  - cbn [seq map fold_left]. rewrite insert_section_last.
    + rewrite IH.
      * now rewrite <- app_assoc.
      * intros y Hy. apply in_app_or in Hy as [Hy | [<- | []]].
        -- destruct (Hacc y Hy) as (j & Hj & ->). exists j. split; [lia | reflexivity].
        -- exists i. split; [lia | reflexivity].
    + intros y Hy. destruct (Hacc y Hy) as (j & Hj & ->).
      rewrite (index_before_numeric _ _ _ _ (section_index_name i)
                 (section_index_name j)).
      apply Z.ltb_ge. lia.
Qed.

Lemma storable_same_preset (doc : Doc) (sec : jstring) (p p' : ExportPreset) :
  storable_preset p ->
  map_get sec doc = Some (preset_fields p) ->
  map_get (sec ++ lit ".options") doc = preset_options p ->
  preset_of_section doc sec p' -> same_preset p p'.
Proof.
  intros ((Hproto & Hoproto) & Hnd & (Hname & Hplatform & Hrun) & _ & _)
    Hsec Hopt (keys & Hkeys & _ & Hfield & Hnone & Ho).
  rewrite Hsec in Hkeys. injection Hkeys as <-.
  assert (Hnone' : forall o : omap value,
            map_has PROTO o = false -> map_get PROTO o = None).
  { intros o H. unfold map_has in H. now destruct (map_get PROTO o). }
  split.
  - intros k Hk. destruct (str_eqb k PROTO) eqn:Ek.
    { apply str_eqb_eq in Ek. subst k. rewrite Hnone. symmetry.
      now apply Hnone'. }
    apply str_eqb_neq in Ek. rewrite Hfield by assumption.
    unfold preset_fields. rewrite map_get_delete_other by congruence.
    destruct (map_get k p) as [v|] eqn:E; [reflexivity|].
    unfold map_has in Hname, Hplatform, Hrun.
    unfold preset_defaults. cbn [map_get].
    destruct (str_eqb (lit "name") k) eqn:E1.
    { apply str_eqb_eq in E1 as <-. now rewrite E in Hname. }
    destruct (str_eqb (lit "platform") k) eqn:E2.
    { apply str_eqb_eq in E2 as <-. now rewrite E in Hplatform. }
    destruct (str_eqb (lit "runnable") k) eqn:E3.
    { apply str_eqb_eq in E3 as <-. now rewrite E in Hrun. }
    reflexivity.
  - rewrite Hopt in Ho. unfold options_of in Hoproto.
    destruct (preset_options p) as [o|]; [|exact Ho].
    destruct Ho as (o' & Ho' & Hsame & Hnone2). exists o'.
    split; [exact Ho'|]. intros k. destruct (str_eqb k PROTO) eqn:Ek.
    + apply str_eqb_eq in Ek. subst k. rewrite Hnone2. symmetry.
      now apply Hnone'.
    + apply str_eqb_neq in Ek. now apply Hsame.
Qed.

Lemma same_presets_from (doc : Doc) (ps : list ExportPreset) :
  forall (i : nat) (ps' : list ExportPreset),
    Forall storable_preset ps ->
    (forall n p, nth_error ps n = Some p ->
                 map_get (preset_section_name (i + n)) doc
                 = Some (preset_fields p)
                 /\ map_get (preset_section_name (i + n) ++ lit ".options") doc
                    = preset_options p) ->
    Forall2 (preset_of_section doc)
      (map preset_section_name (seq i (length ps))) ps' ->
    Forall2 same_preset ps ps'.
Proof.
  induction ps as [|p ps IH]; intros i ps' Hps Hget Hall.
  - inversion Hall. constructor.
  - inversion Hps as [|? ? Hp Hps']; subst.
    cbn [length seq map] in Hall.
    inversion Hall as [|? p' ? ps'' Hfirst Hrest]; subst.
    constructor.
    + destruct (Hget 0 p eq_refl) as [H1 H2]. rewrite Nat.add_0_r in H1, H2.
      now apply (storable_same_preset doc (preset_section_name i)).
    + apply (IH (S i)); auto.
      intros n q Hn. specialize (Hget (S n) q Hn).
      now replace (i + S n) with (S i + n) in Hget by lia.
Qed.

(** X24. Presets written by [serializeExportPresets] and read by
    [parseExportPresets] come back: for every list of presets that each
    have [name], [platform] and [runnable] and no property named
    [__proto__], whose keys and values the config format carries, and
    whose options are missing, falsy or a non-empty object of such keys
    and values, without a property named [__proto__], the text parses
    without error to as many presets, in the same order, each with the
    same value under every key and the same options under every key. *)
Theorem presets_round_trip (ps : list ExportPreset) :
  Forall storable_preset ps ->
  exists ps',
    parseExportPresets (serializeExportPresets ps) = inr ps'
    /\ Forall2 same_preset ps ps'.
Proof.
  intros Hps.
  unfold serializeExportPresets, encode_to_text, new_ConfigFile.
  rewrite serialize_presets_store;
    [| eapply Forall_impl; [apply storable_object_like | exact Hps]
     | intros j _; split; intros [] ].
  cbn [cf_values app].
  unfold parseExportPresets, ConfigFile_parse.
  rewrite round_trip_doc_parses by now apply presets_doc_round_trips.
  cbn [error values].
  set (cf := {| cf_values := presets_doc 0 ps |}).
  change (get_sections cf) with (map_keys (presets_doc 0 ps)).
  change (fun s : jstring =>
            startsWith (lit "preset.") s && negb (includes (lit ".options") s))
    with is_preset_section.
  rewrite presets_doc_preset_sections by assumption.
  unfold sort_sections.
  rewrite (sort_sections_names (length ps) 0 []) by (intros y []).
  cbn [app].
  destruct (build_presets_spec cf (map preset_section_name (seq 0 (length ps))))
    with (acc := @nil ExportPreset) as (ps' & Hrun & Hall).
  { destruct (presets_doc_round_trips ps Hps) as (Hnd & Hsecs & _).
    split; [exact Hnd|]. eapply Forall_impl; [|exact Hsecs].
    intros sec Hsec. apply Hsec. }
  { intros sec Hin. apply in_map_iff in Hin as (j & <- & Hj).
    apply in_seq in Hj.
    destruct (nth_error ps j) as [p|] eqn:E.
    - destruct (presets_doc_lookup ps 0 j p Hps E) as [H _].
      cbn [Nat.add] in H. eapply map_get_Some_In. exact H.
    - apply nth_error_None in E. lia. }
  exists ps'. split; [exact Hrun|].
  apply (same_presets_from (presets_doc 0 ps) ps 0 ps' Hps); [|exact Hall].
  intros n p Hn. now apply presets_doc_lookup.
Qed.

(** X21. The order of the presets [parseExportPresets] returns, when each
    preset section has a number after its first dot that [parseInt] reads
    exactly: the presets are those of the preset sections, one each (with
    the keys of the section but [options] and [__proto__], and the
    defaults), taken in the order of that number, and sections with the
    same number in the order of the file. *)
Theorem presets_in_index_order (content : jstring)
    (presets : list ExportPreset) :
  parseExportPresets content = inr presets ->
  Forall safe_index
    (filter is_preset_section (map_keys (values (parse_config content)))) ->
  exists secs,
    Forall2 (preset_of_section (values (parse_config content))) secs presets
    /\ Permutation secs
         (filter is_preset_section (map_keys (values (parse_config content))))
    /\ StronglySorted index_le secs
    /\ (forall i,
           filter (has_index i) secs
           = filter (has_index i)
               (filter is_preset_section
                  (map_keys (values (parse_config content))))).
Proof.
  unfold parseExportPresets, ConfigFile_parse.
  destruct (error (parse_config content)) as [e|]; [discriminate|].
  set (cf := {| cf_values := values (parse_config content) |}).
  change (get_sections cf) with (map_keys (values (parse_config content))).
  change (fun s : jstring =>
            startsWith (lit "preset.") s && negb (includes (lit ".options") s))
    with is_preset_section.
  set (l := filter is_preset_section _).
  intros Hrun Hnum.
  destruct (build_presets_spec cf (sort_sections l)
              (parse_config_invariant content))
    with (acc := @nil ExportPreset) as (ps & Hrun' & Hall).
  { intros sec Hin. apply sort_sections_In, filter_In in Hin as [Hin _].
    exact Hin. }
  rewrite Hrun' in Hrun. cbn [app] in Hrun. injection Hrun as <-.
  assert (Hnum' : Forall (fun s => section_index s <> None) l).
  { eapply Forall_impl; [|exact Hnum]. intros s (x & Hx & _). congruence. }
  destruct (sort_sections_by_index l Hnum') as (H1 & H2 & H3).
  exists (sort_sections l). auto.
Qed.

(** ** Merging: options and presets *)








Lemma fold_merge_step_options (rest : list ExportPreset) :
  forall merged current : ExportPreset,
  exists o,
    map_get (lit "options") (fold_left merge_step rest (merge_step merged current))
    = Some (VObj o).
Proof.
  induction rest as [|x rest IH]; intros merged current; simpl.
  - rewrite merge_step_options_field. eauto.
  - apply IH.
Qed.

(** X5. The preset [mergePresets] returns always has an [options]
    property.  For one preset it is a copy of that preset's options, or
    [undefined] when the preset has none; for two or more it is an object,
    even when no preset has options.  No property of the result appears
    twice. *)
Theorem mergePresets_options_present :
  (forall p,
      exists r,
        mergePresets [p] = inr r
        /\ map_get (lit "options") r
           = Some match preset_options p with
                  | Some o => VObj (spread o)
                  | None => VUndefined
                  end)
  /\ (forall p q rest,
         exists r o,
           mergePresets (p :: q :: rest) = inr r
           /\ map_get (lit "options") r = Some (VObj o)
           /\ NoDup (map_keys r)).
Proof.
  split.
  - intros p. eexists. split; [reflexivity|].
    unfold copy_preset. apply map_get_set_same.
  - intros p q rest.
    destruct (fold_merge_step_options rest (copy_preset p) q) as [o Ho].
    exists (fold_left merge_step (q :: rest) (copy_preset p)), o.
    split; [reflexivity|]. split; [exact Ho|].
    cbn [fold_left]. clear Ho. generalize (merge_step_NoDup (copy_preset p) q).
    generalize (merge_step (copy_preset p) q) as m.
    induction rest as [|x rest IH]; intros m Hm.
    + exact Hm.
    + cbn [fold_left]. apply IH, merge_step_NoDup.
Qed.


(** ** The properties of a merged preset *)





(** ** The layout of the text, and the store without repetition *)

(** X26. The layout of the text [serialize_config] writes: one line for
    each item, each ended by a line feed; the sections in their order with
    a blank line between two of them; for a named section its header and
    a blank line, for the unnamed section no header; then the section's
    keys in their order, one [key=value] line each.  A document with no
    line at all gives a single line feed. *)
Theorem serialize_config_layout (d : Doc) :
  serialize_config d
  = match doc_items true d with
    | [] => [LF]
    | _ :: _ => items_text (doc_items true d)
    end.
Proof.
  unfold serialize_config. rewrite serialize_fold_items. cbn [app].
  rewrite join_lines_LF.
  assert (Hflat : forall items,
    flat_map (fun l => l ++ [LF]) (map item_line items) = items_text items).
  { induction items as [|it items IHi]; simpl; [reflexivity|].
    unfold items_text in *. cbn [flat_map]. now rewrite IHi. }
  destruct (doc_items true d) as [|it items]; [reflexivity|].
  now rewrite <- Hflat.
Qed.

(** X27. The store never holds a section twice, nor a key twice in a
    section: this is so of what [parse_config] returns for any text, with
    or without an error, and [set_value] keeps it so.  Hence
    [get_sections] and [get_section_keys] list every name once. *)
Theorem store_without_repetition :
  (forall content, store_invariant (values (parse_config content)))
  /\ (forall cf s k v,
         store_invariant (cf_values cf) ->
         store_invariant (cf_values (set_value cf s k v)))
  /\ (forall cf section,
         store_invariant (cf_values cf) ->
         NoDup (get_sections cf) /\ NoDup (get_section_keys cf section)).
Proof.
  split; [|split].
  - intros content.
    destruct (parse_config_run_total content) as (r & Hrun & -> & _).
    unfold parse_config_run in Hrun.
    assert (H0 : store_invariant ([] : Doc)) by (split; constructor).
    exact (parse_config_loop_invariant _ _ _ _ _ H0 Hrun).
  - intros cf s k v H. now apply store_invariant_doc_set.
  - intros cf section [H1 H2]. split; [exact H1|].
    unfold get_section_keys.
    destruct (map_get section (cf_values cf)) as [keys|] eqn:E; [|constructor].
    destruct (map_get_Forall _ _ _ _ H2 E) as [k' H]. exact H.
Qed.

(** X28. The queries agree with the lists: [has_section] is true exactly
    of the names [get_sections] lists, and [has_section_key] exactly of the
    keys [get_section_keys] lists for the section. *)
Theorem queries_agree (cf : ConfigFile) (s k : jstring) :
  (has_section cf s = true <-> In s (get_sections cf))
  /\ (has_section_key cf s k = true <-> In k (get_section_keys cf s)).
Proof.
  assert (Hhas : forall (V : Type) (x : jstring) (m : omap V),
            map_has x m = true <-> In x (map_keys m)).
  { intros V x m. unfold map_has. split.
    - destruct (map_get x m) eqn:E; [|discriminate].
      intros _. eapply map_get_Some_In; eauto.
    - intros H. destruct (map_get_In x m H) as [v ->]. reflexivity. }
  unfold has_section, has_section_key, get_sections, get_section_keys.
  split; [apply Hhas|].
  destruct (map_get s (cf_values cf)) as [keys|]; [apply Hhas|].
  split; [discriminate | intros []].
Qed.

(** ** The inside of a string literal *)

Lemma piece_text_length (p : string_piece) : 1 <= length (piece_text p).
Proof. destruct p as [[|] c]; simpl; lia. Qed.

Lemma lex_string_loop_pieces (pieces : list string_piece) :
  forall (fuel ln : nat) (acc pre rest : jstring),
    forallb piece_ok pieces = true ->
    length (flat_map piece_text pieces) < fuel ->
    lex_string_loop fuel ln acc false
      (at_ pre (flat_map piece_text pieces ++ DQUOTE :: rest))
    = Ok (acc ++ map piece_value pieces,
          at_ (pre ++ flat_map piece_text pieces ++ [DQUOTE]) rest).
Proof.
  induction pieces as [|[e c] pieces IH]; intros fuel ln acc pre rest Hok Hf.
  - destruct fuel as [|f]; [simpl in Hf; lia|].
    simpl. rewrite get_char_at_cons. simpl.
    rewrite app_nil_r. now destruct (string_end_lookahead _).
  - cbn [forallb] in Hok. apply andb_true_iff in Hok as [Hp Hok].
    unfold piece_ok in Hp. cbn [fst snd] in Hp.
    apply andb_true_iff in Hp as [Hnul Hp]. apply negb_true_iff in Hnul.
    cbn [flat_map map] in *. rewrite length_app in Hf.
    destruct e; unfold piece_text, piece_value in *; cbn [fst snd] in *.
    + destruct fuel as [|[|f]]; [simpl in Hf; lia | simpl in Hf; lia |].
      cbn [app]. cbn [lex_string_loop].
      rewrite get_char_at_cons. cbn -[lex_string_loop at_].
      rewrite get_char_at_cons. rewrite Hnul.
      assert (Hstr :
        (if N.eqb c 110 then acc ++ [LF]
         else if N.eqb c 116 then acc ++ [TAB]
         else if N.eqb c 114 then acc ++ [CR]
         else if N.eqb c BACKSLASH then acc ++ [BACKSLASH]
         else if N.eqb c DQUOTE then acc ++ [DQUOTE]
         else acc ++ [c])
        = acc ++ [unescape_char c]).
      { unfold unescape_char.
        destruct (N.eqb c 110); [reflexivity|].
        destruct (N.eqb c 116); [reflexivity|].
        destruct (N.eqb c 114); [reflexivity|].
        destruct (N.eqb c BACKSLASH) eqn:E1;
          [apply N.eqb_eq in E1; now subst c|].
        destruct (N.eqb c DQUOTE) eqn:E2;
          [apply N.eqb_eq in E2; now subst c|].
        reflexivity. }
      rewrite Hstr.
      rewrite IH by (auto; simpl in Hf; lia).
      now rewrite <- !app_assoc.
    + cbn [orb] in Hp. apply andb_true_iff in Hp as [Hb Hq].
      apply negb_true_iff in Hb. apply negb_true_iff in Hq.
      destruct fuel as [|f]; [simpl in Hf; lia|].
      cbn [app]. cbn [lex_string_loop].
      rewrite get_char_at_cons. rewrite Hnul, Hb, Hq.
      rewrite IH by (auto; simpl in Hf; lia).
      now rewrite <- !app_assoc.
Qed.

(** X29. The value of a string literal, piece by piece: between the
    opening quote and the next unescaped quote, a character written as it
    is stands for itself (line feeds included, so a string may run over
    several lines), and a character written after a backslash stands for
    the line feed, the tab or the carriage return when it is n, t or r and
    for itself otherwise, the backslash and the double quote included.  The
    token has the line of the opening quote. *)
Theorem string_literal_value (pre ws : jstring) (pieces : list string_piece)
    (rest : jstring) :
  forallb is_whitespace ws = true -> forallb piece_ok pieces = true ->
  get_token
    (at_ pre (ws ++ DQUOTE :: flat_map piece_text pieces ++ DQUOTE :: rest))
  = Ok (mkToken STRING (TStr (map piece_value pieces)) (line_after pre ws),
        at_ (pre ++ ws ++ DQUOTE :: flat_map piece_text pieces ++ [DQUOTE])
          rest).
Proof.
  intros Hws Hok. rewrite get_token_start by auto.
  unfold token_switch. cbn [N.eqb NUL DQUOTE LBRACKET RBRACKET LPAREN RPAREN
    EQUALS COMMA_CHAR SEMI HASH_CHAR Pos.eqb].
  rewrite loop_fuel_at.
  rewrite lex_string_loop_pieces; [|assumption|].
  - cbn [app]. do 3 f_equal. now rewrite <- !app_assoc.
  - rewrite length_app. simpl. lia.
Qed.

(** ** Number tokens *)

Lemma number_tail_second_point (r x : jstring) :
  forall h : bool,
    number_tail h r = r -> h = true \/ In DOT r ->
    number_tail h (r ++ DOT :: x) = r
    /\ number_rest h (r ++ DOT :: x) = DOT :: x.
Proof.
  induction r as [|d r IH]; intros h Hr Hdot.
  - destruct Hdot as [-> | []]. split; reflexivity.
  - cbn [app number_tail number_rest] in *.
    destruct (is_digit d) eqn:Ed.
    + injection Hr as Hr.
      destruct (IH h Hr) as [-> ->]; [|auto].
      destruct Hdot as [Hh | [Hd | Hin]]; auto.
      subst d. discriminate.
    + destruct (N.eqb d DOT); [|discriminate].
      destruct h; [discriminate|]. injection Hr as Hr.
      destruct (IH true Hr (or_introl eq_refl)) as [-> ->]. auto.
Qed.

(** The number rule of the dispatch, given what the number loop reads. *)
Lemma token_switch_number_read (again : Stream -> outcome (Token * Stream))
    (ln : nat) (pre : jstring) (c : char) (r rest : jstring) :
  number_text (c :: r) = true ->
  number_tail (N.eqb c DOT) (r ++ rest) = r ->
  number_rest (N.eqb c DOT) (r ++ rest) = rest ->
  token_switch again ln c (at_ pre (r ++ rest))
  = if isNaN (parseFloat (c :: r))
    then Throw {| pe_message := lit "Invalid number: " ++ c :: r;
                  pe_line := ln |}
    else Ok (mkToken NUMBER (TNum (parseFloat (c :: r))) ln,
             at_ (pre ++ r) rest).
Proof.
  intros Hn Htail Hrest. simpl in Hn.
  apply andb_true_iff in Hn as [Hstart _].
  assert (Hsw : N.eqb c NUL = false /\ N.eqb c LBRACKET = false
                /\ N.eqb c RBRACKET = false /\ N.eqb c LPAREN = false
                /\ N.eqb c RPAREN = false /\ N.eqb c EQUALS = false
                /\ N.eqb c COMMA_CHAR = false /\ N.eqb c SEMI = false
                /\ N.eqb c HASH_CHAR = false /\ N.eqb c DQUOTE = false).
  { clear -Hstart. apply orb_true_iff in Hstart as [H|H].
    - repeat split; char_arith.
    - apply andb_true_iff in H as [H _]. repeat split; char_arith. }
  destruct Hsw as (H0 & H1 & H2 & H3 & H4 & H5 & H6 & H7 & H8 & H9).
  unfold token_switch. rewrite H0, H1, H2, H3, H4, H5, H6, H7, H8, H9.
  assert (Hcond : is_digit c
                  || N.eqb c MINUS && is_digit (peek_char (at_ (pre) (r ++ rest)))
                  || N.eqb c PLUS && is_digit (peek_char (at_ (pre) (r ++ rest)))
                  || N.eqb c DOT && is_digit (peek_char (at_ (pre) (r ++ rest)))
                  = true).
  { destruct (is_digit c); [reflexivity|]. simpl in Hstart.
    apply andb_true_iff in Hstart as [Hc Hd].
    destruct r as [|d r]; [discriminate|]. simpl app.
    rewrite peek_char_at_cons, Hd, !andb_true_r. simpl.
    destruct (N.eqb c MINUS), (N.eqb c PLUS), (N.eqb c DOT); auto. }
  rewrite Hcond. rewrite loop_fuel_at, lex_number_loop_at by lia.
  rewrite Htail, Hrest. reflexivity.
Qed.

(** X30. Number tokens.  A text that starts with a digit, or with a sign or
    a point directly before a digit, and goes on with digits and at most
    one point in all, is read as one NUMBER token whose value is
    [parseFloat] of the text, when what follows is neither a digit nor a
    point (a letter such as the e of an exponent ends the number).  When
    the text already has its point, a second point ends the number too and
    is left for the next token. *)
Theorem number_token (pre ws t : jstring) :
  forallb is_whitespace ws = true -> number_text t = true ->
  isNaN (parseFloat t) = false ->
  (forall rest, stops number_char rest ->
     get_token (at_ pre (ws ++ t ++ rest))
     = Ok (mkToken NUMBER (TNum (parseFloat t)) (line_after pre ws),
           at_ (pre ++ ws ++ t) rest))
  /\ (In DOT t ->
      forall rest,
        get_token (at_ pre (ws ++ t ++ DOT :: rest))
        = Ok (mkToken NUMBER (TNum (parseFloat t)) (line_after pre ws),
              at_ (pre ++ ws ++ t) (DOT :: rest))).
Proof.
  intros Hws Ht Hnan. destruct t as [|c r]; [discriminate|].
  assert (Htail : number_tail (N.eqb c DOT) r = r).
  { simpl in Ht. apply andb_true_iff in Ht as [_ Ht].
    now apply str_eqb_eq in Ht. }
  assert (Hread : forall rest,
            number_tail (N.eqb c DOT) (r ++ rest) = r ->
            number_rest (N.eqb c DOT) (r ++ rest) = rest ->
            get_token (at_ pre (ws ++ (c :: r) ++ rest))
            = Ok (mkToken NUMBER (TNum (parseFloat (c :: r))) (line_after pre ws),
                  at_ (pre ++ ws ++ c :: r) rest)).
  { intros rest H1 H2. cbn [app].
    rewrite get_token_start by eauto using number_start_not_whitespace.
    rewrite token_switch_number_read by assumption. rewrite Hnan.
    do 2 f_equal. now rewrite <- !app_assoc. }
  split.
  - intros rest Hrest.
    destruct (number_tail_app r rest (N.eqb c DOT) Htail Hrest) as [H1 H2].
    now apply Hread.
  - intros Hin rest.
    destruct (number_tail_second_point r rest (N.eqb c DOT) Htail) as [H1 H2].
    { destruct Hin as [<- | Hin]; [left; apply N.eqb_refl | now right]. }
    now apply Hread.
Qed.

End Theory.

(* ================================================================== *)
(** * The claims on concrete inputs, and the key-quoting law *)

#[local] Existing Instance decimal_numbers.


(** ** The round trip on concrete documents *)

Lemma decimal_lexes_back (n : dnum) :
  @number_text (@Number_toString decimal_numbers n) = true ->
  dparseFloat (dtoString n) = n ->
  match n with DNaN => false | _ => true end = true ->
  @lexes_back decimal_numbers n.
Proof. intros H1 H2 H3. repeat split; auto. now destruct n. Qed.

Ltac rt_argument :=
  first [ left; apply decimal_lexes_back; reflexivity
        | right; left; split; reflexivity
        | right; right; split; reflexivity ].

Ltac rt_key :=
  first [ left; reflexivity | right; split; reflexivity ].

Ltac rt_value :=
  first [ apply rt_bool
        | apply rt_str; reflexivity
        | apply rt_num; split;
          [reflexivity | apply decimal_lexes_back; reflexivity]
        | apply rt_color; rt_argument
        | apply rt_vector2; rt_argument ].

Ltac rt_section :=
  split;
  [ repeat constructor; simpl; intuition discriminate
  | repeat (apply Forall_cons; [split; [rt_key | rt_value]|]);
    apply Forall_nil ].

Lemma sample_doc_round_trips : round_trip_doc sample_doc.
Proof.
  unfold round_trip_doc, sample_doc. split; [|split].
  - repeat constructor; simpl; intuition discriminate.
  - repeat (apply Forall_cons; [rt_section|]). apply Forall_nil.
  - split; [left; split; [reflexivity | discriminate]|].
    repeat (apply Forall_cons; [reflexivity|]). apply Forall_nil.
Defined.

Lemma C1_round_trip_witness :
  round_trip_doc sample_doc
  /\ parse_config (serialize_config sample_doc)
     = {| values := sample_doc; error := None |}.
Proof.
  split; [exact sample_doc_round_trips|].
  exact (proj2 (C1_round_trip sample_doc sample_doc_round_trips)).
Defined.

(** C1 as stated fails on a document holding a Null: the writer prints
    [null], which the parser rejects as an unknown identifier. *)
Lemma C1_null_counterexample :
  parse_config (serialize_config [(lit "s", [(lit "k", VNull)])])
  = {| values := [(lit "s", [])];
       error := Some {| pe_message := lit "Unknown identifier: null";
                        pe_line := 3 |} |}
  /\ values (parse_config (serialize_config [(lit "s", [(lit "k", VNull)])]))
     <> [(lit "s", [(lit "k", VNull)])].
Proof.
  assert (E : parse_config (serialize_config [(lit "s", [(lit "k", VNull)])])
              = {| values := [(lit "s", [])];
                   error := Some {| pe_message := lit "Unknown identifier: null";
                                    pe_line := 3 |} |})
    by reflexivity.
  split; [exact E|]. rewrite E. cbn [values]. discriminate.
Qed.

(** Why the amended round trip asks what it asks: a top-level NaN, a key
    that reads as a boolean, an unnamed section that is not the first, a
    section name with a space, and a negative infinity in a Color each fail
    to come back. *)
Lemma round_trip_limits :
  error (parse_config (serialize_config [(lit "s", [(lit "k", VNum DNaN)])]))
  = Some {| pe_message := lit "Unknown identifier: nan"; pe_line := 3 |}
  /\ parse_config (serialize_config [(lit "s", [(lit "true", VBool false)])])
     = {| values := [(lit "s", [])]; error := None |}
  /\ parse_config
       (serialize_config
          [(lit "s", [(lit "a", VBool true)]); ([], [(lit "b", VBool true)])])
     = {| values := [(lit "s", [(lit "a", VBool true); (lit "b", VBool true)])];
          error := None |}
  /\ error (parse_config (serialize_config [(lit "my section", [])]))
     = Some {| pe_message := lit "Expected ']' after section name";
               pe_line := 1 |}
  /\ error (parse_config
              (serialize_config
                 [(lit "s",
                   [(lit "c",
                     Color (DInf true) (DFin false 0 0) (DFin false 0 0)
                       (DFin false 1 0))])]))
     = Some {| pe_message := lit "Unexpected character: -"; pe_line := 3 |}.
Proof. repeat split; reflexivity. Qed.

(** ** The string rule on a concrete input *)

(** C2 as stated fails where a quote is followed by an equals sign: the
    look-ahead test is false there, yet the string is closed at the quote
    and the equals sign is left for the next token. *)
Lemma C2_quote_before_equals_counterexample :
  string_end_lookahead EQUALS = false
  /\ get_token (new_Stream (DQUOTE :: lit "a=b" ++ DQUOTE :: lit "=7"))
     = Ok (mkToken STRING (TStr (lit "a=b")) 1,
           at_ (DQUOTE :: lit "a=b" ++ [DQUOTE]) (lit "=7")).
Proof. split; reflexivity. Qed.

Lemma C2_unescaped_quote_closes_witness :
  forallb is_whitespace [SPACE] = true /\ no_NUL (lit "a=b") = true
  /\ get_token (at_ [] ([SPACE] ++ DQUOTE :: escape_string (lit "a=b")
                          ++ DQUOTE :: lit "=7"))
     = Ok (mkToken STRING (TStr (lit "a=b")) (line_after [] [SPACE]),
           at_ ([] ++ [SPACE] ++ DQUOTE :: escape_string (lit "a=b") ++ [DQUOTE])
             (lit "=7")).
Proof.
  assert (H1 : forallb is_whitespace [SPACE] = true) by reflexivity.
  assert (H2 : no_NUL (lit "a=b") = true) by reflexivity.
  split; [exact H1|]. split; [exact H2|].
  pose proof (proj2 C2_unescaped_quote_closes [] [SPACE] (lit "a=b") (lit "=7"))
    as H.
  exact (H H1 H2).
Defined.

(** ** The constructors on concrete inputs *)

(** The inputs of the repository's tests for the string arrays. *)
Lemma string_array_tests_fail :
  error (parse_config
           (lit "[application]" ++ LF :: LF
              :: lit "config/tags=PackedStringArray()" ++ [LF]))
  = Some {| pe_message := lit "Unknown identifier: PackedStringArray";
            pe_line := 3 |}
  /\ error (parse_config
              (lit "config/tags=PoolStringArray(" ++ DQUOTE :: lit "legacy"
                 ++ DQUOTE :: lit ", " ++ DQUOTE :: lit "alias" ++ DQUOTE
                 :: lit ")"))
     = Some {| pe_message := lit "Unknown identifier: PoolStringArray";
               pe_line := 1 |}
  /\ error (parse_config
              (lit "config/tags=StringArray(" ++ DQUOTE :: lit "another"
                 ++ DQUOTE :: lit ", " ++ DQUOTE :: lit "alias" ++ DQUOTE
                 :: lit ")"))
     = Some {| pe_message := lit "Unknown identifier: StringArray";
               pe_line := 1 |}.
Proof. repeat split; reflexivity. Qed.

(** The two Color examples of the specification, and the sentinels the
    argument loop does accept. *)
Lemma Color_examples :
  parse_config (lit "c=Color(0, 0.5, 1)")
  = {| values := [];
       error := Some {| pe_message :=
                          lit "Expected 4 arguments for Color constructor";
                        pe_line := 1 |} |}
  /\ parse_config (lit "c=Color(0, 0.5, 1, 1)")
     = {| values :=
            [([], [(lit "c",
                    Color (DFin false 0 0) (DFin false 5 1) (DFin false 1 0)
                      (DFin false 1 0))])];
          error := None |}
  /\ parse_config (lit "c=Color(inf, nan, 1, 2)")
     = {| values :=
            [([], [(lit "c",
                    Color (DInf false) DNaN (DFin false 1 0)
                      (DFin false 2 0))])];
          error := None |}
  /\ parse_config (lit "c=Color(-inf, 0, 0, 0)")
     = {| values := [];
          error := Some {| pe_message := lit "Unexpected character: -";
                           pe_line := 1 |} |}.
Proof. repeat split; reflexivity. Qed.

(** ** The section header on a concrete input *)

(** The writer's own text for a section named with a closing bracket does
    not parse. *)
Lemma escaped_bracket_from_writer :
  serialize_config [(lit "a]b", [])]
  = LBRACKET :: lit "a" ++ BACKSLASH :: lit "]b]" ++ [LF; LF]
  /\ parse_config (serialize_config [(lit "a]b", [])])
     = {| values := [];
          error := Some {| pe_message := lit "Unexpected character: "
                                           ++ [BACKSLASH];
                           pe_line := 1 |} |}.
Proof. split; reflexivity. Qed.

Lemma C8_escaped_bracket_rejected_witness :
  name_like (lit "a") = true
  /\ parse_config_step [] []
       (at_ [] (LBRACKET :: lit "a" ++ BACKSLASH :: lit "]b]"))
     = Throw {| pe_message := lit "Unexpected character: " ++ [BACKSLASH];
                pe_line := S (count_lf ([] ++ LBRACKET :: lit "a")) |}.
Proof.
  assert (H1 : name_like (lit "a") = true) by reflexivity.
  split; [exact H1|].
  pose proof (C8_escaped_bracket_rejected [] [] [] (lit "a") (lit "]b]")) as H.
  exact (H H1).
Defined.

(** ** ConfigFile.parse on a concrete input *)

Lemma C9_parse_keeps_store_on_error_witness :
  snd (ConfigFile_parse old_store failing_content)
  = Some {| pe_message := lit "Unknown identifier: null"; pe_line := 3 |}
  /\ values (parse_config failing_content) = [(lit "a", [(lit "k", VBool true)])]
  /\ fst (ConfigFile_parse old_store failing_content) = old_store
  /\ error (parse_config failing_content)
     = Some {| pe_message := lit "Unknown identifier: null"; pe_line := 3 |}.
Proof.
  assert (H1 : snd (ConfigFile_parse old_store failing_content)
               = Some {| pe_message := lit "Unknown identifier: null";
                         pe_line := 3 |}) by reflexivity.
  split; [exact H1|]. split; [reflexivity|].
  pose proof (proj1 (C9_parse_keeps_store_on_error old_store failing_content))
    as H.
  exact (H _ H1).
Defined.

(** ** Presets on concrete inputs *)

(** A key [__proto__] in a preset section or in its options section makes
    no property: written with a string, or with a Color, which becomes the
    prototype of the object. *)
Lemma proto_key_not_copied :
  parseExportPresets
    (lit "[preset.0]" ++ LF :: lit "__proto__=" ++ DQUOTE :: lit "x"
       ++ DQUOTE :: LF :: lit "name=" ++ DQUOTE :: lit "n" ++ DQUOTE :: LF
       :: lit "[preset.0.options]" ++ LF
       :: lit "__proto__=Color(0, 0, 0, 1)" ++ LF :: lit "a=true" ++ [LF])
  = inr [[(lit "name", VStr (lit "n")); (lit "platform", VStr []);
          (lit "runnable", VBool false);
          (lit "options", VObj [(lit "a", VBool true)])]].
Proof. reflexivity. Qed.

Lemma C10_preset_defaults_witness :
  parseExportPresets presets_content = inr presets_parsed
  /\ error (parse_config presets_content) = None
  /\ Forall
       (fun preset =>
          exists sec,
            In sec (map_keys (values (parse_config presets_content)))
            /\ startsWith (lit "preset.") sec = true
            /\ preset_of_section (values (parse_config presets_content)) sec
                 preset)
       presets_parsed.
Proof.
  assert (H1 : parseExportPresets presets_content = inr presets_parsed)
    by reflexivity.
  split; [exact H1|].
  pose proof (C10_preset_defaults presets_content presets_parsed) as H.
  exact (H H1).
Defined.



(** The amended rule needs its conditions: a later preset's property named
    [__proto__] is not taken over, neither among the fields nor among the
    options; and when its value is a mapping, the properties of that
    mapping are merged with the later preset's properties of the same
    names. *)
Lemma merge_proto_limits :
  mergePresets [[(lit "name", VStr (lit "a"))]; [(PROTO, VStr (lit "p"))]]
  = inr [(lit "name", VStr (lit "a")); (lit "options", VObj [])]
  /\ mergePresets
       [[(lit "options", VObj [])];
        [(lit "options", VObj [(PROTO, VStr (lit "p"))])]]
     = inr [(lit "options", VObj [])]
  /\ mergePresets
       [[(lit "name", VStr (lit "a"))];
        [(PROTO, VObj [(lit "f", VObj [(lit "x", VBool true)])]);
         (lit "f", VObj [(lit "y", VBool false)])]]
     = inr [(lit "name", VStr (lit "a")); (lit "options", VObj []);
            (lit "f", VObj [(lit "x", VBool true); (lit "y", VBool false)])].
Proof. repeat split; reflexivity. Qed.

(** ** An unterminated string on a concrete input *)

Lemma unterminated_example :
  parse_config unterminated_content
  = {| values := [(lit "s", [(lit "k", VBool true)])];
       error := Some {| pe_message := lit "Unterminated string";
                        pe_line := 4 |} |}.
Proof. reflexivity. Qed.

Lemma C4_errors_returned_witness :
  error (parse_config unterminated_content)
  = Some {| pe_message := lit "Unterminated string"; pe_line := 4 |}
  /\ (1 <= 4 /\ 4 <= S (count_lf unterminated_content))
  /\ (lit "Unterminated string" = lit "Unterminated string" ->
      unterminated_at unterminated_content 4).
Proof.
  assert (H1 : error (parse_config unterminated_content)
               = Some {| pe_message := lit "Unterminated string";
                         pe_line := 4 |}) by reflexivity.
  split; [exact H1|].
  pose proof (proj1 (proj2 (proj2 (C4_errors_returned unterminated_content))))
    as H.
  exact (H _ H1).
Defined.

(* ================================================================== *)
(** * The further properties on concrete inputs *)

Ltac no_dup := repeat constructor; simpl; intuition discriminate.


Lemma setPreset_replaces_witness :
  1 < length (elements sample_array)
  /\ length (elements (setPreset sample_array sample_preset
                         (Some (whole (Z.of_nat 1)))))
     = length (elements sample_array)
  /\ getPreset (setPreset sample_array sample_preset (Some (whole (Z.of_nat 1))))
       (whole (Z.of_nat 1))
     = Some sample_preset
  /\ (forall z : Z,
         z <> Z.of_nat 1 ->
         getPreset (setPreset sample_array sample_preset
                      (Some (whole (Z.of_nat 1))))
           (whole z)
         = getPreset sample_array (whole z)).
Proof.
  assert (H : 1 < length (elements sample_array)) by (simpl; lia).
  split; [exact H|]. exact (setPreset_replaces sample_array sample_preset 1 H).
Defined.

Lemma setPreset_appends_witness :
  appending_index sample_array (Some (IFin five_halves))
  /\ elements (setPreset sample_array sample_preset (Some (IFin five_halves)))
     = elements sample_array ++ [sample_preset]
  /\ getPreset (setPreset sample_array sample_preset (Some (IFin five_halves)))
       (whole (Z.of_nat (length (elements sample_array))))
     = Some sample_preset
  /\ (forall z : Z,
         z <> Z.of_nat (length (elements sample_array)) ->
         getPreset (setPreset sample_array sample_preset
                      (Some (IFin five_halves))) (whole z)
         = getPreset sample_array (whole z)).
Proof.
  assert (H : appending_index sample_array (Some (IFin five_halves))).
  { right. right. right. exists five_halves. split; [reflexivity|].
    right. unfold QArith_base.Qle. simpl. lia. }
  split; [exact H|].
  exact (setPreset_appends sample_array sample_preset
           (Some (IFin five_halves)) H).
Defined.

Lemma setPreset_fraction_witness :
  is_whole one_half = false
  /\ index_nonnegative (IFin one_half) = true
  /\ index_below (IFin one_half) (length (elements sample_array)) = true
  /\ elements (setPreset sample_array sample_preset (Some (IFin one_half)))
     = elements sample_array
  /\ getPreset (setPreset sample_array sample_preset (Some (IFin one_half)))
       (IFin one_half)
     = Some sample_preset.
Proof.
  assert (H1 : is_whole one_half = false) by reflexivity.
  assert (H2 : index_nonnegative (IFin one_half) = true) by reflexivity.
  assert (H3 : index_below (IFin one_half) (length (elements sample_array))
               = true) by reflexivity.
  repeat (split; [assumption|]).
  exact (setPreset_fraction sample_array sample_preset one_half H1 H2 H3).
Defined.

Lemma removePreset_removes_witness :
  0 < length (elements sample_array)
  /\ elements (removePreset sample_array (whole (Z.of_nat 0)))
     = firstn 0 (elements sample_array) ++ skipn 1 (elements sample_array)
  /\ S (length (elements (removePreset sample_array (whole (Z.of_nat 0)))))
     = length (elements sample_array)
  /\ (forall j : nat,
         getPreset (removePreset sample_array (whole (Z.of_nat 0)))
           (whole (Z.of_nat j))
         = if j <? 0 then getPreset sample_array (whole (Z.of_nat j))
           else getPreset sample_array (whole (Z.of_nat (S j)))).
Proof.
  assert (H : 0 < length (elements sample_array)) by (simpl; lia).
  split; [exact H|]. exact (removePreset_removes sample_array 0 H).
Defined.

Lemma comment_skipped_witness :
  forallb is_whitespace [SPACE] = true
  /\ (SEMI = SEMI \/ SEMI = HASH_CHAR)
  /\ comment_body (lit " a note") = true
  /\ get_token (at_ [] ([SPACE] ++ SEMI :: lit " a note" ++ LF :: lit "k=1"))
     = get_token (at_ ([] ++ [SPACE] ++ SEMI :: lit " a note" ++ [LF])
                    (lit "k=1"))
  /\ get_token (at_ [] ([SPACE] ++ SEMI :: lit " a note"))
     = Ok (mkToken EOF (TStr []) (line_after [] [SPACE]),
           at_ ([] ++ [SPACE] ++ SEMI :: lit " a note") [])
  /\ (forall cur vals,
         parse_config_step cur vals
           (at_ [] ([SPACE] ++ SEMI :: lit " a note" ++ LF :: lit "k=1"))
         = parse_config_step cur vals
             (at_ ([] ++ [SPACE] ++ SEMI :: lit " a note" ++ [LF])
                (lit "k=1"))).
Proof.
  assert (H1 : forallb is_whitespace [SPACE] = true) by reflexivity.
  assert (H2 : SEMI = SEMI \/ SEMI = HASH_CHAR) by (left; reflexivity).
  assert (H3 : comment_body (lit " a note") = true) by reflexivity.
  repeat (split; [assumption|]).
  exact (comment_skipped [] [SPACE] SEMI (lit " a note") (lit "k=1") H1 H2 H3).
Defined.

Lemma stray_tokens_skipped_witness :
  forallb is_whitespace [LF] = true
  /\ (forall c, c = LPAREN \/ c = RPAREN \/ c = EQUALS \/ c = COMMA_CHAR ->
        parse_config_step [] [] (at_ [] ([LF] ++ c :: lit " k=1"))
        = Ok (Some ([], []), at_ ([] ++ [LF] ++ [c]) (lit " k=1")))
  /\ (forall t, number_text t = true -> stops number_char (lit " k=1") ->
        isNaN (parseFloat t) = false ->
        parse_config_step [] [] (at_ [] ([LF] ++ t ++ lit " k=1"))
        = Ok (Some ([], []), at_ ([] ++ [LF] ++ t) (lit " k=1")))
  /\ (forall b : bool, stops is_identifier_char (lit " k=1") ->
        parse_config_step [] []
          (at_ [] ([LF] ++ (if b then lit "true" else lit "false") ++ lit " k=1"))
        = Ok (Some ([], []),
              at_ ([] ++ [LF] ++ (if b then lit "true" else lit "false"))
                (lit " k=1"))).
Proof.
  assert (H : forallb is_whitespace [LF] = true) by reflexivity.
  split; [exact H|].
  exact (stray_tokens_skipped [] [] [] [LF] (lit " k=1") H).
Defined.

Lemma statement_errors_witness :
  forallb is_whitespace [LF] = true
  /\ parse_config_step [] [] (at_ [] ([LF] ++ RBRACKET :: lit "x"))
     = Throw {| pe_message := lit "Unexpected ']'";
                pe_line := line_after [] [LF] |}
  /\ parse_config_step [] [] (at_ [] ([LF] ++ lit "a" ++ LF :: lit "b=1"))
     = Throw {| pe_message := lit "Expected '=' after key"; pe_line := 3 |}.
Proof.
  assert (H : forallb is_whitespace [LF] = true) by reflexivity.
  pose proof (statement_errors [] [] [] [LF] H) as (E1 & E2 & _).
  split; [exact H|]. split; [exact (E1 (lit "x"))|].
  assert (Ht : get_token (at_ ([] ++ [LF] ++ lit "a") (LF :: lit "b=1"))
               = Ok (mkToken IDENTIFIER (TStr (lit "b")) 3,
                     at_ ([LF] ++ lit "a" ++ LF :: lit "b") (lit "=1")))
    by reflexivity.
  pose proof (E2 (lit "a") (LF :: lit "b=1") _ _ eq_refl eq_refl Ht) as E.
  apply E. discriminate.
Defined.

Lemma constructor_arity_witness :
  Forall constructor_argument [DFin false 1 0; DFin false 5 1; DNaN]
  /\ parse_value
       (at_ [] (lit "Color" ++ LPAREN
                  :: arguments_text [DFin false 1 0; DFin false 5 1; DNaN]
                  ++ RPAREN :: [LF]))
     = Throw {| pe_message := lit "Expected 4 arguments for Color constructor";
                pe_line := S (count_lf []) |}.
Proof.
  assert (H : Forall constructor_argument [DFin false 1 0; DFin false 5 1; DNaN]).
  { repeat (apply Forall_cons; [rt_argument|]). apply Forall_nil. }
  split; [exact H|].
  exact (proj1 (constructor_arity _ [] [LF] H)).
Defined.

Lemma entry_spacing_witness :
  forallb is_whitespace [] = true /\ forallb is_whitespace [SPACE; LF] = true
  /\ forallb is_whitespace [TAB] = true
  /\ round_trip_key (lit "a b") /\ round_trip_value (VStr (lit "c"))
  /\ parse_config_step (lit "s") []
       (at_ [] ([] ++ encode_key (lit "a b") ++ [SPACE; LF] ++ EQUALS :: [TAB]
                  ++ serialize_value (VStr (lit "c")) ++ LF :: []))
     = Ok (Some (lit "s", doc_set (lit "s") (lit "a b") (VStr (lit "c")) []),
           at_ ([] ++ [] ++ encode_key (lit "a b") ++ [SPACE; LF] ++ EQUALS
                  :: [TAB] ++ serialize_value (VStr (lit "c")))
             (LF :: [])).
Proof.
  assert (H1 : forallb is_whitespace [] = true) by reflexivity.
  assert (H2 : forallb is_whitespace [SPACE; LF] = true) by reflexivity.
  assert (H3 : forallb is_whitespace [TAB] = true) by reflexivity.
  assert (H4 : round_trip_key (lit "a b")) by rt_key.
  assert (H5 : round_trip_value (VStr (lit "c"))) by rt_value.
  repeat (split; [assumption|]).
  exact (entry_spacing (lit "s") [] [] [] [SPACE; LF] [TAB] (lit "a b")
           (VStr (lit "c")) [] H1 H2 H3 H4 H5).
Defined.

Lemma sample_lines_ok : Forall item_ok sample_lines.
Proof.
  unfold sample_lines.
  repeat (apply Forall_cons;
          [first [reflexivity | split; [rt_key | rt_value]]|]).
  apply Forall_nil.
Defined.

Lemma parse_config_lines_witness :
  Forall item_ok sample_lines
  /\ parse_config (items_text sample_lines)
     = {| values := [(lit "s", [(lit "k", VBool false);
                                (lit "a b", VStr (lit "c"))]);
                     (lit "t", [])];
          error := None |}.
Proof.
  split; [exact sample_lines_ok|].
  exact (proj1 (parse_config_lines sample_lines sample_lines_ok)).
Defined.

Lemma presets_in_index_order_witness :
  parseExportPresets presets_content = inr presets_parsed
  /\ Forall safe_index
       (filter is_preset_section
          (map_keys (values (parse_config presets_content))))
  /\ exists secs,
       Forall2 (preset_of_section (values (parse_config presets_content)))
         secs presets_parsed
       /\ Permutation secs
            (filter is_preset_section
               (map_keys (values (parse_config presets_content))))
       /\ StronglySorted index_le secs
       /\ (forall i,
              filter (has_index i) secs
              = filter (has_index i)
                  (filter is_preset_section
                     (map_keys (values (parse_config presets_content))))).
Proof.
  assert (H1 : parseExportPresets presets_content = inr presets_parsed)
    by reflexivity.
  assert (E : filter is_preset_section
                (map_keys (values (parse_config presets_content)))
              = [lit "preset.1"; lit "preset.0"]) by reflexivity.
  assert (H2 : Forall safe_index
                 (filter is_preset_section
                    (map_keys (values (parse_config presets_content))))).
  { rewrite E.
    apply Forall_cons; [exists 1%Z; split; [reflexivity | discriminate]|].
    apply Forall_cons; [exists 0%Z; split; [reflexivity | discriminate]|].
    apply Forall_nil. }
  split; [exact H1|]. split; [exact H2|].
  exact (presets_in_index_order presets_content presets_parsed H1 H2).
Defined.

Lemma stored_presets_storable : Forall storable_preset stored_presets.
Proof.
  unfold stored_presets.
  apply Forall_cons; [|apply Forall_cons; [|apply Forall_nil]].
  - split; [split; reflexivity|].
    split; [no_dup|]. split; [repeat split; reflexivity|]. split.
    + repeat (apply Forall_cons;
              [first [left; reflexivity | right; split; [rt_key | rt_value]]|]).
      apply Forall_nil.
    + split; [discriminate|]. rt_section.
  - split; [split; reflexivity|].
    split; [no_dup|]. split; [repeat split; reflexivity|]. split.
    + repeat (apply Forall_cons;
              [first [left; reflexivity | right; split; [rt_key | rt_value]]|]).
      apply Forall_nil.
    + reflexivity.
Defined.

Lemma stored_presets_object_like : Forall object_like stored_presets.
Proof.
  unfold stored_presets. repeat (apply Forall_cons; [split; no_dup|]).
  apply Forall_nil.
Defined.

Lemma serializeExportPresets_layout_witness :
  Forall object_like stored_presets
  /\ serializeExportPresets stored_presets
     = serialize_config (presets_doc 0 stored_presets).
Proof.
  split; [exact stored_presets_object_like|].
  exact (serializeExportPresets_layout stored_presets stored_presets_object_like).
Defined.

Lemma presets_round_trip_witness :
  Forall storable_preset stored_presets
  /\ exists ps',
       parseExportPresets (serializeExportPresets stored_presets) = inr ps'
       /\ Forall2 same_preset stored_presets ps'.
Proof.
  split; [exact stored_presets_storable|].
  exact (presets_round_trip stored_presets stored_presets_storable).
Defined.


Lemma string_literal_value_witness :
  forallb is_whitespace [SPACE] = true
  /\ forallb piece_ok sample_pieces = true
  /\ get_token
       (at_ (lit "k=")
          ([SPACE]
           ++ DQUOTE
              :: flat_map piece_text sample_pieces ++ DQUOTE :: lit " ; end"))
     = Ok (mkToken STRING (TStr (map piece_value sample_pieces))
             (line_after (lit "k=") [SPACE]),
           at_ (lit "k=" ++ [SPACE]
                ++ DQUOTE :: flat_map piece_text sample_pieces ++ [DQUOTE])
             (lit " ; end")).
Proof.
  assert (H1 : forallb is_whitespace [SPACE] = true) by reflexivity.
  assert (H2 : forallb piece_ok sample_pieces = true) by reflexivity.
  repeat (split; [assumption|]).
  exact (string_literal_value (lit "k=") [SPACE] _ (lit " ; end") H1 H2).
Defined.

Lemma number_token_witness :
  forallb is_whitespace [SPACE] = true
  /\ number_text (lit "-1.5") = true
  /\ isNaN (parseFloat (lit "-1.5")) = false
  /\ stops number_char (lit "e3")
  /\ In DOT (lit "-1.5")
  /\ get_token (at_ (lit "k=") ([SPACE] ++ lit "-1.5" ++ lit "e3"))
     = Ok (mkToken NUMBER (TNum (parseFloat (lit "-1.5")))
             (line_after (lit "k=") [SPACE]),
           at_ (lit "k=" ++ [SPACE] ++ lit "-1.5") (lit "e3"))
  /\ get_token (at_ (lit "k=") ([SPACE] ++ lit "-1.5" ++ DOT :: lit "2"))
     = Ok (mkToken NUMBER (TNum (parseFloat (lit "-1.5")))
             (line_after (lit "k=") [SPACE]),
           at_ (lit "k=" ++ [SPACE] ++ lit "-1.5") (DOT :: lit "2")).
Proof.
  assert (H1 : forallb is_whitespace [SPACE] = true) by reflexivity.
  assert (H2 : number_text (lit "-1.5") = true) by reflexivity.
  assert (H3 : isNaN (parseFloat (lit "-1.5")) = false) by reflexivity.
  assert (H4 : stops number_char (lit "e3")) by reflexivity.
  assert (H5 : In DOT (lit "-1.5")) by (simpl; auto).
  repeat (split; [assumption|]).
  destruct (number_token (lit "k=") [SPACE] (lit "-1.5") H1 H2 H3) as [Ha Hb].
  split; [exact (Ha _ H4) | exact (Hb H5 _)].
Defined.
